(** * SortEX: date resolution, Live-Photo grouping and relocation

    A shallow embedding of [sortex_main.py].  The worker of the program
    (everything below the Tk shell) is modelled:

    - [pathlib] paths are lists of components, compared component-wise;
    - the file system is the finite set of occupied paths;
    - the collaborators that can fail ([Image.open], [stat], [mkdir],
      [shutil.copy2], [shutil.move], [datetime.strptime]) are fields of a
      record and return in an error monad; [try]/[except] is [try_except];
    - insertion-ordered [dict]s whose iteration order is observable are
      association lists.

    Text is modelled by [string] (8-bit characters); [str.lower] is the
    ASCII case folding. *)

From Stdlib Require Import Ascii.
From stdpp Require Import gmap strings list pretty sorting.

Local Open Scope string_scope.
Local Open Scope list_scope.
Local Open Scope nat_scope.

(** ** Python strings *)

Module Str.

(** [len(s)] *)
Definition len (s : string) : nat := String.length s.

(** [s[:n]] and [s[n:]] for [0 <= n] *)
Fixpoint take (n : nat) (s : string) : string :=
  match n, s with
  | S n, String a s => String a (take n s)
  | _, _ => ""
  end.

Fixpoint drop (n : nat) (s : string) : string :=
  match n, s with
  | S n, String _ s => drop n s
  | _, _ => s
  end.

(** [s.rfind(c)], with [None] for Python's [-1] *)
Fixpoint rfind (c : ascii) (s : string) : option nat :=
  match s with
  | "" => None
  | String a s =>
      match rfind c s with
      | Some i => Some (S i)
      | None => if Ascii.eqb a c then Some 0 else None
      end
  end.

Definition lower_char (a : ascii) : ascii :=
  let n := nat_of_ascii a in
  if (65 <=? n)%nat && (n <=? 90)%nat then ascii_of_nat (n + 32) else a.

(** [s.lower()] *)
Fixpoint lower (s : string) : string :=
  match s with
  | "" => ""
  | String a s => String (lower_char a) (lower s)
  end.

(** [sep.join(l)] *)
Fixpoint join (sep : string) (l : list string) : string :=
  match l with
  | [] => ""
  | [x] => x
  | x :: l => x +:+ sep +:+ join sep l
  end.

(** [s.endswith(t)] *)
Definition endswith (s t : string) : bool :=
  String.eqb (drop (len s - len t) s) t && (len t <=? len s)%nat.

(** [f"{n:02d}"] for a non-negative [n]: decimal, zero-padded to a
    minimum width of two. *)
Definition format_02d (n : N) : string :=
  if (n <? 10)%N then "0" +:+ pretty n else pretty n.

End Str.

(** ** [pathlib.Path] *)

(** A path is the list of its components ([PurePath.parts]).  Equality and
    hashing of paths are those of the components (POSIX flavour). *)
Definition Path : Type := list string.

(** [p.name]: the final component, [""] when there is none. *)
Definition name (p : Path) : string := List.last p "".

(** [p.parent] *)
Definition parent (p : Path) : Path := removelast p.

(** [p / s] for a string [s] that is a single component (no separator). *)
Definition joinpath (p : Path) (s : string) : Path := (p ++ [s])%list.

Infix "//" := joinpath (at level 40, left associativity).

(** [p.suffix]: from the last dot of the name on, when that dot is neither
    the first nor the last character. *)
Definition suffix (p : Path) : string :=
  let name := name p in
  match Str.rfind "." name with
  | Some i =>
      if (0 <? i)%nat && (i <? Str.len name - 1)%nat then Str.drop i name else ""
  | None => ""
  end.

(** [p.stem] *)
Definition stem (p : Path) : string :=
  let name := name p in
  match Str.rfind "." name with
  | Some i =>
      if (0 <? i)%nat && (i <? Str.len name - 1)%nat then Str.take i name else name
  | None => name
  end.

(** [str(p)] for a relative path *)
Definition path_str (p : Path) : string :=
  match p with
  | [] => "."
  | _ => Str.join "/" p
  end.

(** [p.relative_to(src)]: raises [ValueError] when [src] is not a prefix. *)
Fixpoint strip_prefix (src p : Path) : option Path :=
  match src, p with
  | [], _ => Some p
  | a :: src, b :: p => if String.eqb a b then strip_prefix src p else None
  | _ :: _, [] => None
  end.

(** The order of [PurePath.__lt__]: lexicographic on the components, each
    compared as a string. *)
Fixpoint path_compare (p q : Path) : comparison :=
  match p, q with
  | [], [] => Eq
  | [], _ :: _ => Lt
  | _ :: _, [] => Gt
  | a :: p, b :: q =>
      match String.compare a b with
      | Eq => path_compare p q
      | c => c
      end
  end.

Definition path_le (p q : Path) : Prop := path_compare p q ≠ Gt.

Global Instance path_le_dec : RelDecision path_le.
Proof. intros p q. unfold path_le. apply _. Defined.

(** [sorted(l)] on a list of paths. *)
Definition sorted (l : list Path) : list Path := merge_sort path_le l.

(** ** File kinds *)

Definition IMAGE_EXTS : list string :=
  [".jpg"; ".jpeg"; ".png"; ".tif"; ".tiff"; ".heic"; ".heif"; ".webp"].
Definition VIDEO_EXTS : list string := [".mov"; ".mp4"; ".avi"; ".mpeg"].
Definition IGNORE_EXTS : list string := [".aae"].

Definition is_media_file (path : Path) : bool :=
  let ext := Str.lower (suffix path) in
  bool_decide (ext ∈ IMAGE_EXTS) || bool_decide (ext ∈ VIDEO_EXTS).

Definition is_image_file (path : Path) : bool :=
  bool_decide (Str.lower (suffix path) ∈ IMAGE_EXTS).

Definition is_video_file (path : Path) : bool :=
  bool_decide (Str.lower (suffix path) ∈ VIDEO_EXTS).

(** ** The file system *)

(** The occupied paths; finitely many. *)
Abbreviation FS := (gset Path).

(** [p.exists()] *)
Definition exists_ (fs : FS) (p : Path) : bool := bool_decide (p ∈ fs).

(** ** [ensure_unique_path] *)

(** The [while True] loop, started at suffix [i], run for at most [fuel]
    iterations; [None] when the fuel is used up before the loop returns. *)
Fixpoint unique_loop (fs : FS) (parent : Path) (stem suffix : string)
    (fuel i : nat) : option Path :=
  match fuel with
  | 0 => None
  | S fuel =>
      let candidate := parent // (stem +:+ "_" +:+ pretty i +:+ suffix) in
      if negb (exists_ fs candidate) then Some candidate
      else unique_loop fs parent stem suffix fuel (i + 1)
  end.

Definition ensure_unique_path_fuel (fuel : nat) (fs : FS) (target : Path)
    : option Path :=
  if negb (exists_ fs target) then Some target
  else
    let stem := stem target in
    let suffix := suffix target in
    let parent := parent target in
    unique_loop fs parent stem suffix fuel 1.

(** The [i]-th name the loop tries for [target]. *)
Definition candidate (target : Path) (i : nat) : Path :=
  parent target // (stem target +:+ "_" +:+ pretty i +:+ suffix target).

(** One more iteration than there are occupied paths always suffices (see
    [ensure_unique_path_enough_fuel] below), so the result is taken at that
    fuel. *)
Definition ensure_unique_path (fs : FS) (target : Path) : Path :=
  default target (ensure_unique_path_fuel (S (size fs)) fs target).

(** The names [ensure_unique_path] can give [target]: [target] itself, or
    [target] with a numeric suffix before its extension. *)
Definition variant_of (target final : Path) : Prop :=
  final = target ∨ ∃ i, 1 ≤ i ∧ final = candidate target i.

(** ** Exceptions *)

(** The outcome of a Python call: a value, or a raised exception (kept as
    its [repr]). *)
Inductive result (A : Type) : Type :=
  | Return (a : A)
  | Raise (e : string).
Arguments Return {A} a.
Arguments Raise {A} e.

Global Instance result_ret : MRet result := λ A a, Return a.
Global Instance result_bind : MBind result := λ A B k m,
  match m with
  | Return a => k a
  | Raise e => Raise e
  end.

(** [try: m  except Exception as e: h e] *)
Definition try_except {A} (m : result A) (h : string → result A) : result A :=
  match m with
  | Return a => Return a
  | Raise e => h e
  end.

(** ** Dates *)

Record datetime : Type := mk_datetime {
  year : N; month : N; day : N;
  hour : N; minute : N; second : N
}.

(** The source of a date as the program names it: ["exif"], ["mtime"] or
    Python's [None]. *)
Definition Source : Type := option string.

Definition _EXIF_DATETIME_CANDIDATES : list string :=
  ["DateTimeOriginal"; "CreateDate"; "DateTimeDigitized"; "DateTime"].

Definition UNKNOWN_DIR_NAME : string := "unknown-date".

Definition fmts : list string :=
  ["%Y:%m:%d %H:%M:%S"; "%Y:%m:%d %H:%M";
   "%Y-%m-%d %H:%M:%S"; "%Y-%m-%d %H:%M";
   "%Y/%m/%d %H:%M:%S"; "%Y/%m/%d %H:%M"].

Definition build_target_dirname (dt : datetime) : string :=
  let mm := Str.format_02d (month dt) in
  let yyyy := Str.format_02d (year dt) in
  yyyy +:+ "-" +:+ mm.

(** ** Collaborators *)

(** What the program gets from outside: Pillow, [datetime.strptime], [stat]
    and the failures of the mutating file operations.  The metadata of a
    source file is a function of its path: a run reads a file before it
    relocates it and never overwrites an occupied path.  A mutating call
    that fails leaves the set of occupied paths as it was. *)
Record Collab : Type := {
  (** [datetime.strptime(value, fmt)]; [Raise] for its [ValueError] *)
  strptime : string → string → result datetime;
  (** [Image.open(path)] followed by [img.getexif().items()] *)
  open_getexif : Path → result (list (N * string));
  (** [ExifTags.TAGS] *)
  TAGS : gmap N string;
  (** [datetime.fromtimestamp(path.stat().st_mtime)] *)
  stat_mtime : Path → result datetime;
  (** the exception, if any, of [target_dir.mkdir(parents=True, exist_ok=True)] *)
  mkdir_error : FS → Path → option string;
  (** the exception, if any, of [shutil.copy2(path, final_target)] *)
  copy_error : FS → Path → Path → option string;
  (** the exception, if any, of [shutil.move(str(path), str(final_target))] *)
  move_error : FS → Path → Path → option string
}.

(** ** Date resolution *)

Section DateResolver.
Context (C : Collab).

(** [out] after the loop of [_exif_dict_from_image]: later items replace
    earlier ones under the same name; an id without a name in [TAGS] is
    keyed by its decimal form. *)
Definition _exif_dict_from_image (items : list (N * string)) : gmap string string :=
  foldl (λ out '(tag_id, value),
           let tag := default (pretty tag_id) (TAGS C !! tag_id) in
           <[tag := value]> out) ∅ items.

(** The [for fmt in fmts] loop. *)
Fixpoint parse_with (value : string) (fmts : list string) : option datetime :=
  match fmts with
  | [] => None
  | fmt :: fmts =>
      match strptime C value fmt with
      | Return dt => Some dt
      | Raise _ => parse_with value fmts
      end
  end.

Definition parse_exif_datetime (value : string) : option datetime :=
  if bool_decide (value = "") then None else parse_with value fmts.

(** The [for key in _EXIF_DATETIME_CANDIDATES] loop: the date it returns
    with, or [None] when it runs to its end. *)
Fixpoint scan_candidates (exif : gmap string string) (keys : list string)
    : option datetime :=
  match keys with
  | [] => None
  | key :: keys =>
      match exif !! key with
      | Some value =>
          match parse_exif_datetime value with
          | Some dt => Some dt
          | None => scan_candidates exif keys
          end
      | None => scan_candidates exif keys
      end
  end.

Definition get_image_datetime (path : Path) : result (option datetime * Source) :=
  (found ← try_except
             (items ← open_getexif C path ;
              let exif := _exif_dict_from_image items in
              Return (scan_candidates exif _EXIF_DATETIME_CANDIDATES))
             (λ _, Return None) ;
   match found with
   | Some dt => Return (Some dt, Some "exif")
   | None =>
       try_except
         (dt ← stat_mtime C path ; Return (Some dt, Some "mtime"))
         (λ _, Return (None, None))
   end).

(** The date of a single, as the second loop of [_worker] resolves it. *)
Definition resolve_single (path : Path) : result (option datetime * Source) :=
  if is_image_file path then get_image_datetime path
  else
    try_except
      (dt ← stat_mtime C path ; Return (Some dt, Some "mtime"))
      (λ _, Return (None, None)).

(** The date of a pair, as the first loop of [_worker] resolves it. *)
Definition resolve_master (master_img : Path) : result (option datetime * Source) :=
  if is_image_file master_img then get_image_datetime master_img
  else Return (None, None).

End DateResolver.

(** ** Grouping: [_pair_live_photos] *)

(** An insertion-ordered [dict] as an association list with unique keys, in
    insertion order.  [setdefault_with k dflt f d] is
    [d.setdefault(k, dflt)] followed by the in-place change [f] of the value
    it returns. *)
Fixpoint setdefault_with {K V : Type} `{EqDecision K}
    (k : K) (dflt : V) (f : V → V) (d : list (K * V)) : list (K * V) :=
  match d with
  | [] => [(k, f dflt)]
  | (k', v) :: d =>
      if decide (k' = k) then (k', f v) :: d
      else (k', v) :: setdefault_with k dflt f d
  end.

(** [list(dict.fromkeys(l))]: the first occurrence of every element, in
    order. *)
Fixpoint fromkeys (l : list Path) : list Path :=
  match l with
  | [] => []
  | x :: l => x :: filter (λ y, y ≠ x) (fromkeys l)
  end.

(** The first loop: [by_dir]. *)
Definition by_dir_of (files : list Path) : list (Path * list (string * list Path)) :=
  foldl (λ by_dir p,
           setdefault_with (parent p) []
             (setdefault_with (stem p) [] (λ items, items ++ [p])%list) by_dir)
        [] files.

(** The body of the loop over the buckets. *)
Definition pair_bucket (acc : list (Path * list Path) * list Path) (items : list Path)
    : list (Path * list Path) * list Path :=
  let '(pairs, singles) := acc in
  let images := filter (λ x, is_image_file x) items in
  let videos := filter (λ x, is_video_file x) items in
  match images, videos with
  | _ :: _, _ :: _ =>
      let master := hd [] (sorted images) in
      (setdefault_with master [] (λ vs, vs ++ sorted videos)%list pairs,
       (singles ++ tail images)%list)
  | _, _ => (pairs, (singles ++ items)%list)
  end.

Definition in_pairs_of (pairs : list (Path * list Path)) : gset Path :=
  foldl (λ in_pairs '(master, vids), in_pairs ∪ {[master]} ∪ list_to_set vids)
        ∅ pairs.

Definition _pair_live_photos (files : list Path)
    : list (Path * list Path) * list Path :=
  let by_dir := by_dir_of files in
  let '(pairs, singles) :=
    foldl (λ acc '(_, stems),
             foldl (λ acc '(_, items), pair_bucket acc items) acc stems)
          ([], []) by_dir in
  let singles := fromkeys singles in
  let in_pairs := in_pairs_of pairs in
  let singles := filter (λ p, p ∉ in_pairs) singles in
  (pairs, singles).

(** [_collect_files], on the files the directory walk yields. *)
Definition _collect_files (walk : list Path) : list Path :=
  filter (λ p, is_media_file p ∧ Str.lower (suffix p) ∉ IGNORE_EXTS) walk.

(** ** The worker *)

Record Options : Type := {
  dry_run : bool;
  copy_mode : bool;
  include_unknown : bool
}.

(** The state a run changes: the occupied paths and the log queue. *)
Record St : Type := mk_St { st_fs : FS; st_log : list string }.

(** A computation of the worker: it ends with a value or a raised
    exception, and in both cases leaves a state. *)
Definition M (A : Type) : Type := St → result A * St.

Global Instance M_ret : MRet M := λ A a st, (Return a, st).
Global Instance M_bind : MBind M := λ A B k m st,
  match m st with
  | (Return a, st') => k a st'
  | (Raise e, st') => (Raise e, st')
  end.

Definition raise {A} (e : string) : M A := λ st, (Raise e, st).

Definition lift {A} (r : result A) : M A := λ st, (r, st).

(** [try: m  except Exception as e: h e] in the worker *)
Definition try_except_M {A} (m : M A) (h : string → M A) : M A := λ st,
  match m st with
  | (Return a, st') => (Return a, st')
  | (Raise e, st') => h e st'
  end.

(** [for x in l: body x] *)
Fixpoint for_each {A} (l : list A) (body : A → M unit) : M unit :=
  match l with
  | [] => mret tt
  | x :: l => body x ≫= λ _, for_each l body
  end.

(** [self._log(msg)] *)
Definition _log (msg : string) : M unit := λ st,
  (Return tt, mk_St (st_fs st) (st_log st ++ [msg])%list).

(** All the non-empty prefixes of a path: what [mkdir(parents=True)]
    makes sure exists. *)
Definition dir_chain (d : Path) : list Path :=
  (λ n, take n d) <$> seq 1 (length d).

Section Worker.
Context (C : Collab) (O : Options) (src : Path).

(** [p.relative_to(src)] *)
Definition relative_to (p : Path) : M Path :=
  match strip_prefix src p with
  | Some rel => mret rel
  | None => raise "ValueError"
  end.

Definition mkdir (target_dir : Path) : M unit := λ st,
  match mkdir_error C (st_fs st) target_dir with
  | Some e => (Raise e, st)
  | None => (Return tt, mk_St (st_fs st ∪ list_to_set (dir_chain target_dir)) (st_log st))
  end.

(** [shutil.copy2] and [shutil.move].  A call that fails is modelled as
    leaving the file system as it was; the library can also fail after it
    has written the destination, and that state is not modelled. *)
Definition copy2 (path final_target : Path) : M unit := λ st,
  match copy_error C (st_fs st) path final_target with
  | Some e => (Raise e, st)
  | None => (Return tt, mk_St (st_fs st ∪ {[final_target]}) (st_log st))
  end.

Definition move (path final_target : Path) : M unit := λ st,
  match move_error C (st_fs st) path final_target with
  | Some e => (Raise e, st)
  | None => (Return tt, mk_St (st_fs st ∖ {[path]} ∪ {[final_target]}) (st_log st))
  end.

(** [ensure_unique_path(target)], against the file system as it is at
    the call. *)
Definition unique_target (target : Path) : M Path := λ st,
  (Return (ensure_unique_path (st_fs st) target), st).

Definition move_or_copy (path target_dir : Path) : M Path :=
  (if negb (dry_run O) then mkdir target_dir else mret tt) ≫= λ _,
  let target := target_dir // name path in
  final_target ← unique_target target;
  if dry_run O then mret final_target
  else
    (if copy_mode O then copy2 path final_target else move path final_target) ≫= λ _,
    mret final_target.

Definition action : string :=
  if dry_run O then "Would " +:+ (if copy_mode O then "copy" else "move")
  else (if copy_mode O then "Copied" else "Moved").

Definition src_label (source : Source) : string :=
  match source with
  | Some source => " (" +:+ source +:+ ")"
  | None => ""
  end.

(** The body of [for master_img, videos in pairs.items()]. *)
Definition process_pair (item : Path * list Path) : M unit :=
  let '(master_img, videos) := item in
  lift (resolve_master C master_img) ≫= λ '(dt, source),
  if bool_decide (dt = None) && negb (include_unknown O) then
    rel ← relative_to master_img;
    _log ("Skipping (no date found): " +:+ path_str rel +:+ " (+ "
          +:+ pretty (length videos) +:+ " video)")
  else
    let dirname :=
      match dt with
      | Some dt => build_target_dirname dt
      | None => UNKNOWN_DIR_NAME
      end in
    let target_dir := src // dirname in
    final_master ← move_or_copy master_img target_dir;
    rel ← relative_to master_img;
    _log (action +:+ ": " +:+ path_str rel +:+ "  ->  " +:+ dirname +:+ "/"
          +:+ name final_master +:+ src_label source) ≫= λ _,
    for_each videos (λ v,
      final_v ← move_or_copy v target_dir;
      rel ← relative_to v;
      _log (action +:+ ": " +:+ path_str rel +:+ "  ->  " +:+ dirname +:+ "/"
            +:+ name final_v +:+ " (paired with photo)")).

(** The body of [for path in singles]. *)
Definition process_single (path : Path) : M unit :=
  rel ← relative_to path;
  try_except_M
    (lift (resolve_single C path) ≫= λ '(dt, source),
     let relocate (dirname : string) : M unit :=
       let target_dir := src // dirname in
       final_target ← move_or_copy path target_dir;
       _log (action +:+ ": " +:+ path_str rel +:+ "  ->  " +:+ dirname +:+ "/"
             +:+ name final_target +:+ src_label source) in
     match dt with
     | Some dt => relocate (build_target_dirname dt)
     | None =>
         if negb (include_unknown O) then
           _log ("Skipping (no date found): " +:+ path_str rel)
         else relocate UNKNOWN_DIR_NAME
     end)
    (λ e, _log ("Error with " +:+ path_str rel +:+ ": " +:+ e)).

(** [_worker], from the files the directory walk yields.  The [finally]
    clause only resets the widgets; an exception that reaches it leaves
    the worker. *)
Definition _worker (walk : list Path) : M unit :=
  let files := _collect_files walk in
  if (length files =? 0)%nat then _log "Found no media."
  else
    let '(pairs, singles) := _pair_live_photos files in
    for_each pairs process_pair ≫= λ _,
    for_each singles process_single ≫= λ _,
    _log "Done!".
End Worker.

(** A run from a file system with an empty log. *)
Definition run (C : Collab) (O : Options) (src : Path) (walk : list Path) (fs : FS)
    : result unit * St :=
  _worker C O src walk (mk_St fs []).

(** ** Vocabulary of the statements about date resolution *)

Section DateResolverSpec.
Context (C : Collab).

(** [value] parses: it is not empty and [strptime] accepts it under one
    of the formats. *)
Definition parses (value : string) : Prop :=
  value ≠ "" ∧ ∃ fmt dt, fmt ∈ fmts ∧ strptime C value fmt = Return dt.

(** [dt] is what the first format that accepts [value] yields. *)
Definition parsed_as (value : string) (dt : datetime) : Prop :=
  value ≠ "" ∧
  ∃ pre fmt post, fmts = pre ++ fmt :: post ∧ strptime C value fmt = Return dt ∧
                  ∀ f, f ∈ pre → ∃ e, strptime C value f = Raise e.

(** [key] is the first candidate tag, in the order of the scan, that the
    mapping has with a value that parses. *)
Definition first_parsing_tag (exif : gmap string string) (key value : string) : Prop :=
  ∃ pre post, _EXIF_DATETIME_CANDIDATES = pre ++ key :: post ∧
              exif !! key = Some value ∧ parses value ∧
              ∀ k v, k ∈ pre → exif !! k = Some v → ¬ parses v.

(** The metadata of [path] gives no date: the file cannot be read, or no
    candidate tag of its mapping has a value that parses. *)
Definition no_metadata_date (path : Path) : Prop :=
  match open_getexif C path with
  | Raise _ => True
  | Return items =>
      ∀ key value, key ∈ _EXIF_DATETIME_CANDIDATES →
                   _exif_dict_from_image C items !! key = Some value → ¬ parses value
  end.

(** The second [try] of [get_image_datetime]. *)
Definition mtime_fallback (path : Path) : option datetime * Source :=
  match stat_mtime C path with
  | Return dt => (Some dt, Some "mtime")
  | Raise _ => (None, None)
  end.

End DateResolverSpec.

(** ** A reference environment

    Concrete collaborators on which the definitions above can be run: a
    [strptime] for the zero-padded form of the six formats, and metadata,
    modification times and failing sources given by tables. *)

Module Ref.

(** Exactly [n] decimal digits at the head of [s]. *)
Fixpoint read_digits (n : nat) (acc : N) (s : string) : option (N * string) :=
  match n with
  | 0 => Some (acc, s)
  | S n =>
      match s with
      | String a s =>
          match Ascii.is_nat a with
          | Some d => read_digits n (10 * acc + N.of_nat d)%N s
          | None => None
          end
      | "" => None
      end
  end.

Definition set_field (c : ascii) (n : N) (dt : datetime) : datetime :=
  if Ascii.eqb c "Y" then mk_datetime n (month dt) (day dt) (hour dt) (minute dt) (second dt)
  else if Ascii.eqb c "m" then mk_datetime (year dt) n (day dt) (hour dt) (minute dt) (second dt)
  else if Ascii.eqb c "d" then mk_datetime (year dt) (month dt) n (hour dt) (minute dt) (second dt)
  else if Ascii.eqb c "H" then mk_datetime (year dt) (month dt) (day dt) n (minute dt) (second dt)
  else if Ascii.eqb c "M" then mk_datetime (year dt) (month dt) (day dt) (hour dt) n (second dt)
  else mk_datetime (year dt) (month dt) (day dt) (hour dt) (minute dt) n.

Fixpoint scan (fmt value : string) (dt : datetime) : option datetime :=
  match fmt with
  | "" => if bool_decide (value = "") then Some dt else None
  | String "%" (String c fmt) =>
      match read_digits (if Ascii.eqb c "Y" then 4 else 2) 0 value with
      | Some (n, rest) => scan fmt rest (set_field c n dt)
      | None => None
      end
  | String a fmt =>
      match value with
      | String b value => if Ascii.eqb a b then scan fmt value dt else None
      | "" => None
      end
  end.

Definition leap (y : N) : bool :=
  ((y mod 4 =? 0)%N && negb (y mod 100 =? 0)%N) || (y mod 400 =? 0)%N.

Definition days_in_month (y m : N) : N :=
  (if m =? 2 then (if leap y then 29 else 28)
   else if bool_decide (m ∈ [4; 6; 9; 11]) then 30 else 31)%N.

(** The range checks of the [datetime] constructor. *)
Definition valid (dt : datetime) : bool :=
  ((1 <=? year dt) && (year dt <=? 9999) && (1 <=? month dt) && (month dt <=? 12)
   && (1 <=? day dt) && (day dt <=? days_in_month (year dt) (month dt))
   && (hour dt <=? 23) && (minute dt <=? 59) && (second dt <=? 59))%N.

Definition strptime_padded (value fmt : string) : result datetime :=
  match scan fmt value (mk_datetime 1900 1 1 0 0 0) with
  | Some dt => if valid dt then Return dt else Raise "ValueError"
  | None => Raise "ValueError"
  end.

(** The names Pillow gives the date tags of the base IFD and of the Exif
    IFD. *)
Definition date_tags : gmap N string :=
  list_to_map [(306, "DateTime"); (36867, "DateTimeOriginal");
               (36868, "DateTimeDigitized")]%N.

Definition lookup_or {V} (e : string) (tbl : list (Path * V)) (p : Path) : result V :=
  match list_find (λ kv, kv.1 = p) tbl with
  | Some (_, (_, v)) => Return v
  | None => Raise e
  end.

Definition fail_on (broken : list Path) (path : Path) : option string :=
  if bool_decide (path ∈ broken) then Some "PermissionError(13, 'Permission denied')"
  else None.

(** Collaborators from tables: the Exif items of the files Pillow can
    open, the modification times of the files [stat] can read, and the
    sources whose copy or move fails. *)
Definition collab (exifs : list (Path * list (N * string)))
    (mtimes : list (Path * datetime)) (broken : list Path) : Collab :=
  {| strptime := strptime_padded;
     open_getexif := lookup_or "UnidentifiedImageError" exifs;
     TAGS := date_tags;
     stat_mtime := lookup_or "FileNotFoundError" mtimes;
     mkdir_error := λ _ _, None;
     copy_error := λ _ path _, fail_on broken path;
     move_error := λ _ path _, fail_on broken path |}.

End Ref.

(** ** Vocabulary of the statements about the worker *)

(** However [m] ends, [R] relates the state it starts in to the state it
    leaves; a value it returns satisfies [V]. *)
Definition returns {A} (R : relation St) (V : A → Prop) (m : M A) : Prop :=
  ∀ st r st', m st = (r, st') →
              R st st' ∧ match r with Return a => V a | Raise _ => True end.

(** [move_or_copy] into the folder [dirname] of the root respects [R] and
    returns the destination of the file in that folder, under its own name
    or with a numeric suffix. *)
Definition relocates_in (C : Collab) (O : Options) (src : Path) (R : relation St)
    (dirname : string) : Prop :=
  ∀ path, returns R (variant_of (src // dirname // name path))
            (move_or_copy C O path (src // dirname)).

(** The log grows by lines that satisfy [P], and every new occupied path
    satisfies [Q]. *)
Definition grows (P : string → Prop) (Q : Path → Prop) (st st' : St) : Prop :=
  (∃ new, st_log st' = st_log st ++ new ∧ Forall P new) ∧
  (∀ p, p ∈ st_fs st' → p ∈ st_fs st ∨ Q p).

(** [s] without its prefix [prefix], when it has it. *)
Fixpoint strip_str (prefix s : string) : option string :=
  match prefix, s with
  | "", _ => Some s
  | String a prefix, String b s => if Ascii.eqb a b then strip_str prefix s else None
  | String _ _, "" => None
  end.

(** An outcome line with the verb of an executed relocation replaced by
    the verb of a simulated one. *)
Definition would (line : string) : string :=
  match strip_str "Moved: " line, strip_str "Copied: " line with
  | Some rest, _ => "Would move: " +:+ rest
  | None, Some rest => "Would copy: " +:+ rest
  | None, None => line
  end.

(** The two runs that differ in the simulate-only flag alone. *)
Definition simulate (O : Options) : Options :=
  {| dry_run := true; copy_mode := copy_mode O; include_unknown := include_unknown O |}.
Definition execute (O : Options) : Options :=
  {| dry_run := false; copy_mode := copy_mode O; include_unknown := include_unknown O |}.

(** The folder of a resolved date. *)
Definition dirname_of (dt : option datetime) : string :=
  match dt with
  | Some dt => build_target_dirname dt
  | None => UNKNOWN_DIR_NAME
  end.

(** The shape the specification gives every line of a relocated file: verb,
    relative source, folder, name, and a provenance tag in parentheses.  Both
    the specification's names of the tags and the program's are accepted. *)
Definition provenance_tags : list string :=
  ["metadata"; "filesystem"; "none"; "exif"; "mtime"; "None"].

Definition provenance_line (line : string) : Prop :=
  ∃ verb rel folder fname tag,
    verb ∈ ["Moved"; "Copied"; "Would move"; "Would copy"] ∧ tag ∈ provenance_tags ∧
    line = verb +:+ ": " +:+ rel +:+ "  ->  " +:+ folder +:+ "/" +:+ fname
           +:+ " (" +:+ tag +:+ ")".

(** ** Example data *)

Module Ex.
Definition src : Path := ["photos"].

(** Two images and a video with the same stem in one folder. *)
Definition png : Path := ["photos"; "d"; "IMG.png"].
Definition jpg : Path := ["photos"; "d"; "IMG.jpg"].
Definition mov : Path := ["photos"; "d"; "IMG.mov"].

(** Two files of the same name in two folders, and their common date. *)
Definition a : Path := ["photos"; "a"; "x.jpg"].
Definition b : Path := ["photos"; "b"; "x.jpg"].
Definition jan5 : datetime := mk_datetime 2020 1 5 10 0 0.

Definition fs0 : FS :=
  {[ src; ["photos"; "a"]; ["photos"; "b"]; ["photos"; "d"]; a; b; jpg; mov ]}.

(** [jpg] carries a capture date; [a] and [b] have no metadata that Pillow
    reads, only modification times; [mov] has nothing that can be read. *)
Definition exifs : list (Path * list (N * string)) :=
  [(jpg, [(36867%N, "2020:01:05 10:00:00")])].
Definition mtimes : list (Path * datetime) := [(a, jan5); (b, jan5)].

Definition move_all : Options :=
  {| dry_run := false; copy_mode := false; include_unknown := true |}.
End Ex.

(** The lines of a run, by the file they report.  [pairs] and [singles]
    are the groups of the run. *)
Section OutcomeLines.
Context (C : Collab) (O : Options) (src : Path).
Context (pairs : list (Path * list Path)) (singles : list Path).

(** The line of the file [f], relocated or to be relocated to [final] in
    [folder]: verb, source relative to the root, folder, the name of
    [final], label.  [final] is in [folder] under the name of [f], or under
    that name with a numeric suffix. *)
Definition relocated (f : Path) (folder label : string) (final : Path) (line : string)
    : Prop :=
  ∃ rel,
    strip_prefix src f = Some rel ∧
    variant_of (src // folder // name f) final ∧
    line = action O +:+ ": " +:+ path_str rel +:+ "  ->  " +:+ folder +:+ "/"
           +:+ name final +:+ label.

Definition relocation_line (f : Path) (folder label line : string) : Prop :=
  ∃ final, relocated f folder label final line.

Definition single_line (line : string) : Prop :=
  ∃ f dt source,
    f ∈ singles ∧ resolve_single C f = Return (dt, source) ∧
    relocation_line f (dirname_of dt) (src_label source) line.

Definition master_line (line : string) : Prop :=
  ∃ master videos dt source,
    (master, videos) ∈ pairs ∧ resolve_master C master = Return (dt, source) ∧
    relocation_line master (dirname_of dt) (src_label source) line.

Definition companion_line (line : string) : Prop :=
  ∃ master videos v dt source,
    (master, videos) ∈ pairs ∧ v ∈ videos ∧
    resolve_master C master = Return (dt, source) ∧
    relocation_line v (dirname_of dt) " (paired with photo)" line.

Definition outcome_line (line : string) : Prop :=
  line = "Found no media." ∨ line = "Done!" ∨
  (∃ rest, line = "Skipping (no date found): " +:+ rest) ∨
  (∃ rest, line = "Error with " +:+ rest) ∨
  single_line line ∨ master_line line ∨ companion_line line.
End OutcomeLines.

(** One relocation with its line, as both loops of the worker perform it:
    the file [item.1] goes into the folder [dirname] of the root, and its
    line ends with the label [item.2]. *)
Definition relocate_item (C : Collab) (O : Options) (src : Path) (dirname : string)
    (item : Path * string) : M unit :=
  final ← move_or_copy C O item.1 (src // dirname);
  rel ← relative_to src item.1;
  _log (action O +:+ ": " +:+ path_str rel +:+ "  ->  " +:+ dirname +:+ "/"
        +:+ name final +:+ item.2).

(** The files of a pair in the order in which they are relocated, each
    with the label of its line. *)
Definition pair_items (master : Path) (videos : list Path) (source : Source)
    : list (Path * string) :=
  (master, src_label source) :: ((λ v, (v, " (paired with photo)")) <$> videos).

(** [C] and [C'] differ at most in the metadata and the modification times
    of files other than [master]. *)
Definition agree_but_metadata (master : Path) (C C' : Collab) : Prop :=
  (∀ value fmt, strptime C value fmt = strptime C' value fmt) ∧
  TAGS C = TAGS C' ∧
  open_getexif C master = open_getexif C' master ∧
  stat_mtime C master = stat_mtime C' master ∧
  (∀ fs d, mkdir_error C fs d = mkdir_error C' fs d) ∧
  (∀ fs p q, copy_error C fs p q = copy_error C' fs p q) ∧
  (∀ fs p q, move_error C fs p q = move_error C' fs p q).

(** A path in the folder [dirname] of the root, or the folder itself or one
    of the directories above it. *)
Definition in_folder (src : Path) (dirname : string) (p : Path) : Prop :=
  p ∈ dir_chain (src // dirname) ∨ ∃ fname, p = src // dirname // fname.

(** The set of occupied paths is the same. *)
Definition same_fs : relation St := λ st st', st_fs st' = st_fs st.

(** The relocations a run plans, in the order in which it performs them:
    every file it relocates, with the destination before the name is made
    unique (the folder of its date and its own name). *)
Section Plan.
Context (C : Collab) (O : Options) (src : Path).

Definition pair_moves (item : Path * list Path) : list (Path * Path) :=
  let '(master, videos) := item in
  match resolve_master C master with
  | Return (dt, _) =>
      if bool_decide (dt = None) && negb (include_unknown O) then []
      else (λ f, (f, src // dirname_of dt // name f)) <$> master :: videos
  | Raise _ => []
  end.

Definition single_moves (path : Path) : list (Path * Path) :=
  match resolve_single C path with
  | Return (dt, _) =>
      if bool_decide (dt = None) && negb (include_unknown O) then []
      else [(path, src // dirname_of dt // name path)]
  | Raise _ => []
  end.

Definition planned_moves (walk : list Path) : list (Path * Path) :=
  let groups := _pair_live_photos (_collect_files walk) in
  (groups.1 ≫= pair_moves) ++ (groups.2 ≫= single_moves).

(** The destinations the simulated run names: every planned destination,
    made unique against the file system [fs] of the start. *)
Definition simulated_destinations (walk : list Path) (fs : FS) : list Path :=
  (λ m, ensure_unique_path fs m.2) <$> planned_moves walk.
End Plan.

(** No file frees a name that counts for a file after it: the path of a
    file is neither the planned destination of a later file nor that
    destination with a numeric suffix. *)
Fixpoint frees_no_name (moves : list (Path * Path)) : Prop :=
  match moves with
  | [] => True
  | (f, _) :: moves => Forall (λ m, ¬ variant_of m.2 f) moves ∧ frees_no_name moves
  end.

(** No directory creation, copy or move fails. *)
Definition no_faults (C : Collab) : Prop :=
  (∀ fs d, mkdir_error C fs d = None) ∧
  (∀ fs p q, copy_error C fs p q = None) ∧
  (∀ fs p q, move_error C fs p q = None).

(** The simulated run [md] and the executed run [me] in step.  They start
    from states whose logs agree up to the verbs and in which every
    relocation of [ms] that is still to come gets the same destination, a
    destination no other of them gets; they end alike, with logs that agree
    up to the verbs; when they return, the value satisfies [V] and the same
    holds of the relocations [ms'] that remain; when they raise, [E]
    holds. *)
Section InStep.
Context (O : Options) (src : Path).

Definition in_step_states (ms : list (Path * Path)) (sd se : St) : Prop :=
  st_log sd = would <$> st_log se ∧
  Forall (λ m, length m.2 = length src + 2) ms ∧
  NoDup ((λ m, ensure_unique_path (st_fs sd) m.2) <$> ms) ∧
  (copy_mode O = false → frees_no_name ms) ∧
  Forall (λ m, ensure_unique_path (st_fs se) m.2 = ensure_unique_path (st_fs sd) m.2) ms.

Definition in_step {A} (ms ms' : list (Path * Path)) (E : Prop) (V : A → Prop)
    (md me : M A) : Prop :=
  ∀ sd se, in_step_states ms sd se →
    ∃ r sd' se', md sd = (r, sd') ∧ me se = (r, se') ∧
      match r with
      | Return a => V a ∧ in_step_states ms' sd' se'
      | Raise _ => E ∧ st_log sd' = would <$> st_log se'
      end.
End InStep.

(** The groups of [_pair_live_photos] over the list [files]. *)
Section GroupsVocabulary.
Context (files : list Path).

(** A well-formed entry of [pairs]: an image of the input, with videos of
    the input. *)
Definition pair_ok (master : Path) (videos : list Path) : Prop :=
  master ∈ files ∧ is_image_file master = true ∧
  ∀ v, v ∈ videos → v ∈ files ∧ is_video_file v = true.

Definition groups_ok (acc : list (Path * list Path) * list Path) : Prop :=
  (∀ master videos, (master, videos) ∈ acc.1 → pair_ok master videos ∧ videos ≠ []) ∧
  (∀ s, s ∈ acc.2 → s ∈ files).
End GroupsVocabulary.

(** [P] holds of every number below [n]. *)
Definition all_below (P : N → bool) (n : N) : bool :=
  N.peano_rect (λ _, bool) true (λ k acc, P k && acc) n.

(** ** Vocabulary of the further properties *)

(** The key [_exif_dict_from_image] files the item of [tag_id] under. *)
Definition tag_name (C : Collab) (tag_id : N) : string :=
  default (pretty tag_id) (TAGS C !! tag_id).

(** [C] and [C'] differ at most in whether a copy or a move onto an occupied
    destination fails. *)
Definition agree_on_free_destinations (C C' : Collab) : Prop :=
  (∀ value fmt, strptime C value fmt = strptime C' value fmt) ∧
  TAGS C = TAGS C' ∧
  (∀ p, open_getexif C p = open_getexif C' p) ∧
  (∀ p, stat_mtime C p = stat_mtime C' p) ∧
  (∀ fs d, mkdir_error C fs d = mkdir_error C' fs d) ∧
  (∀ fs p q, q ∉ fs → copy_error C fs p q = copy_error C' fs p q) ∧
  (∀ fs p q, q ∉ fs → move_error C fs p q = move_error C' fs p q).

(** The number of lines a pair logs when its processing returns: one when
    it is skipped, and otherwise one for the master and one for each
    video. *)
Definition pair_line_count (C : Collab) (O : Options) (item : Path * list Path) : nat :=
  match resolve_master C item.1 with
  | Return (None, _) => if include_unknown O then S (length item.2) else 1
  | _ => S (length item.2)
  end.

(** The paths of [st] are still there in [st'], but for the files of
    [files], which may be gone when [movable] holds. *)
Definition keeps_but (movable : Prop) (files : list Path) : relation St := λ st st',
  ∀ p, p ∈ st_fs st → p ∈ st_fs st' ∨ (movable ∧ p ∈ files).

(** The log is the same. *)
Definition same_log : relation St := λ st st', st_log st' = st_log st.

(** When [m] returns, it has added exactly [n] lines to the log. *)
Definition counts {A} (n : nat) (m : M A) : Prop :=
  ∀ st st' a, m st = (Return a, st') →
              ∃ new, st_log st' = st_log st ++ new ∧ length new = n.

(** A string of decimal digits. *)
Fixpoint all_digits (s : string) : bool :=
  match s with
  | "" => true
  | String a s => bool_decide (is_Some (Ascii.is_nat a)) && all_digits s
  end.


(** ** Vocabulary of the buckets *)

(** [q] is in the directory [dir] and has the stem [key]: the two keys of
    [by_dir]. *)
Definition in_bucket (dir : Path) (key : string) (q : Path) : Prop :=
  parent q = dir ∧ stem q = key.

Global Instance in_bucket_dec (dir : Path) (key : string) (q : Path) :
  Decision (in_bucket dir key q).
Proof. unfold in_bucket. apply _. Defined.

(** The bucket of [p]: the files of the input in the directory of [p]
    with the stem of [p], in the order of the input. *)
Definition bucket_of (files : list Path) (p : Path) : list Path :=
  filter (in_bucket (parent p) (stem p)) files.

(** [p] is in one of the groups: it is the master or a video of a pair, or
    a single. *)
Definition grouped (groups : list (Path * list Path) * list Path) (p : Path) : Prop :=
  (∃ master videos, (master, videos) ∈ groups.1 ∧ (p = master ∨ p ∈ videos)) ∨
  p ∈ groups.2.

(** [p] is the image [images[0]] of a bucket with an image and a video,
    and it is not the master [sorted(images)[0]]. *)
Definition dropped_from (items : list Path) (p : Path) : Prop :=
  filter (λ x, is_video_file x) items ≠ [] ∧
  head (filter (λ x, is_image_file x) items) = Some p ∧
  hd [] (sorted (filter (λ x, is_image_file x) items)) ≠ p.

(** [by_dir] after the first loop has run over the files [l]: no directory
    and, in a directory, no stem is filed twice; every list is a bucket;
    every file is filed. *)
Definition buckets_of_prefix (l : list Path)
    (by_dir : list (Path * list (string * list Path))) : Prop :=
  NoDup by_dir.*1 ∧
  (∀ dir stems, (dir, stems) ∈ by_dir →
     NoDup stems.*1 ∧
     ∀ key items, (key, items) ∈ stems → items = filter (in_bucket dir key) l) ∧
  (∀ q, q ∈ l → ∃ stems items, (parent q, stems) ∈ by_dir ∧ (stem q, items) ∈ stems).

(** Where the members of the groups come from: a master is the smallest
    image of its bucket and its videos are videos; a file added to
    [singles] is an image of its bucket after the first, or its bucket has
    no image or no video. *)
Definition from_buckets (files : list Path)
    (acc : list (Path * list Path) * list Path) : Prop :=
  (∀ master videos, (master, videos) ∈ acc.1 →
     master = hd [] (sorted (filter (λ x, is_image_file x) (bucket_of files master))) ∧
     ∀ v, v ∈ videos → is_video_file v = true) ∧
  (∀ s, s ∈ acc.2 →
     s ∈ tail (filter (λ x, is_image_file x) (bucket_of files s)) ∨
     filter (λ x, is_image_file x) (bucket_of files s) = [] ∨
     filter (λ x, is_video_file x) (bucket_of files s) = []).

(** The pair the second loop makes of a bucket with an image and a
    video. *)
Definition bucket_pair (items : list Path) : Path * list Path :=
  (hd [] (sorted (filter (λ x, is_image_file x) items)),
   sorted (filter (λ x, is_video_file x) items)).

(** Every pair is the pair of the bucket of its master. *)
Definition pairs_of_buckets (files : list Path) (pairs : list (Path * list Path)) : Prop :=
  ∀ master videos, (master, videos) ∈ pairs →
    (master, videos) = bucket_pair (bucket_of files master).

(** * Properties *)

Example ex_suffix : suffix ["d"; "IMG_01.JPG"] = ".JPG" /\ stem ["d"; "a.tar.gz"] = "a.tar"
  /\ suffix ["d"; ".bashrc"] = "" /\ suffix ["x."] = "" /\ stem ["x."] = "x.".
Proof. repeat split. Qed.

Example ex_strptime :
  Ref.strptime_padded "2021:03:04 05:06:07" "%Y:%m:%d %H:%M:%S" = Return (mk_datetime 2021 3 4 5 6 7)
  /\ Ref.strptime_padded "2021:02:30 05:06:07" "%Y:%m:%d %H:%M:%S" = Raise "ValueError"
  /\ Ref.strptime_padded "2021-03-04 05:06" "%Y-%m-%d %H:%M" = Return (mk_datetime 2021 3 4 5 6 0).
Proof. repeat split. Qed.

(** ** Strings and paths *)

Lemma str_app_length (s t : string) :
  String.length (s +:+ t) = String.length s + String.length t.
Proof. induction s as [|a s IH]; simpl; [done | by rewrite IH]. Qed.

Lemma str_app_inj_r (s1 s2 t : string) : s1 +:+ t = s2 +:+ t → s1 = s2.
Proof.
  revert s2. induction s1 as [|a s1 IH]; intros [|b s2] Heq; simpl in *.
  - done.
  - apply (f_equal String.length) in Heq.
    rewrite !str_app_length in Heq. simpl in Heq. lia.
  - apply (f_equal String.length) in Heq.
    rewrite !str_app_length in Heq. simpl in Heq. lia.
  - cbn in Heq. injection Heq as -> Heq. f_equal. by apply IH.
Qed.

Lemma str_app_assoc (s t u : string) : (s +:+ t) +:+ u = s +:+ (t +:+ u).
Proof.
  induction s as [|a s IH]; [done|].
  change (String a ((s +:+ t) +:+ u) = String a (s +:+ (t +:+ u))). by rewrite IH.
Qed.

Lemma str_drop_app (s t : string) : Str.drop (Str.len s) (s +:+ t) = t.
Proof.
  induction s as [|a s IH]; [by destruct t|].
  change (Str.drop (Str.len s) (s +:+ t) = t). done.
Qed.

Lemma str_endswith_app (s t : string) : Str.endswith (s +:+ t) t = true.
Proof.
  unfold Str.endswith, Str.len. rewrite str_app_length.
  replace (String.length s + String.length t - String.length t) with (Str.len s)
    by (unfold Str.len; lia).
  rewrite str_drop_app, String.eqb_refl. simpl. apply Nat.leb_le. lia.
Qed.

Lemma joinpath_inj (p q : Path) (s t : string) : p // s = q // t → p = q ∧ s = t.
Proof. apply app_inj_tail. Qed.

Lemma name_joinpath (p : Path) (s : string) : name (p // s) = s.
Proof. unfold name, joinpath. apply last_last. Qed.

Lemma parent_joinpath (p : Path) (s : string) : parent (p // s) = p.
Proof. unfold parent, joinpath. apply removelast_last. Qed.

(** ** [ensure_unique_path] *)

Section EnsureUniquePath.
Context (fs : FS) (target : Path).

Lemma candidate_inj (i j : nat) : candidate target i = candidate target j → i = j.
Proof.
  unfold candidate. intros [_ Heq]%joinpath_inj.
  apply String.app_inj in Heq. apply (String.app_inj "_") in Heq.
  apply str_app_inj_r in Heq. by apply (inj pretty).
Qed.

Lemma unique_loop_unfold (fuel i : nat) :
  unique_loop fs (parent target) (stem target) (suffix target) (S fuel) i =
  if negb (exists_ fs (candidate target i)) then Some (candidate target i)
  else unique_loop fs (parent target) (stem target) (suffix target) fuel (i + 1).
Proof. reflexivity. Qed.

(** A result of the loop is the first unoccupied candidate from [i] on. *)
Lemma unique_loop_Some (fuel i : nat) (p : Path) :
  unique_loop fs (parent target) (stem target) (suffix target) fuel i = Some p →
  ∃ k, (i ≤ k < i + fuel) ∧ p = candidate target k ∧ (candidate target k ∉ fs) ∧
       ∀ j, i ≤ j < k → candidate target j ∈ fs.
Proof.
  revert i. induction fuel as [|fuel IH]; intros i; [done|].
  rewrite unique_loop_unfold. unfold exists_. case_bool_decide as Hin; simpl.
  - intros (k & Hk & -> & Hfree & Hocc)%IH. exists k.
    split; [lia|]. split; [done|]. split; [done|].
    intros j Hj. destruct (decide (j = i)) as [->|]; [done|]. apply Hocc. lia.
  - intros [= <-]. exists i.
    split; [lia|]. split; [done|]. split; [done|]. intros j Hj. lia.
Qed.

(** The loop runs out of fuel only over occupied candidates. *)
Lemma unique_loop_None (fuel i : nat) :
  unique_loop fs (parent target) (stem target) (suffix target) fuel i = None →
  ∀ j, i ≤ j < i + fuel → candidate target j ∈ fs.
Proof.
  revert i. induction fuel as [|fuel IH]; intros i; [intros _ j Hj; lia|].
  rewrite unique_loop_unfold. unfold exists_. case_bool_decide as Hin; simpl; [|done].
  intros Hloop j Hj. destruct (decide (j = i)) as [->|]; [done|].
  apply (IH _ Hloop). lia.
Qed.

(** More fuel does not change a result. *)
Lemma unique_loop_mono (fuel fuel' i : nat) (p : Path) :
  fuel ≤ fuel' →
  unique_loop fs (parent target) (stem target) (suffix target) fuel i = Some p →
  unique_loop fs (parent target) (stem target) (suffix target) fuel' i = Some p.
Proof.
  revert fuel' i. induction fuel as [|fuel IH]; intros fuel' i Hle; [done|].
  destruct fuel' as [|fuel']; [lia|]. rewrite !unique_loop_unfold.
  destruct (negb _); [done|]. apply IH. lia.
Qed.

(** Pigeonhole: the candidates are pairwise distinct, so a run of occupied
    ones is no longer than the file system is large. *)
Lemma occupied_run_bound (i n : nat) :
  (∀ j, i ≤ j < i + n → candidate target j ∈ fs) → n ≤ size fs.
Proof.
  intros Hocc.
  set (l := candidate target <$> seq i n).
  assert (NoDup l) as Hnd.
  { apply NoDup_fmap_2_strong; [|apply NoDup_seq].
    intros ?? _ _. apply candidate_inj. }
  assert (list_to_set l ⊆ fs) as Hsub.
  { intros p [j [-> Hj%elem_of_seq]]%elem_of_list_to_set%list_elem_of_fmap.
    apply Hocc. lia. }
  apply subseteq_size in Hsub. rewrite size_list_to_set in Hsub by done.
  unfold l in Hsub. by rewrite length_fmap, length_seq in Hsub.
Qed.

Lemma unique_loop_total (fuel : nat) :
  size fs < fuel →
  is_Some (unique_loop fs (parent target) (stem target) (suffix target) fuel 1).
Proof.
  intros Hfuel.
  destruct (unique_loop _ _ _ _ fuel 1) as [p|] eqn:Hloop; [by eexists|].
  pose proof (occupied_run_bound 1 fuel (unique_loop_None _ _ Hloop)). lia.
Qed.

Lemma ensure_unique_path_enough_fuel (fuel : nat) :
  size fs < fuel →
  ensure_unique_path_fuel fuel fs target = Some (ensure_unique_path fs target).
Proof.
  intros Hfuel. unfold ensure_unique_path, ensure_unique_path_fuel.
  destruct (negb (exists_ fs target)); [done|]. cbv zeta.
  destruct (unique_loop_total (S (size fs))) as [p Hp]; [lia|].
  rewrite Hp. change (default target (Some p)) with p.
  destruct (decide (fuel ≤ S (size fs))).
  - destruct (unique_loop_total fuel Hfuel) as [q Hq].
    rewrite Hq. f_equal.
    pose proof (unique_loop_mono fuel (S (size fs)) 1 q ltac:(done) Hq) as Hq'.
    congruence.
  - apply (unique_loop_mono (S (size fs))); [lia | done].
Qed.

Lemma ensure_unique_path_free : ensure_unique_path fs target ∉ fs.
Proof.
  pose proof (ensure_unique_path_enough_fuel (S (size fs)) ltac:(lia)) as Heq.
  unfold ensure_unique_path_fuel in Heq. unfold exists_ at 1 in Heq.
  case_bool_decide as Hin; cbn [negb] in Heq; cbv zeta in Heq.
  - apply unique_loop_Some in Heq as (k & _ & -> & Hfree & _). done.
  - by injection Heq as <-.
Qed.

Lemma ensure_unique_path_unoccupied :
  target ∉ fs → ensure_unique_path fs target = target.
Proof.
  intros Hfree. unfold ensure_unique_path, ensure_unique_path_fuel, exists_.
  by rewrite bool_decide_eq_false_2.
Qed.

End EnsureUniquePath.

Lemma ensure_unique_path_least (fs : FS) (target : Path) :
  target ∈ fs →
  ∃ i, 1 ≤ i ∧ ensure_unique_path fs target = candidate target i ∧
       (candidate target i ∉ fs) ∧ ∀ j, 1 ≤ j < i → candidate target j ∈ fs.
Proof.
  intros Hin.
  pose proof (ensure_unique_path_enough_fuel fs target (S (size fs)) ltac:(lia)) as Heq.
  unfold ensure_unique_path_fuel, exists_ in Heq.
  rewrite bool_decide_eq_true_2 in Heq by done. cbn [negb] in Heq. cbv zeta in Heq.
  apply unique_loop_Some in Heq as (k & Hk & Hp & Hfree & Hocc).
  exists k. split; [lia|]. split; [congruence|]. split; [done|]. exact Hocc.
Qed.

(** The result is the target or one of its candidates. *)
Lemma ensure_unique_path_variant (fs : FS) (target : Path) :
  variant_of target (ensure_unique_path fs target).
Proof.
  destruct (decide (target ∈ fs)) as [Hin|Hout].
  - destruct (ensure_unique_path_least fs target Hin) as (i & Hi & -> & _).
    right. by exists i.
  - left. by apply ensure_unique_path_unoccupied.
Qed.

Lemma variant_of_sibling (d : Path) (n : string) (final : Path) :
  variant_of (d // n) final → ∃ n', final = d // n'.
Proof.
  intros [->|(i & _ & ->)]; [by eexists|].
  unfold candidate. rewrite parent_joinpath. by eexists.
Qed.

(** The result stays the same when the file system changes, as long as the
    result itself stays unoccupied and no path that counts for the target
    (the target or one of its candidates) is freed. *)
Lemma ensure_unique_path_stable (fs fs' : FS) (target : Path) :
  ensure_unique_path fs target ∉ fs' →
  (∀ q, q ∈ fs → q ∉ fs' → ¬ variant_of target q) →
  ensure_unique_path fs' target = ensure_unique_path fs target.
Proof.
  intros Hfree Hkept.
  assert (∀ q, variant_of target q → q ∈ fs → q ∈ fs') as Hkept'.
  { intros q Hq Hin. destruct (decide (q ∈ fs')) as [?|Hout]; [done|].
    by destruct (Hkept q Hin Hout). }
  destruct (decide (target ∈ fs)) as [Hin|Hout].
  - destruct (ensure_unique_path_least fs target Hin) as (i & Hi & Heq & _ & Hocc).
    rewrite Heq in Hfree |- *.
    assert (target ∈ fs') as Hin' by (apply Hkept'; [by left | done]).
    destruct (ensure_unique_path_least fs' target Hin') as (j & Hj & -> & Hjfree & Hjocc).
    f_equal. destruct (decide (j = i)) as [?|Hne]; [done|]. exfalso.
    destruct (decide (j < i)) as [Hlt|Hge].
    + apply Hjfree, Hkept'; [right; by exists j | apply Hocc; lia].
    + apply Hfree, Hjocc. lia.
  - rewrite (ensure_unique_path_unoccupied fs target Hout) in Hfree |- *.
    by apply ensure_unique_path_unoccupied.
Qed.

(** C7: [ensure_unique_path], run with more iterations than there are
    occupied paths, returns a path that is not occupied; it is the
    candidate itself when the candidate is not occupied, and otherwise the
    path in the same directory whose name is the stem, ["_i"] and the
    extension, for the least [i ≥ 1] whose name is not occupied. *)
Theorem ensure_unique_path_first_free (fs : FS) (target : Path) (fuel : nat) :
  size fs < fuel →
  ∃ p, ensure_unique_path_fuel fuel fs target = Some p ∧ (p ∉ fs) ∧
       (target ∉ fs → p = target) ∧
       (target ∈ fs →
        ∃ i, 1 ≤ i ∧
             p = parent target // (stem target +:+ "_" +:+ pretty i +:+ suffix target) ∧
             ∀ j, 1 ≤ j < i →
                  parent target // (stem target +:+ "_" +:+ pretty j +:+ suffix target) ∈ fs).
Proof.
  intros Hfuel. exists (ensure_unique_path fs target).
  pose proof (ensure_unique_path_enough_fuel fs target fuel Hfuel) as Heq.
  split; [done|]. split; [apply ensure_unique_path_free|].
  split; [apply ensure_unique_path_unoccupied|].
  intros Hin. unfold ensure_unique_path_fuel, exists_ in Heq.
  rewrite bool_decide_eq_true_2 in Heq by done. cbn [negb] in Heq. cbv zeta in Heq.
  apply unique_loop_Some in Heq as (k & Hk & -> & _ & Hocc).
  exists k. split; [lia|]. split; [done|]. exact Hocc.
Qed.

Lemma ensure_unique_path_first_free_witness :
  ∃ p, ensure_unique_path_fuel 3 {[ ["d"; "x.jpg"]; ["d"; "x_1.jpg"] ]} ["d"; "x.jpg"] = Some p
       ∧ p = ["d"; "x_2.jpg"].
Proof.
  destruct (ensure_unique_path_first_free
              {[ ["d"; "x.jpg"]; ["d"; "x_1.jpg"] ]} ["d"; "x.jpg"] 3) as (p & Hp & _).
  - vm_compute. lia.
  - exists p. split; [exact Hp|]. vm_compute in Hp. congruence.
Defined.

(** C10: in a file system with finitely many occupied paths the loop of
    [ensure_unique_path] ends: after at most one iteration more than there
    are occupied paths it returns a path, and that path is not occupied. *)
Theorem ensure_unique_path_terminates (fs : FS) (target : Path) :
  ∃ n p, n ≤ S (size fs) ∧ (p ∉ fs) ∧
         ∀ fuel, n ≤ fuel → ensure_unique_path_fuel fuel fs target = Some p.
Proof.
  exists (S (size fs)), (ensure_unique_path fs target).
  split; [done|]. split; [apply ensure_unique_path_free|].
  intros fuel Hfuel. apply ensure_unique_path_enough_fuel. lia.
Qed.

(** ** Date resolution *)

Lemma video_not_image (path : Path) : is_video_file path = true → is_image_file path = false.
Proof.
  unfold is_video_file, is_image_file. generalize (Str.lower (suffix path)) as ext.
  intros ext Hv%bool_decide_eq_true. unfold VIDEO_EXTS in Hv.
  repeat (apply elem_of_cons in Hv as [->|Hv]; [reflexivity|]).
  by apply elem_of_nil in Hv.
Qed.

Section DateResolverProperties.
Context (C : Collab).

Lemma parse_with_first (value : string) (pre post : list string) (fmt : string) (dt : datetime) :
  strptime C value fmt = Return dt →
  (∀ f, f ∈ pre → ∃ e, strptime C value f = Raise e) →
  parse_with C value (pre ++ fmt :: post) = Some dt.
Proof.
  intros Hfmt. induction pre as [|f pre IH]; intros Hpre; simpl.
  - by rewrite Hfmt.
  - destruct (Hpre f) as [e ->]; [left|]. apply IH. intros ??. apply Hpre. by right.
Qed.

Lemma parse_with_Some (value : string) (l : list string) (dt : datetime) :
  parse_with C value l = Some dt →
  ∃ pre fmt post, l = pre ++ fmt :: post ∧ strptime C value fmt = Return dt ∧
                  ∀ f, f ∈ pre → ∃ e, strptime C value f = Raise e.
Proof.
  induction l as [|f l IH]; simpl; [done|].
  destruct (strptime C value f) as [dt'|e] eqn:Hf.
  - intros [= ->]. exists [], f, l. split; [done|]. split; [done|].
    intros ? []%elem_of_nil.
  - intros (pre & fmt & post & -> & Hfmt & Hpre)%IH.
    exists (f :: pre), fmt, post. split; [done|]. split; [done|].
    intros f' [->|?]%elem_of_cons; eauto.
Qed.

Lemma parse_with_None (value : string) (l : list string) :
  parse_with C value l = None ↔ ∀ f, f ∈ l → ∃ e, strptime C value f = Raise e.
Proof.
  induction l as [|f l IH]; simpl.
  - split; [intros _ ? []%elem_of_nil | done].
  - destruct (strptime C value f) as [dt'|e] eqn:Hf.
    + split; [done|]. intros Hall. destruct (Hall f) as [e He]; [left|]. congruence.
    + rewrite IH. split.
      * intros Hall f' [->|?]%elem_of_cons; eauto.
      * intros Hall f' ?. apply Hall. by right.
Qed.

Lemma parse_exif_datetime_parsed (value : string) (dt : datetime) :
  parse_exif_datetime C value = Some dt ↔ parsed_as C value dt.
Proof.
  unfold parse_exif_datetime, parsed_as. case_bool_decide as Hv.
  - split; [done | by intros [? _]].
  - split.
    + intros ?%parse_with_Some. done.
    + intros (_ & pre & fmt & post & -> & Hfmt & Hpre). by apply parse_with_first.
Qed.

Lemma parse_exif_datetime_None (value : string) :
  parse_exif_datetime C value = None ↔ ¬ parses C value.
Proof.
  unfold parse_exif_datetime, parses. case_bool_decide as Hv.
  - split; [by intros _ [? _] | done].
  - rewrite parse_with_None. split.
    + intros Hall (_ & fmt & dt & Hin & Hfmt). destruct (Hall fmt Hin). congruence.
    + intros Hno f Hin. destruct (strptime C value f) as [dt|e] eqn:Hf; [|by eexists].
      destruct Hno. split; [done|]. by exists f, dt.
Qed.

Lemma scan_candidates_first (exif : gmap string string)
    (pre post : list string) (key value : string) (dt : datetime) :
  exif !! key = Some value →
  parse_exif_datetime C value = Some dt →
  (∀ k v, k ∈ pre → exif !! k = Some v → parse_exif_datetime C v = None) →
  scan_candidates C exif (pre ++ key :: post) = Some dt.
Proof.
  intros Hkey Hdt. induction pre as [|k pre IH]; intros Hpre; simpl.
  - by rewrite Hkey, Hdt.
  - destruct (exif !! k) as [v|] eqn:Hk.
    + rewrite (Hpre k v) by (done || left). apply IH. intros ????.
      eapply Hpre; [by right | done].
    + apply IH. intros ????. eapply Hpre; [by right | done].
Qed.

Lemma scan_candidates_None (exif : gmap string string) (keys : list string) :
  (∀ key value, key ∈ keys → exif !! key = Some value →
                parse_exif_datetime C value = None) →
  scan_candidates C exif keys = None.
Proof.
  induction keys as [|k keys IH]; intros Hall; simpl; [done|].
  destruct (exif !! k) as [v|] eqn:Hk.
  - rewrite (Hall k v) by (done || left). apply IH. intros ????.
    eapply Hall; [by right | done].
  - apply IH. intros ????. eapply Hall; [by right | done].
Qed.

Lemma get_image_datetime_unfold (path : Path) :
  get_image_datetime C path =
  match open_getexif C path with
  | Return items =>
      match scan_candidates C (_exif_dict_from_image C items) _EXIF_DATETIME_CANDIDATES with
      | Some dt => Return (Some dt, Some "exif")
      | None => Return (mtime_fallback C path)
      end
  | Raise _ => Return (mtime_fallback C path)
  end.
Proof.
  unfold get_image_datetime, mtime_fallback.
  destruct (open_getexif C path) as [items|e]; cbn [mbind result_bind try_except].
  - destruct (scan_candidates _ _ _); [done|]. by destruct (stat_mtime C path).
  - by destruct (stat_mtime C path).
Qed.

Lemma get_image_datetime_fallback (path : Path) :
  no_metadata_date C path →
  get_image_datetime C path = Return (mtime_fallback C path).
Proof.
  rewrite get_image_datetime_unfold. unfold no_metadata_date.
  destruct (open_getexif C path) as [items|e]; [|done].
  intros Hno. rewrite scan_candidates_None; [done|].
  intros key value Hkey Hval. apply parse_exif_datetime_None. eauto.
Qed.

Lemma get_image_datetime_returns (path : Path) :
  ∃ r, get_image_datetime C path = Return r.
Proof.
  rewrite get_image_datetime_unfold.
  destruct (open_getexif C path) as [items|e]; [|by eexists].
  destruct (scan_candidates _ _ _); by eexists.
Qed.

Lemma resolve_single_returns (path : Path) :
  ∃ r, resolve_single C path = Return r.
Proof.
  unfold resolve_single. destruct (is_image_file path).
  - apply get_image_datetime_returns.
  - destruct (stat_mtime C path); by eexists.
Qed.

Lemma resolve_master_returns (path : Path) :
  ∃ r, resolve_master C path = Return r.
Proof.
  unfold resolve_master. destruct (is_image_file path).
  - apply get_image_datetime_returns.
  - by eexists.
Qed.

End DateResolverProperties.

(** Case analysis on the membership of an element in a literal list. *)
Ltac each_elem H tac :=
  repeat (apply elem_of_cons in H as [->|H]; [tac|]);
  try (by apply elem_of_nil in H).



(** C6: date resolution never raises.  For a video file, and for an image
    file whose metadata cannot be read or has no candidate tag with a value
    that parses, it returns the modification time with the source
    ["mtime"], and when the modification time cannot be read either it
    returns no date and no source. *)
Theorem resolve_single_never_raises (C : Collab) (path : Path) :
  (∃ dt source, resolve_single C path = Return (dt, source)) ∧
  (∃ dt source, get_image_datetime C path = Return (dt, source)) ∧
  (is_video_file path = true ∨ no_metadata_date C path →
   resolve_single C path =
   match stat_mtime C path with
   | Return dt => Return (Some dt, Some "mtime")
   | Raise _ => Return (None, None)
   end).
Proof.
  split; [|split].
  - destruct (resolve_single_returns C path) as [[dt source] Hr]. eauto.
  - destruct (get_image_datetime_returns C path) as [[dt source] Hr]. eauto.
  - intros Hcase. unfold resolve_single. destruct (is_image_file path) eqn:Himg.
    + destruct Hcase as [Hvid%video_not_image|Hno]; [congruence|].
      rewrite get_image_datetime_fallback by done.
      unfold mtime_fallback. by destruct (stat_mtime C path).
    + by destruct (stat_mtime C path).
Qed.

Lemma resolve_single_never_raises_witness :
  let img := ["photos"; "IMG_01.jpg"] in
  let vid := ["photos"; "IMG_02.mov"] in
  let C := Ref.collab [(img, [(36867%N, "not a date")])]
                      [(vid, mk_datetime 2020 1 5 10 0 0)] [] in
  resolve_single C vid = Return (Some (mk_datetime 2020 1 5 10 0 0), Some "mtime") ∧
  resolve_single C img = Return (None, None).
Proof.
  intros img vid C. split.
  - apply (resolve_single_never_raises C vid). left. reflexivity.
  - apply (resolve_single_never_raises C img). right.
    unfold no_metadata_date. change (open_getexif C img) with
      (Return (A:=list (N * string)) [(36867%N, "not a date")]).
    intros key value Hkey Hv [_ (fmt & d & Hfmt & Hparse)].
    unfold _EXIF_DATETIME_CANDIDATES in Hkey.
    each_elem Hkey ltac:(vm_compute in Hv; try discriminate).
    injection Hv as <-. unfold fmts in Hfmt.
    each_elem Hfmt ltac:(vm_compute in Hparse; discriminate).
Defined.

(** The result of [ensure_unique_path] is in the directory of the
    candidate. *)
Lemma ensure_unique_path_sibling (fs : FS) (d : Path) (n : string) :
  ∃ n', ensure_unique_path fs (d // n) = d // n'.
Proof.
  destruct (decide (d // n ∈ fs)) as [Hin|Hfree].
  - pose proof (ensure_unique_path_enough_fuel fs (d // n) (S (size fs)) ltac:(lia)) as Heq.
    unfold ensure_unique_path_fuel, exists_ in Heq.
    rewrite bool_decide_eq_true_2 in Heq by done. cbn [negb] in Heq. cbv zeta in Heq.
    apply unique_loop_Some in Heq as (k & _ & -> & _). unfold candidate.
    rewrite parent_joinpath. by eexists.
  - exists n. by apply ensure_unique_path_unoccupied.
Qed.

(** ** Reasoning about worker computations *)

Lemma run_bind {A B} (m : M A) (k : A → M B) (st : St) :
  (m ≫= k) st =
  match m st with
  | (Return a, st') => k a st'
  | (Raise e, st') => (Raise e, st')
  end.
Proof. reflexivity. Qed.

Lemma bind_inv {A B} (m : M A) (k : A → M B) (st st' : St) (r : result B) :
  (m ≫= k) st = (r, st') →
  (∃ a st1, m st = (Return a, st1) ∧ k a st1 = (r, st')) ∨
  (∃ e, m st = (Raise e, st') ∧ r = Raise e).
Proof.
  rewrite run_bind. destruct (m st) as [[a|e] st1]; intros Heq.
  - left. by exists a, st1.
  - right. exists e. by injection Heq as <- <-.
Qed.

(** One call of [move_or_copy], step by step. *)
Lemma move_or_copy_cases (C : Collab) (O : Options) (path target_dir : Path)
    (st st' : St) (r : result Path) :
  move_or_copy C O path target_dir st = (r, st') →
  let made := st_fs st ∪ list_to_set (dir_chain target_dir) in
  st_log st' = st_log st ∧
  match r with
  | Return final =>
      if dry_run O
      then final = ensure_unique_path (st_fs st) (target_dir // name path) ∧
           st_fs st' = st_fs st
      else final = ensure_unique_path made (target_dir // name path) ∧
           st_fs st' = if copy_mode O then made ∪ {[final]}
                       else made ∖ {[path]} ∪ {[final]}
  | Raise _ => dry_run O = false ∧ (st_fs st' = st_fs st ∨ st_fs st' = made)
  end.
Proof.
  unfold move_or_copy. rewrite run_bind. cbv zeta.
  destruct (dry_run O); cbn [negb mret M_ret].
  - rewrite run_bind. unfold unique_target. by intros [= <- <-].
  - unfold mkdir at 1. destruct (mkdir_error C (st_fs st) target_dir) as [e|].
    { intros [= <- <-]. split; [done|]. split; [done | by left]. }
    rewrite run_bind. unfold unique_target. cbn [st_fs st_log].
    rewrite run_bind. destruct (copy_mode O).
    + unfold copy2. cbn [st_fs st_log]. destruct (copy_error C _ path _) as [e|].
      * intros [= <- <-]. split; [done|]. split; [done | by right].
      * by intros [= <- <-].
    + unfold move. cbn [st_fs st_log]. destruct (move_error C _ path _) as [e|].
      * intros [= <- <-]. split; [done|]. split; [done | by right].
      * by intros [= <- <-].
Qed.

(** The path [move_or_copy] returns is the destination under the name of
    the file, or under that name with a numeric suffix. *)
Lemma move_or_copy_variant (C : Collab) (O : Options) (path target_dir : Path)
    (st st' : St) (final : Path) :
  move_or_copy C O path target_dir st = (Return final, st') →
  variant_of (target_dir // name path) final.
Proof.
  intros [_ Hcase]%move_or_copy_cases. cbv zeta in Hcase.
  destruct (dry_run O); destruct Hcase as [-> _]; apply ensure_unique_path_variant.
Qed.

Section Returns.
Context (R : relation St) `{!PreOrder R}.

(** What is known of the value a computation returns can be added to what
    a relation on states gives. *)
Lemma returns_value {A} (V W : A → Prop) (m : M A) :
  returns R V m → (∀ st a st', m st = (Return a, st') → W a) → returns R W m.
Proof.
  intros Hm HW st r st' Heq. destruct (Hm st r st' Heq) as [HR _].
  split; [done|]. destruct r; [by eapply HW | done].
Qed.

Lemma returns_weaken {A} (V W : A → Prop) (m : M A) :
  returns R V m → (∀ a, V a → W a) → returns R W m.
Proof.
  intros Hm HVW st r st' [HR Hr]%Hm. split; [done|]. destruct r; auto.
Qed.

Lemma returns_ret {A} (V : A → Prop) (a : A) : V a → returns R V (mret a).
Proof. intros Ha st r st' [= <- <-]. split; [reflexivity | done]. Qed.

Lemma returns_raise {A} (V : A → Prop) (e : string) : returns R V (raise e).
Proof. intros st r st' [= <- <-]. split; [reflexivity | done]. Qed.

Lemma returns_lift {A} (x : result A) : returns R (λ a, x = Return a) (lift x).
Proof. intros st r st' [= <- <-]. split; [reflexivity | by destruct x]. Qed.

Lemma returns_bind {A B} (V : A → Prop) (W : B → Prop) (m : M A) (k : A → M B) :
  returns R V m → (∀ a, V a → returns R W (k a)) → returns R W (m ≫= k).
Proof.
  intros Hm Hk st r st' [(a & st1 & Hm1 & Hk1)|(e & Hm1 & ->)]%bind_inv.
  - apply Hm in Hm1 as [HR1 Ha]. apply (Hk a Ha) in Hk1 as [HR2 Hr].
    split; [by etrans | done].
  - apply Hm in Hm1 as [HR1 _]. done.
Qed.

Lemma returns_try_except {A} (V : A → Prop) (m : M A) (h : string → M A) :
  returns R V m → (∀ e, returns R V (h e)) → returns R V (try_except_M m h).
Proof.
  intros Hm Hh st r st'. unfold try_except_M.
  destruct (m st) as [[a|e] st1] eqn:Hm1.
  - intros [= <- <-]. by apply Hm in Hm1.
  - intros Hh1. apply Hm in Hm1 as [HR1 _]. apply Hh in Hh1 as [HR2 Hr].
    split; [by etrans | done].
Qed.

Lemma returns_for_each {A} (l : list A) (body : A → M unit) :
  (∀ x, x ∈ l → returns R (λ _, True) (body x)) →
  returns R (λ _, True) (for_each l body).
Proof.
  induction l as [|x l IH]; intros Hbody; simpl.
  - by apply returns_ret.
  - eapply returns_bind; [apply Hbody; left|].
    intros _ _. apply IH. intros ??. apply Hbody. by right.
Qed.

Lemma returns_relative_to (src p : Path) :
  returns R (λ rel, strip_prefix src p = Some rel) (relative_to src p).
Proof.
  unfold relative_to. destruct (strip_prefix src p) eqn:Hrel.
  - by apply returns_ret.
  - apply returns_raise.
Qed.
End Returns.

Global Instance grows_preorder (P : string → Prop) (Q : Path → Prop) : PreOrder (grows P Q).
Proof.
  split.
  - intros st. split; [|by left]. exists []. by rewrite app_nil_r.
  - intros st1 st2 st3 [(new1 & Hlog1 & Hnew1) Hfs1] [(new2 & Hlog2 & Hnew2) Hfs2]. split.
    + exists (new1 ++ new2). rewrite Hlog2, Hlog1, app_assoc. split; [done|].
      by apply Forall_app.
    + intros p [Hp|?]%Hfs2; [|by right]. by apply Hfs1.
Qed.

Section Grows.
Context (C : Collab) (O : Options) (src : Path).
Context (P : string → Prop) (Q : Path → Prop).

Lemma grows_same_log (st : St) (fs : FS) :
  (∀ p, p ∈ fs → p ∈ st_fs st ∨ Q p) → grows P Q st (mk_St fs (st_log st)).
Proof. intros Hfs. split; [|done]. exists []. by rewrite app_nil_r. Qed.

Lemma grows_log (msg : string) : P msg → returns (grows P Q) (λ _, True) (_log msg).
Proof.
  intros Hmsg st r st' [= <- <-]. split; [|done]. split; [|by left].
  exists [msg]. split; [done|]. by apply Forall_singleton.
Qed.

Lemma grows_mkdir (target_dir : Path) :
  (∀ d, d ∈ dir_chain target_dir → Q d) →
  returns (grows P Q) (λ _, True) (mkdir C target_dir).
Proof.
  intros Hdir st r st'. unfold mkdir. destruct (mkdir_error _ _ _).
  - intros [= <- <-]. split; [reflexivity | done].
  - intros [= <- <-]. split; [|done]. apply grows_same_log.
    intros p [?|Hp%elem_of_list_to_set]%elem_of_union; [by left|]. right. by apply Hdir.
Qed.

Lemma grows_copy2 (path final_target : Path) :
  Q final_target → returns (grows P Q) (λ _, True) (copy2 C path final_target).
Proof.
  intros Hq st r st'. unfold copy2. destruct (copy_error _ _ _ _).
  - intros [= <- <-]. split; [reflexivity | done].
  - intros [= <- <-]. split; [|done]. apply grows_same_log.
    intros p [?|Hp%elem_of_singleton]%elem_of_union; [by left | right; by subst].
Qed.

Lemma grows_move (path final_target : Path) :
  Q final_target → returns (grows P Q) (λ _, True) (move C path final_target).
Proof.
  intros Hq st r st'. unfold move. destruct (move_error _ _ _ _).
  - intros [= <- <-]. split; [reflexivity | done].
  - intros [= <- <-]. split; [|done]. apply grows_same_log.
    intros p [[? _]%elem_of_difference|Hp%elem_of_singleton]%elem_of_union;
      [by left | right; by subst].
Qed.

Lemma grows_unique_target (d : Path) (n : string) :
  returns (grows P Q) (λ p, ∃ n', p = d // n') (unique_target (d // n)).
Proof.
  intros st r st' [= <- <-]. split; [reflexivity|].
  destruct (ensure_unique_path_sibling (st_fs st) d n) as [n' ->]. by eexists.
Qed.

Lemma grows_move_or_copy (path target_dir : Path) :
  (∀ d, d ∈ dir_chain target_dir → Q d) →
  (∀ n, Q (target_dir // n)) →
  returns (grows P Q) (λ p, ∃ n, p = target_dir // n) (move_or_copy C O path target_dir).
Proof.
  intros Hdir Hfile. unfold move_or_copy.
  eapply returns_bind with (V := λ _, True); [apply _| |].
  { destruct (negb (dry_run O)); [by apply grows_mkdir | by apply returns_ret; [apply _|]]. }
  intros _ _. cbv zeta.
  eapply returns_bind; [apply _ | apply grows_unique_target |].
  intros p [n ->]. destruct (dry_run O).
  - apply returns_ret; [apply _ | by eexists].
  - eapply returns_bind with (V := λ _, True); [apply _| |].
    + destruct (copy_mode O); [by apply grows_copy2 | by apply grows_move].
    + intros _ _. apply returns_ret; [apply _ | by eexists].
Qed.
End Grows.

(** ** The program on the example data *)

(** C1 (the program loses a file): the bucket [IMG] holds two images and a
    video.  The master is the smallest image, [IMG.jpg]; the image that is
    demoted is the one listed second, which is [IMG.jpg] again, and it is
    then removed from the singles as a member of a pair.  [IMG.png] is in
    no pair and not among the singles. *)
Theorem pair_live_photos_loses_image :
  _collect_files [Ex.png; Ex.jpg; Ex.mov] = [Ex.png; Ex.jpg; Ex.mov] ∧
  _pair_live_photos [Ex.png; Ex.jpg; Ex.mov] = ([(Ex.jpg, [Ex.mov])], []) ∧
  _pair_live_photos [Ex.jpg; Ex.png; Ex.mov] = ([(Ex.jpg, [Ex.mov])], [Ex.png]).
Proof. by vm_compute. Qed.

(** C2 (an exception leaves the first loop): moving the master of the pair
    fails.  The run ends with that exception; no line is logged for the
    pair, and the single [a/x.jpg] that follows is never processed.  The
    same failure on a single is caught and logged. *)
Theorem worker_pair_failure_propagates :
  let broken_master := Ref.collab Ex.exifs Ex.mtimes [Ex.jpg] in
  let broken_single := Ref.collab Ex.exifs Ex.mtimes [Ex.a] in
  let r := run broken_master Ex.move_all Ex.src [Ex.jpg; Ex.mov; Ex.a] Ex.fs0 in
  let r' := run broken_single Ex.move_all Ex.src [Ex.jpg; Ex.mov; Ex.a; Ex.b] Ex.fs0 in
  r.1 = Raise "PermissionError(13, 'Permission denied')" ∧
  st_log r.2 = [] ∧
  Ex.a ∈ st_fs r.2 ∧
  r'.1 = Return tt ∧
  st_log r'.2 =
    ["Moved: d/IMG.jpg  ->  2020-01/IMG.jpg (exif)";
     "Moved: d/IMG.mov  ->  2020-01/IMG.mov (paired with photo)";
     "Error with a/x.jpg: PermissionError(13, 'Permission denied')";
     "Moved: b/x.jpg  ->  2020-01/x.jpg (mtime)";
     "Done!"].
Proof. by vm_compute. Qed.

(** C8 (a year before 1000 is not padded to four digits): the year is
    formatted with a minimum width of two, like the month. *)
Theorem build_target_dirname_short_year :
  let old := ["photos"; "old.jpg"] in
  let C := Ref.collab [(old, [(36867%N, "0999:01:01 00:00:00")])] [] [] in
  build_target_dirname (mk_datetime 999 1 1 0 0 0) = "999-01" ∧
  build_target_dirname (mk_datetime 5 12 1 0 0 0) = "05-12" ∧
  get_image_datetime C old = Return (Some (mk_datetime 999 1 1 0 0 0), Some "exif") ∧
  st_log (run C Ex.move_all Ex.src [old] {[ Ex.src; old ]}).2 =
    ["Moved: old.jpg  ->  999-01/old.jpg (exif)"; "Done!"].
Proof. by vm_compute. Qed.

(** A line of the shape the specification gives ends with a provenance tag
    in parentheses. *)
Lemma provenance_line_ends_with_tag (line : string) :
  provenance_line line →
  ∃ tag, tag ∈ provenance_tags ∧ Str.endswith line (" (" +:+ tag +:+ ")") = true.
Proof.
  intros (verb & rel & folder & fname & tag & _ & Htag & ->).
  exists tag. split; [done|].
  rewrite <- !str_app_assoc. rewrite !str_app_assoc.
  rewrite <- (str_app_assoc verb), <- (str_app_assoc _ rel),
    <- (str_app_assoc _ "  ->  "), <- (str_app_assoc _ folder),
    <- (str_app_assoc _ "/"), <- (str_app_assoc _ fname).
  apply str_endswith_app.
Qed.







(** ** The lines and the new paths of the worker *)

(** The steps of the worker under a relation [R] on states that logging a
    line that satisfies [P] respects. *)
Section WorkerSteps.
Context (C : Collab) (O : Options) (src : Path).
Context (R : relation St) `{!PreOrder R} (P : string → Prop).
Context (Hlog : ∀ msg, P msg → returns R (λ _, True) (_log msg)).

Lemma returns_process_pair (master : Path) (videos : list Path)
    (dt : option datetime) (source : Source) :
  resolve_master C master = Return (dt, source) →
  (∀ rest, P ("Skipping (no date found): " +:+ rest)) →
  (∀ line, relocation_line O src master (dirname_of dt) (src_label source) line → P line) →
  (∀ v line, v ∈ videos →
             relocation_line O src v (dirname_of dt) " (paired with photo)" line → P line) →
  relocates_in C O src R (dirname_of dt) →
  returns R (λ _, True) (process_pair C O src (master, videos)).
Proof.
  intros Hres Hskip Hmaster Hvideo Hmoc. unfold process_pair.
  eapply returns_bind; [apply _ | apply returns_lift, _ |].
  intros [dt' source'] Heq. rewrite Hres in Heq. injection Heq as <- <-.
  destruct (bool_decide (dt = None) && negb (include_unknown O)).
  - eapply returns_bind; [apply _ | apply returns_relative_to, _ |].
    intros rel _. apply Hlog, Hskip.
  - change (match dt with Some d => build_target_dirname d | None => UNKNOWN_DIR_NAME end)
      with (dirname_of dt). cbv zeta.
    eapply returns_bind; [apply _ | apply Hmoc |].
    intros p Hp.
    eapply returns_bind; [apply _ | apply returns_relative_to, _ |].
    intros rel Hrel.
    eapply returns_bind; [apply _ | |].
    { apply Hlog, Hmaster. by exists p, rel. }
    intros _ _. apply returns_for_each; [apply _|].
    intros v Hv.
    eapply returns_bind; [apply _ | apply Hmoc |].
    intros p' Hp'.
    eapply returns_bind; [apply _ | apply returns_relative_to, _ |].
    intros rel' Hrel'. apply Hlog, (Hvideo v); [done|].
    by exists p', rel'.
Qed.

Lemma returns_process_single (path : Path) (dt : option datetime) (source : Source) :
  resolve_single C path = Return (dt, source) →
  (∀ rest, P ("Skipping (no date found): " +:+ rest)) →
  (∀ rest, P ("Error with " +:+ rest)) →
  (∀ line, relocation_line O src path (dirname_of dt) (src_label source) line → P line) →
  relocates_in C O src R (dirname_of dt) →
  returns R (λ _, True) (process_single C O src path).
Proof.
  intros Hres Hskip Herror Hline Hmoc. unfold process_single.
  eapply returns_bind; [apply _ | apply returns_relative_to, _ |].
  intros rel Hrel. apply returns_try_except; [apply _ | |].
  - eapply returns_bind; [apply _ | apply returns_lift, _ |].
    intros [dt' source'] Heq. rewrite Hres in Heq. injection Heq as <- <-.
    assert (∀ dirname, dirname = dirname_of dt →
              returns R (λ _, True)
                (final_target ← move_or_copy C O path (src // dirname);
                 _log (action O +:+ ": " +:+ path_str rel +:+ "  ->  " +:+ dirname +:+ "/"
                       +:+ name final_target +:+ src_label source))) as Hrelocate.
    { intros ? ->.
      eapply returns_bind; [apply _ | apply Hmoc |].
      intros p Hp. apply Hlog, Hline. by exists p, rel. }
    destruct dt as [d|]; [by apply Hrelocate|].
    destruct (negb (include_unknown O)); [|by apply Hrelocate].
    apply Hlog, Hskip.
  - intros e. apply Hlog, Herror.
Qed.

Lemma returns_worker (walk : list Path) :
  P "Found no media." → P "Done!" →
  (∀ item, item ∈ (_pair_live_photos (_collect_files walk)).1 →
           returns R (λ _, True) (process_pair C O src item)) →
  (∀ path, path ∈ (_pair_live_photos (_collect_files walk)).2 →
           returns R (λ _, True) (process_single C O src path)) →
  returns R (λ _, True) (_worker C O src walk).
Proof.
  intros Hnone Hdone Hpairs Hsingles. unfold _worker.
  destruct (length (_collect_files walk) =? 0); [by apply Hlog|].
  destruct (_pair_live_photos (_collect_files walk)) as [pairs singles].
  eapply returns_bind; [apply _ | by apply returns_for_each |].
  intros _ _.
  eapply returns_bind; [apply _ | by apply returns_for_each |].
  intros _ _. by apply Hlog.
Qed.
End WorkerSteps.

Lemma grows_relocates_in (C : Collab) (O : Options) (src : Path)
    (P : string → Prop) (Q : Path → Prop) (dirname : string) :
  (∀ p, in_folder src dirname p → Q p) →
  relocates_in C O src (grows P Q) dirname.
Proof.
  intros HQ path.
  eapply returns_value; [apply grows_move_or_copy | intros ???; apply move_or_copy_variant].
  - intros d Hd. apply HQ. by left.
  - intros n. apply HQ. right. by eexists.
Qed.

(** What date resolution can return: a date from the metadata, a date from
    the modification time, or nothing. *)
Lemma get_image_datetime_cases (C : Collab) (path : Path) (dt : option datetime) (source : Source) :
  get_image_datetime C path = Return (dt, source) →
  (is_Some dt ∧ (source = Some "exif" ∨ source = Some "mtime")) ∨ (dt = None ∧ source = None).
Proof.
  rewrite get_image_datetime_unfold. unfold mtime_fallback.
  destruct (open_getexif C path) as [items|e].
  - destruct (scan_candidates _ _ _).
    + intros [= <- <-]. left. eauto.
    + destruct (stat_mtime C path); intros [= <- <-]; [left|right]; eauto.
  - destruct (stat_mtime C path); intros [= <- <-]; [left|right]; eauto.
Qed.

Lemma resolve_cases (C : Collab) (path : Path) (dt : option datetime) (source : Source) :
  resolve_single C path = Return (dt, source) ∨ resolve_master C path = Return (dt, source) →
  (is_Some dt ∧ (source = Some "exif" ∨ source = Some "mtime")) ∨ (dt = None ∧ source = None).
Proof.
  unfold resolve_single, resolve_master.
  destruct (is_image_file path).
  - intros [?|?]; by eapply get_image_datetime_cases.
  - intros [Hs|Hm].
    + destruct (stat_mtime C path); injection Hs as <- <-; [left|right]; eauto.
    + injection Hm as <- <-. by right.
Qed.

Lemma action_verbs (O : Options) :
  action O ∈ ["Moved"; "Copied"; "Would move"; "Would copy"].
Proof. unfold action. destruct (dry_run O), (copy_mode O); set_solver. Qed.


(** A line with the name of the file, or with that name and a numeric
    suffix, and with nothing after it, is a line of the undated single
    [a/x.jpg]; a line with another name, or with a label after the name, is
    no line of the run. *)
Example outcome_line_of_undated_single :
  let C := Ref.collab Ex.exifs [] [] in
  let line_of := outcome_line C Ex.move_all Ex.src [(Ex.jpg, [Ex.mov])] [Ex.a] in
  _pair_live_photos (_collect_files [Ex.jpg; Ex.mov; Ex.a]) = ([(Ex.jpg, [Ex.mov])], [Ex.a]) ∧
  line_of "Moved: a/x.jpg  ->  unknown-date/x.jpg" ∧
  line_of "Moved: a/x.jpg  ->  unknown-date/x_2.jpg" ∧
  ¬ line_of "Moved: a/x.jpg  ->  unknown-date/x.jpg (exif)" ∧
  ¬ line_of "Moved: a/x.jpg  ->  unknown-date/y.jpg".
Proof.
  intros C line_of. split; [by vm_compute|].
  assert (∀ final, variant_of ["photos"; "unknown-date"; "x.jpg"] final →
                   ∀ line, line = "Moved: a/x.jpg  ->  unknown-date/" +:+ name final +:+ "" →
                           line_of line) as Hline.
  { intros final Hvar line ->. do 4 right. left. exists Ex.a, None, None.
    split; [left|]. split; [reflexivity|]. exists final, ["a"; "x.jpg"].
    split; [reflexivity|]. split; [exact Hvar | reflexivity]. }
  assert (∀ line, line_of line →
            (∀ final, variant_of ["photos"; "unknown-date"; "x.jpg"] final →
                      line ≠ "Moved: a/x.jpg  ->  unknown-date/" +:+ name final +:+ "") →
            (∀ rest, line ≠ "Moved: d/IMG." +:+ rest) →
            (∀ rest, line ≠ "Skipping (no date found): " +:+ rest) →
            (∀ rest, line ≠ "Error with " +:+ rest) →
            line ≠ "Found no media." → line ≠ "Done!" → False) as Hnot.
  { intros line Hl Hsingle Hpair Hskip Herror Hnone Hdone.
    destruct Hl as [?|[?|[[rest ?]|[[rest ?]|[Hs|[Hm|Hc]]]]]];
      [done | done | by eapply Hskip | by eapply Herror | ..].
    - destruct Hs as (f & dt & source & ->%list_elem_of_singleton & Hres & final & rel
                      & Hrel & Hvar & ->).
      vm_compute in Hres. injection Hres as <- <-. injection Hrel as <-.
      by apply (Hsingle final).
    - destruct Hm as (master & videos & dt & source & Hin%list_elem_of_singleton & Hres
                      & final & rel & Hrel & Hvar & ->).
      injection Hin as -> ->. injection Hrel as <-.
      eapply Hpair. reflexivity.
    - destruct Hc as (master & videos & v & dt & source & Hin%list_elem_of_singleton
                      & Hv & Hres & final & rel & Hrel & Hvar & ->).
      injection Hin as -> ->. apply list_elem_of_singleton in Hv as ->.
      injection Hrel as <-.
      eapply Hpair. reflexivity. }
  split; [apply (Hline ["photos"; "unknown-date"; "x.jpg"]); [by left | reflexivity]|].
  split.
  { apply (Hline (candidate ["photos"; "unknown-date"; "x.jpg"] 2));
      [right; exists 2; split; [lia | reflexivity] | by vm_compute]. }
  split; intros Hl; apply (Hnot _ Hl); try (intros rest Heq; vm_compute in Heq; discriminate Heq);
    try discriminate.
  - intros final [->|(i & _ & ->)] Heq; [vm_compute in Heq; discriminate Heq|].
    unfold candidate in Heq. rewrite name_joinpath in Heq. revert Heq.
    generalize (pretty i). intros s Heq. vm_compute in Heq. discriminate Heq.
  - intros final [->|(i & _ & ->)] Heq; [vm_compute in Heq; discriminate Heq|].
    unfold candidate in Heq. rewrite name_joinpath in Heq. revert Heq.
    generalize (pretty i). intros s Heq. vm_compute in Heq. discriminate Heq.
Qed.

(** ** Pairs *)

Lemma bind_ext {A B} (m m' : M A) (k k' : A → M B) (st : St) :
  m st = m' st → (∀ a st1, k a st1 = k' a st1) → (m ≫= k) st = (m' ≫= k') st.
Proof.
  intros Hm Hk. rewrite !run_bind, Hm. destruct (m' st) as [[a|e] st1]; [apply Hk | done].
Qed.

Lemma for_each_ext {A} (l : list A) (body body' : A → M unit) (st : St) :
  (∀ x st1, body x st1 = body' x st1) → for_each l body st = for_each l body' st.
Proof.
  intros Hbody. revert st. induction l as [|x l IH]; intros st; [done|].
  simpl. apply bind_ext; [apply Hbody | intros _ st1; apply IH].
Qed.

Section Independence.
Context (master : Path) (C C' : Collab).
Context (Hagree : agree_but_metadata master C C').

Lemma parse_with_agree (value : string) (l : list string) :
  parse_with C value l = parse_with C' value l.
Proof.
  destruct Hagree as (Hstrptime & _).
  induction l as [|f l IH]; simpl; [done|]. by rewrite Hstrptime, IH.
Qed.

Lemma scan_candidates_agree (exif : gmap string string) (keys : list string) :
  scan_candidates C exif keys = scan_candidates C' exif keys.
Proof.
  induction keys as [|k keys IH]; simpl; [done|].
  unfold parse_exif_datetime. destruct (exif !! k); [|done].
  case_bool_decide; [done|]. by rewrite parse_with_agree, IH.
Qed.

Lemma resolve_master_agree : resolve_master C master = resolve_master C' master.
Proof.
  destruct Hagree as (_ & Htags & Hexif & Hmtime & _).
  unfold resolve_master. destruct (is_image_file master); [|done].
  rewrite !get_image_datetime_unfold. unfold mtime_fallback, _exif_dict_from_image.
  rewrite Hexif, Hmtime, Htags. destruct (open_getexif C' master); [|done].
  by rewrite scan_candidates_agree.
Qed.

Lemma move_or_copy_agree (O : Options) (path target_dir : Path) (st : St) :
  move_or_copy C O path target_dir st = move_or_copy C' O path target_dir st.
Proof.
  destruct Hagree as (_ & _ & _ & _ & Hmkdir & Hcopy & Hmove).
  unfold move_or_copy. apply bind_ext.
  { destruct (negb (dry_run O)); [|done]. unfold mkdir. by rewrite Hmkdir. }
  intros _ st1. cbv zeta. apply bind_ext; [done|].
  intros p st2. destruct (dry_run O); [done|]. apply bind_ext; [|done].
  destruct (copy_mode O); unfold copy2, move; by rewrite ?Hcopy, ?Hmove.
Qed.

Lemma process_pair_agree (O : Options) (src : Path) (videos : list Path) (st : St) :
  process_pair C O src (master, videos) st = process_pair C' O src (master, videos) st.
Proof.
  unfold process_pair. apply bind_ext; [by rewrite resolve_master_agree|].
  intros [dt source] st1.
  destruct (bool_decide (dt = None) && negb (include_unknown O)); [done|].
  cbv zeta. apply bind_ext; [apply move_or_copy_agree|].
  intros p st2. apply bind_ext; [done|]. intros rel st3. apply bind_ext; [done|].
  intros _ st4. apply for_each_ext. intros v st5.
  apply bind_ext; [apply move_or_copy_agree | done].
Qed.
End Independence.

(** *** The relocations of a pair *)

Lemma bind_assoc {A B D} (m : M A) (k : A → M B) (h : B → M D) (st : St) :
  ((m ≫= k) ≫= h) st = (m ≫= λ a, k a ≫= h) st.
Proof. rewrite !run_bind. by destruct (m st) as [[a|e] st1]. Qed.

Section RelocateItems.
Context (C : Collab) (O : Options) (src : Path) (dirname : string).

(** The loop over the videos of a pair is the loop over their items. *)
Lemma for_each_items (videos : list Path) (label : string) (st : St) :
  for_each videos (λ v,
    final_v ← move_or_copy C O v (src // dirname);
    rel ← relative_to src v;
    _log (action O +:+ ": " +:+ path_str rel +:+ "  ->  " +:+ dirname +:+ "/"
          +:+ name final_v +:+ label)) st =
  for_each ((λ v, (v, label)) <$> videos) (relocate_item C O src dirname) st.
Proof.
  revert st. induction videos as [|v videos IH]; intros st; [done|].
  rewrite fmap_cons. cbn [for_each]. apply bind_ext; [done|]. intros _ st1. apply IH.
Qed.

Lemma relocate_item_inv (f : Path) (label : string) (st st' : St) :
  relocate_item C O src dirname (f, label) st = (Return tt, st') →
  ∃ final line,
    relocated O src f dirname label final line ∧
    st_log st' = st_log st ++ [line] ∧
    move_or_copy C O f (src // dirname) st = (Return final, mk_St (st_fs st') (st_log st)).
Proof.
  unfold relocate_item. cbn [fst snd]. rewrite run_bind.
  destruct (move_or_copy C O f (src // dirname) st) as [[final|e] st1] eqn:Hmoc; [|done].
  pose proof (move_or_copy_variant _ _ _ _ _ _ _ Hmoc) as Hvar.
  apply move_or_copy_cases in Hmoc as [Hlog _].
  rewrite run_bind. unfold relative_to.
  destruct (strip_prefix src f) as [rel|] eqn:Hrel; [|done].
  cbn [mret M_ret]. unfold _log. intros [= <-]. cbn [st_fs st_log].
  eexists final, _. split; [by exists rel|]. split; [by rewrite Hlog|].
  destruct st1 as [fs1 log1]. cbn [st_log st_fs] in *. by rewrite Hlog.
Qed.

(** One relocation keeps every path but, in a move, the file it moves. *)
Lemma move_or_copy_keeps_path (f final q : Path) (st st' : St) :
  move_or_copy C O f (src // dirname) st = (Return final, st') →
  q ∈ st_fs st → copy_mode O = true ∨ q ≠ f → q ∈ st_fs st'.
Proof.
  intros [_ Hcase]%move_or_copy_cases Hq Hkeep. cbv zeta in Hcase.
  destruct (dry_run O); destruct Hcase as [_ ->]; [done|].
  destruct (copy_mode O).
  - by apply elem_of_union_l, elem_of_union_l.
  - destruct Hkeep as [?|Hne]; [done|]. apply elem_of_union_l, elem_of_difference.
    split; [by apply elem_of_union_l | by intros ?%elem_of_singleton].
Qed.

(** An executed relocation puts the file at the path it returns, which
    was not occupied. *)
Lemma move_or_copy_places (f final : Path) (st st' : St) :
  move_or_copy C O f (src // dirname) st = (Return final, st') →
  dry_run O = false → final ∈ st_fs st' ∧ (final ∉ st_fs st).
Proof.
  intros [_ Hcase]%move_or_copy_cases Hdry. cbv zeta in Hcase. rewrite Hdry in Hcase.
  destruct Hcase as [Hfinal ->]. split.
  - destruct (copy_mode O); by apply elem_of_union_r, elem_of_singleton.
  - rewrite Hfinal. intros Hin.
    apply (ensure_unique_path_free (st_fs st ∪ list_to_set (dir_chain (src // dirname)))
             (src // dirname // name f)).
    by apply elem_of_union_l.
Qed.

(** An executed relocation adds no path but the directories it makes
    and the path it returns; a move removes the file it moves. *)
Lemma move_or_copy_adds (f final q : Path) (st st' : St) :
  move_or_copy C O f (src // dirname) st = (Return final, st') →
  q ∈ st_fs st' → q ∈ st_fs st ∨ q ∈ dir_chain (src // dirname) ∨ q = final.
Proof.
  intros [_ Hcase]%move_or_copy_cases Hq. cbv zeta in Hcase.
  destruct (dry_run O); destruct Hcase as [_ Hfs]; rewrite Hfs in Hq; [by left|].
  destruct (copy_mode O).
  - apply elem_of_union in Hq as [[?|?%elem_of_list_to_set]%elem_of_union|?%elem_of_singleton];
      auto.
  - apply elem_of_union in Hq as [[Hq _]%elem_of_difference|?%elem_of_singleton]; [|auto].
    apply elem_of_union in Hq as [?|?%elem_of_list_to_set]; auto.
Qed.

Lemma move_or_copy_removes (f final : Path) (st st' : St) :
  move_or_copy C O f (src // dirname) st = (Return final, st') →
  dry_run O = false → copy_mode O = false → f ∈ st_fs st → f ∉ st_fs st'.
Proof.
  intros [_ Hcase]%move_or_copy_cases Hdry Hmode Hf. cbv zeta in Hcase.
  rewrite Hdry, Hmode in Hcase. destruct Hcase as [Hfinal ->].
  intros [[_ Hne]%elem_of_difference|Heq%elem_of_singleton]%elem_of_union.
  - by apply Hne, elem_of_singleton.
  - apply (ensure_unique_path_free (st_fs st ∪ list_to_set (dir_chain (src // dirname)))
             (src // dirname // name f)).
    rewrite <- Hfinal, <- Heq. by apply elem_of_union_l.
Qed.

Lemma relocate_items_inv (items : list (Path * string)) (st st' : St) :
  for_each items (relocate_item C O src dirname) st = (Return tt, st') →
  ∃ moves : list (Path * string),
    Forall2 (λ item m, relocated O src item.1 dirname item.2 m.1 m.2) items moves ∧
    st_log st' = st_log st ++ moves.*2 ∧
    (dry_run O = true → st_fs st' = st_fs st) ∧
    (∀ q, q ∈ st_fs st → copy_mode O = true ∨ (q ∉ items.*1) → q ∈ st_fs st') ∧
    (∀ q, q ∈ st_fs st' →
          q ∈ st_fs st ∨ q ∈ dir_chain (src // dirname) ∨ q ∈ moves.*1) ∧
    (dry_run O = false →
     copy_mode O = true ∨ (NoDup items.*1 ∧ ∀ f, f ∈ items.*1 → f ∈ st_fs st) →
     ∀ m, m ∈ moves → m.1 ∈ st_fs st') ∧
    (dry_run O = false → copy_mode O = false →
     NoDup items.*1 → (∀ f, f ∈ items.*1 → f ∈ st_fs st) →
     ∀ f, f ∈ items.*1 → f ∈ st_fs st' →
          f ∈ dir_chain (src // dirname) ∨ f ∈ moves.*1).
Proof.
  revert st. induction items as [|[f label] items IH]; intros st.
  { intros [= <-]. exists []. split; [constructor|]. split; [by rewrite app_nil_r|].
    split; [done|]. split; [done|]. split; [by left|].
    split; [by intros _ _ m ?%elem_of_nil | by intros _ _ _ _ f ?%elem_of_nil]. }
  cbn [for_each]. intros [(u & st1 & Hone & Hrest)|(e & _ & [=])]%bind_inv.
  destruct u. apply relocate_item_inv in Hone as (final & line & Hline & Hlog1 & Hmoc).
  destruct (IH st1 Hrest) as (moves & Hall & Hlog & Hdry & Hkeep & Hadds & Hplaced & Hgone).
  exists ((final, line) :: moves). rewrite !fmap_cons. cbn [fst snd].
  split; [by constructor|].
  split; [by rewrite Hlog, Hlog1, <- app_assoc|].
  pose proof (move_or_copy_cases _ _ _ _ _ _ _ Hmoc) as [_ Hcase]. cbv zeta in Hcase.
  cbn [st_fs] in Hcase.
  assert (∀ f', f' ∈ items.*1 → NoDup (f :: items.*1) →
                (∀ f0, f0 ∈ f :: items.*1 → f0 ∈ st_fs st) → f' ∈ st_fs st1) as Hstill.
  { intros f' Hf' [Hf _]%NoDup_cons Hexist.
    apply (move_or_copy_keeps_path f final f' _ _ Hmoc); [apply Hexist; by right|].
    right. by intros ->. }
  split; [|split; [|split; [|split]]].
  - intros Hd. rewrite (Hdry Hd). rewrite Hd in Hcase. by destruct Hcase as [_ ->].
  - intros q Hq Hout. apply Hkeep.
    + apply (move_or_copy_keeps_path f final q _ _ Hmoc Hq).
      destruct Hout as [?|Hout]; [by left | right]. intros ->. apply Hout. left.
    + destruct Hout as [?|Hout]; [by left | right]. intros ?. apply Hout. by right.
  - intros q [Hq|[?|?]]%Hadds; [|by right; left | by right; right; right].
    apply (move_or_copy_adds f final q _ _ Hmoc) in Hq as [?|[?| ->]]; [by left|..].
    + right. by left.
    + right. right. left.
  - intros Hd Hsrc m [->|Hm]%elem_of_cons; cbn [fst].
    + destruct (move_or_copy_places f final _ _ Hmoc Hd) as [Hin Hnew]. cbn [st_fs] in Hin.
      apply Hkeep; [done|]. destruct Hsrc as [?|[_ Hexist]]; [by left | right].
      intros Hf. apply Hnew, Hexist. by right.
    + apply (Hplaced Hd); [|done]. destruct Hsrc as [?|[Hnd Hexist]]; [by left | right].
      split; [by apply NoDup_cons in Hnd as [_ ?]|]. intros f' Hf'. by apply Hstill.
  - intros Hd Hmode Hnd Hexist f' Hf' Hin.
    apply elem_of_cons in Hf' as [->|Hf'].
    + apply Hadds in Hin as [Hin|[?|?]]; [|by left | by right; right].
      exfalso. revert Hin. apply (move_or_copy_removes f final _ _ Hmoc Hd Hmode).
      apply Hexist. left.
    + destruct (Hgone Hd Hmode) with (f := f') as [?|?]; [| |done|done|by left|by right; right].
      * by apply NoDup_cons in Hnd as [_ ?].
      * intros f0 Hf0. by apply Hstill.
Qed.
End RelocateItems.

Lemma relocate_item_then {B} (C : Collab) (O : Options) (src : Path) (dirname : string)
    (f : Path) (label : string) (h : unit → M B) (st : St) :
  (relocate_item C O src dirname (f, label) ≫= h) st =
  (final ← move_or_copy C O f (src // dirname);
   rel ← relative_to src f;
   _log (action O +:+ ": " +:+ path_str rel +:+ "  ->  " +:+ dirname +:+ "/"
         +:+ name final +:+ label) ≫= h) st.
Proof.
  unfold relocate_item. cbn [fst snd]. rewrite bind_assoc.
  apply bind_ext; [done|]. intros final st1. by rewrite bind_assoc.
Qed.

(** A pair that is not skipped is relocated item by item. *)
Lemma process_pair_items (C : Collab) (O : Options) (src : Path)
    (master : Path) (videos : list Path) (dt : option datetime) (source : Source) (st : St) :
  resolve_master C master = Return (dt, source) →
  bool_decide (dt = None) && negb (include_unknown O) = false →
  process_pair C O src (master, videos) st =
  for_each (pair_items master videos source) (relocate_item C O src (dirname_of dt)) st.
Proof.
  intros Hres Hskip. unfold process_pair, pair_items. rewrite run_bind. unfold lift.
  rewrite Hres, Hskip.
  change (match dt with Some d => build_target_dirname d | None => UNKNOWN_DIR_NAME end)
    with (dirname_of dt). cbv zeta. cbn [for_each].
  rewrite relocate_item_then.
  apply bind_ext; [done|]. intros final st1.
  apply bind_ext; [done|]. intros rel st2.
  apply bind_ext; [done|]. intros _ st3. apply for_each_items.
Qed.

Lemma pair_items_files (master : Path) (videos : list Path) (source : Source) :
  (pair_items master videos source).*1 = master :: videos.
Proof.
  unfold pair_items. rewrite fmap_cons. cbn [fst]. f_equal.
  rewrite <- list_fmap_compose. by rewrite list_fmap_id.
Qed.

(** C4: the date of a pair is the date of its master, resolved by
    [resolve_master].  When there is none and undated files are excluded,
    processing the pair logs one line, which names the master and the
    number of its videos, and changes nothing in the file system.  In every
    case all the lines the pair logs name the folder of the master's date,
    all the paths it adds to the file system are in that folder (or are the
    folder or a directory above it), and the outcome is the same under any
    collaborators that differ only in the metadata and the modification
    times of files other than the master.  When the pair is not skipped and
    its processing returns, the master and every video have been relocated
    into the folder of the master's date, in this order: each has a
    destination in that folder, under its own name or under that name with
    a numeric suffix, and the log has grown by exactly their lines, each
    naming that destination; a simulated run has changed no path; no path
    but a file of the pair is removed, and none when files are copied;
    after an executed run every destination is occupied, and when files
    are moved the path of a file of the pair is occupied only if it is one
    of these destinations or a directory made for them (both for files of
    the pair that are pairwise distinct and existed before). *)
Theorem process_pair_follows_master (C : Collab) (O : Options) (src : Path)
    (master : Path) (videos : list Path) (rel : Path)
    (dt : option datetime) (source : Source) (st : St) :
  strip_prefix src master = Some rel →
  resolve_master C master = Return (dt, source) →
  let out := process_pair C O src (master, videos) st in
  (dt = None → include_unknown O = false →
   out = (Return tt,
          mk_St (st_fs st)
                (st_log st ++ ["Skipping (no date found): " +:+ path_str rel +:+ " (+ "
                               +:+ pretty (length videos) +:+ " video)"]))) ∧
  (∃ new, st_log out.2 = st_log st ++ new ∧
          Forall (λ line, (∃ rest, line = "Skipping (no date found): " +:+ rest) ∨
                          ∃ f label, f ∈ master :: videos ∧
                                     relocation_line O src f (dirname_of dt) label line) new) ∧
  (∀ p, p ∈ st_fs out.2 → p ∈ st_fs st ∨ in_folder src (dirname_of dt) p) ∧
  (∀ C', agree_but_metadata master C C' → process_pair C' O src (master, videos) st = out) ∧
  (out.1 = Return tt → is_Some dt ∨ include_unknown O = true →
   ∃ moves : list (Path * string),
     Forall2 (λ item m, relocated O src item.1 (dirname_of dt) item.2 m.1 m.2)
             (pair_items master videos source) moves ∧
     st_log out.2 = st_log st ++ moves.*2 ∧
     (dry_run O = true → st_fs out.2 = st_fs st) ∧
     (∀ q, q ∈ st_fs st → copy_mode O = true ∨ (q ∉ master :: videos) →
           q ∈ st_fs out.2) ∧
     (dry_run O = false →
      copy_mode O = true ∨
      (NoDup (master :: videos) ∧ ∀ f, f ∈ master :: videos → f ∈ st_fs st) →
      ∀ m, m ∈ moves → m.1 ∈ st_fs out.2) ∧
     (dry_run O = false → copy_mode O = false →
      NoDup (master :: videos) → (∀ f, f ∈ master :: videos → f ∈ st_fs st) →
      ∀ f, f ∈ master :: videos → f ∈ st_fs out.2 →
           f ∈ dir_chain (src // dirname_of dt) ∨ f ∈ moves.*1)).
Proof.
  intros Hrel Hres out. split; [|split; [|split; [|split]]].
  - intros -> Hinc. subst out. unfold process_pair.
    rewrite run_bind. unfold lift. rewrite Hres, Hinc. cbn [bool_decide negb andb].
    rewrite bool_decide_eq_true_2 by done. cbn [andb].
    rewrite run_bind. unfold relative_to. by rewrite Hrel.
  - destruct out as [r st'] eqn:Hout. subst out.
    eapply (returns_process_pair C O src _ _ (grows_log _ (in_folder src (dirname_of dt))))
      in Hout as [[Hlog _] _]; [exact Hlog | exact Hres | ..].
    + intros rest. left. by eexists.
    + intros line Hline. right. exists master, (src_label source). split; [left | done].
    + intros v line Hv Hline. right. exists v, " (paired with photo)". split; [by right | done].
    + by apply grows_relocates_in.
  - destruct out as [r st'] eqn:Hout. subst out.
    eapply (returns_process_pair C O src _ _
              (grows_log (λ _, True) (in_folder src (dirname_of dt))))
      in Hout as [[_ Hfs] _]; [exact Hfs | exact Hres | done.. |].
    by apply grows_relocates_in.
  - intros C' Hagree. symmetry. by apply process_pair_agree.
  - intros Hret Hdated.
    assert (bool_decide (dt = None) && negb (include_unknown O) = false) as Hskip.
    { destruct Hdated as [[d ->]| ->]; [done|]. cbn [negb]. apply andb_false_r. }
    subst out. rewrite (process_pair_items C O src master videos dt source st Hres Hskip) in *.
    destruct (for_each _ _ st) as [r st'] eqn:Hloop. cbn [fst snd] in *. subst r.
    apply relocate_items_inv
      in Hloop as (moves & Hall & Hlog & Hdry & Hkeep & _ & Hplaced & Hgone).
    exists moves. rewrite pair_items_files in Hkeep, Hplaced, Hgone. done.
Qed.

Lemma process_pair_follows_master_witness :
  let C := Ref.collab Ex.exifs Ex.mtimes [] in
  let out := process_pair C Ex.move_all Ex.src (Ex.jpg, [Ex.mov]) (mk_St Ex.fs0 []) in
  (∃ moves : list (Path * string),
     length moves = 2 ∧ st_log out.2 = moves.*2 ∧ ∀ m, m ∈ moves → m.1 ∈ st_fs out.2) ∧
  st_log out.2 = ["Moved: d/IMG.jpg  ->  2020-01/IMG.jpg (exif)";
                  "Moved: d/IMG.mov  ->  2020-01/IMG.mov (paired with photo)"].
Proof.
  intros C out. split; [|by vm_compute].
  destruct (process_pair_follows_master C Ex.move_all Ex.src Ex.jpg [Ex.mov] ["d"; "IMG.jpg"]
              (Some Ex.jan5) (Some "exif") (mk_St Ex.fs0 []))
    as (_ & _ & _ & _ & Hmoved).
  - reflexivity.
  - by vm_compute.
  - destruct Hmoved as (moves & Hall & Hlog & _ & _ & Hplaced & _).
    + by vm_compute.
    + left. by eexists.
    + exists moves. split; [by apply Forall2_length in Hall|]. split; [exact Hlog|].
      apply Hplaced; [reflexivity|]. right. split.
      * apply (bool_decide_unpack (NoDup [Ex.jpg; Ex.mov])). by vm_compute.
      * intros f Hf. apply (bool_decide_unpack (f ∈ Ex.fs0)).
        apply elem_of_cons in Hf as [->|Hf]; [by vm_compute|].
        apply list_elem_of_singleton in Hf as ->. by vm_compute.
Defined.

(** ** A simulated run and the executed run *)

Lemma would_action (O : Options) (rest : string) :
  would (action (execute O) +:+ ": " +:+ rest) = action (simulate O) +:+ ": " +:+ rest.
Proof. unfold action, execute, simulate. cbn [dry_run copy_mode]. by destruct (copy_mode O). Qed.

Lemma would_skip (rest : string) :
  would ("Skipping (no date found): " +:+ rest) = "Skipping (no date found): " +:+ rest.
Proof. reflexivity. Qed.

Lemma dir_chain_length (d p : Path) : p ∈ dir_chain d → length p ≤ length d.
Proof.
  unfold dir_chain. intros (n & -> & _)%list_elem_of_fmap.
  rewrite length_take. lia.
Qed.

Lemma length_joinpath (p : Path) (s : string) : length (p // s) = S (length p).
Proof. unfold joinpath. rewrite length_app. simpl. lia. Qed.

(** A destination of a planned relocation lies two levels below the
    root, where no directory the run makes lies. *)
Lemma variant_of_length (target final : Path) (n : nat) :
  length target = S n → variant_of target final → length final = S n.
Proof.
  intros Hlen [->|(i & _ & ->)]; [done|]. unfold candidate. rewrite length_joinpath.
  f_equal. unfold parent. rewrite removelast_firstn_len, length_take. lia.
Qed.

Section InStepRules.
Context (C : Collab) (O : Options) (src : Path).
Context (Hnf : no_faults C).

Lemma in_step_weaken {A} (ms ms' : list (Path * Path)) (E E' : Prop) (V W : A → Prop)
    (md me : M A) :
  in_step O src ms ms' E V md me → (E → E') → (∀ a, V a → W a) →
  in_step O src ms ms' E' W md me.
Proof.
  intros Hm HE HV sd se (r & sd' & se' & Hd & He & Hpost)%Hm.
  exists r, sd', se'. split; [done|]. split; [done|].
  destruct r; destruct Hpost; auto.
Qed.

Lemma in_step_bind {A B} (ms ms1 ms2 : list (Path * Path)) (E : Prop)
    (V : A → Prop) (W : B → Prop) (md me : M A) (kd ke : A → M B) :
  in_step O src ms ms1 E V md me →
  (∀ a, V a → in_step O src ms1 ms2 E W (kd a) (ke a)) →
  in_step O src ms ms2 E W (md ≫= kd) (me ≫= ke).
Proof.
  intros Hm Hk sd se (r & sd1 & se1 & Hd & He & Hpost)%Hm.
  rewrite !run_bind, Hd, He. destruct r as [a|e].
  - destruct Hpost as [Ha Hinv]. by apply (Hk a Ha).
  - by exists (Raise e), sd1, se1.
Qed.

(** A step that reads and writes no state is the same in both runs. *)
Lemma in_step_stateless {A} (ms : list (Path * Path)) (E : Prop) (V : A → Prop)
    (m : M A) (r : result A) :
  (∀ st, m st = (r, st)) →
  match r with Return a => V a | Raise _ => E end →
  in_step O src ms ms E V m m.
Proof.
  intros Hm Hr sd se Hinv. exists r, sd, se. rewrite !Hm.
  split; [done|]. split; [done|]. destruct r; [done|]. split; [done|]. apply Hinv.
Qed.

Lemma in_step_relative_to (ms : list (Path * Path)) (p : Path) :
  in_step O src ms ms True (λ rel, strip_prefix src p = Some rel)
    (relative_to src p) (relative_to src p).
Proof.
  unfold relative_to. destruct (strip_prefix src p) as [rel|] eqn:Hrel.
  - by apply (in_step_stateless _ _ _ _ (Return rel)).
  - by apply (in_step_stateless _ _ _ _ (Raise "ValueError")).
Qed.

Lemma in_step_log (ms : list (Path * Path)) (E : Prop) (ld le : string) :
  ld = would le → in_step O src ms ms E (λ _, True) (_log ld) (_log le).
Proof.
  intros -> sd se (Hlog & Hrest).
  exists (Return tt), (mk_St (st_fs sd) (st_log sd ++ [would le])),
    (mk_St (st_fs se) (st_log se ++ [le])).
  split; [done|]. split; [done|]. split; [done|]. split; [|done].
  simpl. by rewrite fmap_app, Hlog.
Qed.

Lemma in_step_try_except {A} (ms ms' : list (Path * Path)) (E : Prop) (V : A → Prop)
    (md me : M A) (hd he : string → M A) :
  in_step O src ms ms' False V md me →
  in_step O src ms ms' E V (try_except_M md hd) (try_except_M me he).
Proof.
  intros Hm sd se (r & sd1 & se1 & Hd & He & Hpost)%Hm.
  unfold try_except_M. rewrite Hd, He. destruct r as [a|e]; [|by destruct Hpost].
  by exists (Return a), sd1, se1.
Qed.

Lemma in_step_for_each {A} (mv : A → list (Path * Path)) (l : list A)
    (ms : list (Path * Path)) (E : Prop) (bd be : A → M unit) :
  (∀ x ms0, in_step O src (mv x ++ ms0) ms0 E (λ _, True) (bd x) (be x)) →
  in_step O src ((l ≫= mv) ++ ms) ms E (λ _, True) (for_each l bd) (for_each l be).
Proof.
  intros Hbody. induction l as [|x l IH]; simpl.
  - by apply (in_step_stateless _ _ _ _ (Return tt)).
  - rewrite <- app_assoc. eapply in_step_bind; [apply Hbody|]. intros _ _. apply IH.
Qed.

(** Relocating the next planned file: both runs give it the same
    destination, and afterwards the files still to come get the same
    destinations as before. *)
Lemma in_step_move_or_copy (ms : list (Path * Path)) (path : Path) (dirname : string) :
  in_step O src ((path, src // dirname // name path) :: ms) ms False (λ _, True)
    (move_or_copy C (simulate O) path (src // dirname))
    (move_or_copy C (execute O) path (src // dirname)).
Proof.
  destruct Hnf as (Hmkdir & Hcopy & Hmove).
  intros sd se (Hlog & Hshape & Hnd & Hfrees & Hsame).
  set (t := src // dirname // name path) in *.
  rewrite fmap_cons in Hnd. cbn [snd] in Hnd.
  apply NoDup_cons in Hnd as [Hd Hnd]. apply Forall_cons in Hshape as [Ht Hshape].
  apply Forall_cons in Hsame as [Hsame_t Hsame]. cbn [snd] in Ht, Hsame_t.
  set (d := ensure_unique_path (st_fs sd) t) in *.
  set (fs1 := st_fs se ∪ list_to_set (dir_chain (src // dirname))).
  assert (∀ t' d', length t' = length src + 2 → variant_of t' d' → d' ∉ st_fs se →
                   d' ∉ fs1) as Hfs1.
  { intros t' d' Hlen Hvar Hd' [?|Hin%elem_of_list_to_set%dir_chain_length]%elem_of_union;
      [done|].
    rewrite (variant_of_length t' d' (length src + 1)) in Hin by (done || lia).
    rewrite length_joinpath in Hin. lia. }
  assert (d ∉ st_fs se) as Hde.
  { rewrite <- Hsame_t. apply ensure_unique_path_free. }
  assert (ensure_unique_path fs1 t = d) as Hd1.
  { rewrite <- Hsame_t. apply ensure_unique_path_stable.
    - rewrite Hsame_t. apply (Hfs1 t); [done | apply ensure_unique_path_variant | done].
    - intros q Hq Hout. destruct Hout. by apply elem_of_union_l. }
  set (fs2 := if copy_mode O then fs1 ∪ {[d]} else fs1 ∖ {[path]} ∪ {[d]}).
  exists (Return d), sd, (mk_St fs2 (st_log se)).
  split; [|split; [|split; [done|]]].
  - unfold move_or_copy. cbn [simulate dry_run negb]. rewrite run_bind. cbn [mret M_ret].
    cbv zeta. rewrite run_bind. unfold unique_target. by fold t.
  - unfold move_or_copy. cbn [execute dry_run copy_mode negb]. rewrite run_bind.
    unfold mkdir at 1. rewrite Hmkdir. cbv zeta. rewrite run_bind. unfold unique_target.
    cbn [st_fs st_log]. fold t. fold fs1. rewrite Hd1.
    rewrite run_bind. unfold fs2. destruct (copy_mode O).
    + unfold copy2. by rewrite Hcopy.
    + unfold move. by rewrite Hmove.
  - split; [done|]. split; [done|]. split; [done|]. split.
    { intros Hmode. by destruct (Hfrees Hmode). }
    apply Forall_forall. intros [f' t'] Hin. cbn [snd st_fs].
    pose proof (proj1 (Forall_forall _ _) Hsame _ Hin) as Hsame'.
    pose proof (proj1 (Forall_forall _ _) Hshape _ Hin) as Hlen'.
    cbn [snd] in Hsame', Hlen'. rewrite <- Hsame'.
    apply ensure_unique_path_stable.
    + assert (ensure_unique_path (st_fs se) t' ∉ fs1) as Hout1.
      { apply (Hfs1 t'); [done | apply ensure_unique_path_variant |
                          apply ensure_unique_path_free]. }
      assert (ensure_unique_path (st_fs se) t' ≠ d) as Hne.
      { rewrite Hsame'. intros Heq. apply Hd. rewrite <- Heq.
        apply list_elem_of_fmap. by exists (f', t'). }
      unfold fs2. destruct (copy_mode O);
        intros [Hin'|Hin'%elem_of_singleton]%elem_of_union; try done.
      by apply elem_of_difference in Hin' as [Hin' _].
    + intros q Hq Hout. unfold fs2 in Hout.
      destruct (copy_mode O) eqn:Hmode.
      { destruct Hout. by apply elem_of_union_l, elem_of_union_l. }
      destruct (decide (q = path)) as [->|Hne].
      * destruct (Hfrees eq_refl) as [Hhead _].
        by apply (proj1 (Forall_forall _ _) Hhead (f', t')).
      * destruct Hout. apply elem_of_union_l, elem_of_difference.
        split; [by apply elem_of_union_l|]. by intros ?%elem_of_singleton.
Qed.

(** Relocating [path] into [dirname] and logging it. *)
Lemma in_step_relocate (ms : list (Path * Path)) (path : Path) (dirname : string)
    (line : string → string → string) :
  (∀ fname, line (action (simulate O)) fname = would (line (action (execute O)) fname)) →
  in_step O src ((path, src // dirname // name path) :: ms) ms False (λ _, True)
    (final ← move_or_copy C (simulate O) path (src // dirname);
     _log (line (action (simulate O)) (name final)))
    (final ← move_or_copy C (execute O) path (src // dirname);
     _log (line (action (execute O)) (name final))).
Proof.
  intros Hline. eapply in_step_bind; [apply in_step_move_or_copy|].
  intros p _. by apply in_step_log.
Qed.

Lemma in_step_process_single (ms : list (Path * Path)) (path : Path) :
  in_step O src (single_moves C O src path ++ ms) ms True (λ _, True)
    (process_single C (simulate O) src path) (process_single C (execute O) src path).
Proof.
  unfold process_single, single_moves.
  eapply in_step_bind; [apply in_step_relative_to|]. intros rel Hrel.
  apply in_step_try_except.
  destruct (resolve_single_returns C path) as [[dt source] ->].
  eapply in_step_bind.
  { apply (in_step_stateless _ _ (λ a, a = (dt, source)) _ (Return (dt, source))); done. }
  intros ? ->. cbn [include_unknown simulate execute].
  destruct dt as [d|]; cbn [bool_decide andb dirname_of].
  - rewrite bool_decide_eq_false_2 by done. cbn [andb app].
    apply (in_step_relocate ms path (build_target_dirname d)
             (λ verb fname, verb +:+ ": " +:+ path_str rel +:+ "  ->  "
                            +:+ build_target_dirname d +:+ "/" +:+ fname
                            +:+ src_label source)).
    intros fname. symmetry. apply would_action.
  - rewrite bool_decide_eq_true_2 by done. cbn [andb].
    destruct (negb (include_unknown O)); cbn [app].
    + apply in_step_log. symmetry. apply would_skip.
    + apply (in_step_relocate ms path UNKNOWN_DIR_NAME
               (λ verb fname, verb +:+ ": " +:+ path_str rel +:+ "  ->  "
                              +:+ UNKNOWN_DIR_NAME +:+ "/" +:+ fname
                              +:+ src_label source)).
      intros fname. symmetry. apply would_action.
Qed.

Lemma in_step_process_pair (ms : list (Path * Path)) (item : Path * list Path) :
  in_step O src (pair_moves C O src item ++ ms) ms True (λ _, True)
    (process_pair C (simulate O) src item) (process_pair C (execute O) src item).
Proof.
  destruct item as [master videos]. unfold process_pair, pair_moves.
  destruct (resolve_master_returns C master) as [[dt source] ->].
  eapply in_step_bind.
  { apply (in_step_stateless _ _ (λ a, a = (dt, source)) _ (Return (dt, source))); done. }
  intros ? ->. cbn [include_unknown simulate execute].
  destruct (bool_decide (dt = None) && negb (include_unknown O)); cbn [app].
  - eapply in_step_bind; [apply in_step_relative_to|]. intros rel Hrel.
    apply in_step_log. symmetry. apply would_skip.
  - change (match dt with Some d => build_target_dirname d | None => UNKNOWN_DIR_NAME end)
      with (dirname_of dt). cbv zeta. rewrite fmap_cons. cbn [app].
    eapply in_step_bind.
    { eapply in_step_weaken; [apply in_step_move_or_copy | done..]. }
    intros p _.
    eapply in_step_bind; [apply in_step_relative_to|]. intros rel Hrel.
    eapply in_step_bind; [apply in_step_log; symmetry; apply would_action|].
    intros _ _.
    replace ((λ f, (f, src // dirname_of dt // name f)) <$> videos)
      with (videos ≫= λ v, [(v, src // dirname_of dt // name v)])
      by (clear; induction videos as [|v videos IH]; [done | by rewrite fmap_cons, <- IH]).
    apply in_step_for_each. intros v ms0. cbn [app].
    eapply in_step_bind.
    { eapply in_step_weaken; [apply in_step_move_or_copy | done..]. }
    intros p' _.
    eapply in_step_bind; [apply in_step_relative_to|]. intros rel' Hrel'.
    apply in_step_log. symmetry. apply would_action.
Qed.

Lemma in_step_worker (walk : list Path) :
  in_step O src (planned_moves C O src walk) [] True (λ _, True)
    (_worker C (simulate O) src walk) (_worker C (execute O) src walk).
Proof.
  unfold _worker, planned_moves.
  destruct (_collect_files walk) as [|f files] eqn:Hfiles.
  { apply in_step_log. reflexivity. }
  cbn [length Nat.eqb].
  destruct (_pair_live_photos (f :: files)) as [pairs singles]. cbn [fst snd].
  eapply in_step_bind.
  { apply in_step_for_each. intros item ms0. apply in_step_process_pair. }
  intros _ _.
  eapply in_step_bind.
  { rewrite <- (app_nil_r (singles ≫= _)).
    apply in_step_for_each. intros path ms0. apply in_step_process_single. }
  intros _ _. apply in_step_log. reflexivity.
Qed.
End InStepRules.

Global Instance same_fs_preorder : PreOrder same_fs.
Proof. split; [done|]. intros st1 st2 st3 H12 H23. unfold same_fs in *. congruence. Qed.

Lemma same_fs_log (msg : string) : returns same_fs (λ _, True) (_log msg).
Proof. by intros st r st' [= <- <-]. Qed.

(** A simulated relocation changes no path. *)
Lemma same_fs_move_or_copy (C : Collab) (O : Options) (src : Path) (dirname : string) :
  dry_run O = true → relocates_in C O src same_fs dirname.
Proof.
  intros Hdry path st r st'. unfold move_or_copy. rewrite Hdry. cbn [negb].
  rewrite run_bind. cbn [mret M_ret]. cbv zeta. rewrite run_bind. unfold unique_target.
  intros [= <- <-]. split; [done | apply ensure_unique_path_variant].
Qed.

Lemma same_fs_worker (C : Collab) (O : Options) (src : Path) (walk : list Path) :
  dry_run O = true → returns same_fs (λ _, True) (_worker C O src walk).
Proof.
  intros Hdry. apply (returns_worker C O src _ (λ _, True) (λ msg _, same_fs_log msg)); [done..| |].
  - intros [master videos] _.
    destruct (resolve_master_returns C master) as [[dt source] Hres].
    eapply (returns_process_pair C O src _ (λ _, True) (λ msg _, same_fs_log msg));
      [exact Hres | done.. |]. by apply same_fs_move_or_copy.
  - intros path _.
    destruct (resolve_single_returns C path) as [[dt source] Hres].
    eapply (returns_process_single C O src _ (λ _, True) (λ msg _, same_fs_log msg));
      [exact Hres | done.. |]. by apply same_fs_move_or_copy.
Qed.

Lemma planned_moves_length (C : Collab) (O : Options) (src : Path) (walk : list Path) :
  Forall (λ m, length m.2 = length src + 2) (planned_moves C O src walk).
Proof.
  unfold planned_moves. apply Forall_app. split; apply Forall_forall;
    intros m (x & Hm & _)%list_elem_of_bind; revert Hm.
  - destruct x as [master videos]. unfold pair_moves.
    destruct (resolve_master C master) as [[dt source]|]; [|by intros ?%elem_of_nil].
    destruct (_ && _); [by intros ?%elem_of_nil|].
    intros (f & -> & _)%list_elem_of_fmap. cbn [snd]. rewrite !length_joinpath. lia.
  - unfold single_moves.
    destruct (resolve_single C x) as [[dt source]|]; [|by intros ?%elem_of_nil].
    destruct (_ && _); [by intros ?%elem_of_nil|].
    intros ->%list_elem_of_singleton. cbn [snd]. rewrite !length_joinpath. lia.
Qed.



(** ** Further properties of the program *)

(** The loop over the singles ends every item with one line.  For a file
    under the root, the body of the loop returns, whatever the
    collaborators do, and it has logged exactly one line.  Resolving the
    date raises nothing.  A file without a date is skipped, when undated
    files are excluded, and nothing changes.  Otherwise the file is
    relocated: when the relocation returns, the line names its
    destination; when creating the folder, copying or moving raises, the
    exception is caught and the line is [Error with], the relative path
    and the exception; the file system is as the relocation left it. *)
Theorem process_single_returns (C : Collab) (O : Options) (src : Path)
    (path rel : Path) (st : St) :
  strip_prefix src path = Some rel →
  ∃ dt source st' line,
    resolve_single C path = Return (dt, source) ∧
    process_single C O src path st = (Return tt, st') ∧
    st_log st' = st_log st ++ [line] ∧
    if bool_decide (dt = None) && negb (include_unknown O)
    then line = "Skipping (no date found): " +:+ path_str rel ∧ st_fs st' = st_fs st
    else
      match move_or_copy C O path (src // dirname_of dt) st with
      | (Return final, st1) =>
          line = action O +:+ ": " +:+ path_str rel +:+ "  ->  " +:+ dirname_of dt +:+ "/"
                 +:+ name final +:+ src_label source ∧
          st_fs st' = st_fs st1
      | (Raise e, st1) =>
          line = "Error with " +:+ path_str rel +:+ ": " +:+ e ∧ st_fs st' = st_fs st1
      end.
Proof.
  intros Hrel. destruct (resolve_single_returns C path) as [[dt source] Hres].
  exists dt, source. unfold process_single. rewrite run_bind. unfold relative_to.
  rewrite Hrel. cbn [mret M_ret]. unfold try_except_M. rewrite run_bind. unfold lift.
  rewrite Hres.
  assert (∀ dirname, dirname = dirname_of dt →
            ∃ st' line,
              match
                (final_target ← move_or_copy C O path (src // dirname);
                 _log (action O +:+ ": " +:+ path_str rel +:+ "  ->  " +:+ dirname +:+ "/"
                       +:+ name final_target +:+ src_label source)) st
              with
              | (Return a, st') => (Return a, st')
              | (Raise e, st') => _log ("Error with " +:+ path_str rel +:+ ": " +:+ e) st'
              end = (Return tt, st') ∧
              st_log st' = st_log st ++ [line] ∧
              match move_or_copy C O path (src // dirname_of dt) st with
              | (Return final, st1) =>
                  line = action O +:+ ": " +:+ path_str rel +:+ "  ->  " +:+ dirname_of dt
                         +:+ "/" +:+ name final +:+ src_label source ∧
                  st_fs st' = st_fs st1
              | (Raise e, st1) =>
                  line = "Error with " +:+ path_str rel +:+ ": " +:+ e ∧
                  st_fs st' = st_fs st1
              end) as Hrelocate.
  { intros ? ->. rewrite run_bind.
    destruct (move_or_copy C O path (src // dirname_of dt) st) as [[final|e] st1] eqn:Hmoc;
      apply move_or_copy_cases in Hmoc as [Hlog _]; unfold _log;
      eexists _, _; (split; [reflexivity|]); cbn [st_log st_fs]; by rewrite Hlog. }
  destruct dt as [d|].
  - rewrite bool_decide_eq_false_2 by done. cbn [andb].
    destruct (Hrelocate (build_target_dirname d) eq_refl) as (st' & line & ? & ? & ?).
    by exists st', line.
  - rewrite bool_decide_eq_true_2 by done. cbn [andb].
    destruct (negb (include_unknown O)).
    + by eexists _, _.
    + destruct (Hrelocate UNKNOWN_DIR_NAME eq_refl) as (st' & line & ? & ? & ?).
      by exists st', line.
Qed.

Lemma process_single_returns_witness :
  let C := Ref.collab [] Ex.mtimes [Ex.a] in
  ∃ st', process_single C Ex.move_all Ex.src Ex.a (mk_St Ex.fs0 []) = (Return tt, st') ∧
         st_log st' = ["Error with a/x.jpg: PermissionError(13, 'Permission denied')"].
Proof.
  intros C.
  destruct (process_single_returns C Ex.move_all Ex.src Ex.a ["a"; "x.jpg"] (mk_St Ex.fs0 []))
    as (dt & source & st' & line & Hres & Hrun & Hlog & Hcase).
  - reflexivity.
  - exists st'. split; [exact Hrun|].
    vm_compute in Hres. injection Hres as <- <-.
    rewrite bool_decide_eq_false_2 in Hcase by done. cbn [andb] in Hcase.
    assert ((move_or_copy C Ex.move_all Ex.a (Ex.src // dirname_of (Some Ex.jan5))
               (mk_St Ex.fs0 [])).1 = Raise "PermissionError(13, 'Permission denied')")
      as Hr by (by vm_compute).
    destruct (move_or_copy C Ex.move_all Ex.a (Ex.src // dirname_of (Some Ex.jan5))
                (mk_St Ex.fs0 [])) as [[final|e] st1]; [discriminate Hr|].
    injection Hr as ->. destruct Hcase as [-> _]. rewrite Hlog. reflexivity.
Defined.

(** *** The groups are made of the input files *)

Lemma elem_of_sorted (l : list Path) (p : Path) : p ∈ sorted l ↔ p ∈ l.
Proof. unfold sorted. by rewrite merge_sort_Permutation. Qed.

Lemma sorted_nonempty (l : list Path) : l ≠ [] → hd [] (sorted l) ∈ l.
Proof.
  intros Hl. apply elem_of_sorted.
  destruct (sorted l) as [|p k] eqn:Hs; [|left].
  destruct l as [|q l]; [done|].
  assert (q ∈ sorted (q :: l)) as Hq by (apply elem_of_sorted; left).
  rewrite Hs in Hq. by apply elem_of_nil in Hq.
Qed.

(** Every entry of the dictionary after [setdefault_with] is an old entry,
    or the entry of [k] with its changed value. *)
Lemma setdefault_with_entries {K V : Type} `{EqDecision K} (Pkv : K → V → Prop)
    (k : K) (dflt : V) (f : V → V) (d : list (K * V)) :
  (∀ k' v, (k', v) ∈ d → Pkv k' v) →
  Pkv k (f dflt) →
  (∀ v, Pkv k v → Pkv k (f v)) →
  ∀ k' v, (k', v) ∈ setdefault_with k dflt f d → Pkv k' v.
Proof.
  intros Hd Hnew Hf. induction d as [|[k0 v0] d IH]; simpl.
  - intros k' v [= -> ->]%list_elem_of_singleton. done.
  - destruct (decide (k0 = k)) as [->|Hne].
    + intros k' v [[= -> ->]|Hin]%elem_of_cons.
      * apply Hf, Hd. left.
      * apply Hd. by right.
    + intros k' v [[= -> ->]|Hin]%elem_of_cons.
      * apply Hd. left.
      * apply IH; [|done]. intros ???. apply Hd. by right.
Qed.

Lemma elem_of_fromkeys (l : list Path) (p : Path) : p ∈ fromkeys l → p ∈ l.
Proof.
  induction l as [|x l IH]; simpl; [done|].
  intros [->|[_ Hin]%list_elem_of_filter]%elem_of_cons; [left | right; auto].
Qed.

Lemma NoDup_fromkeys (l : list Path) : NoDup (fromkeys l).
Proof.
  induction l as [|x l IH]; simpl; [apply NoDup_nil_2|].
  apply NoDup_cons. split; [|by apply NoDup_filter].
  by intros [Hne _]%list_elem_of_filter.
Qed.

Lemma elem_of_in_pairs_of (pairs : list (Path * list Path)) (p : Path) :
  p ∈ in_pairs_of pairs ↔ ∃ master vids, (master, vids) ∈ pairs ∧ (p = master ∨ p ∈ vids).
Proof.
  unfold in_pairs_of.
  assert (∀ acc : gset Path,
            p ∈ foldl (λ in_pairs '(master, vids),
                         in_pairs ∪ {[master]} ∪ list_to_set vids) acc pairs ↔
            p ∈ acc ∨ ∃ master vids, (master, vids) ∈ pairs ∧ (p = master ∨ p ∈ vids)) as Hgen.
  { induction pairs as [|[m vs] pairs IH]; intros acc; simpl.
    - split; [by left|]. intros [?|(? & ? & []%elem_of_nil & _)]. done.
    - rewrite IH, !elem_of_union, elem_of_singleton, elem_of_list_to_set. split.
      + intros [[[?| ->]|?]|(m' & vs' & Hin & Hp)].
        * by left.
        * right. exists m, vs. split; [left | by left].
        * right. exists m, vs. split; [left | by right].
        * right. exists m', vs'. split; [by right | done].
      + intros [?|(m' & vs' & [[= -> ->]|Hin]%elem_of_cons & Hp)].
        * by do 3 left.
        * left. destruct Hp as [->|?]; [left; by right | by right].
        * right. by exists m', vs'. }
  rewrite Hgen. split; [|by right]. by intros [[]%elem_of_empty|?].
Qed.

Section GroupsAreFiles.
Context (files : list Path).

Lemma by_dir_of_files (dir : Path) (stems : list (string * list Path))
    (key : string) (items : list Path) (p : Path) :
  (dir, stems) ∈ by_dir_of files → (key, items) ∈ stems → p ∈ items → p ∈ files.
Proof.
  unfold by_dir_of.
  set (ok := λ (_ : Path) (stems : list (string * list Path)),
               ∀ key items, (key, items) ∈ stems → ∀ p, p ∈ items → p ∈ files).
  assert (∀ l acc, (∀ p, p ∈ l → p ∈ files) →
            (∀ k v, (k, v) ∈ acc → ok k v) →
            ∀ k v, (k, v) ∈ foldl (λ by_dir p,
                      setdefault_with (parent p) []
                        (setdefault_with (stem p) [] (λ items, items ++ [p])) by_dir)
                      acc l → ok k v) as Hfold.
  { induction l as [|q l IH]; intros acc Hl Hacc; simpl; [done|].
    apply IH; [intros ??; apply Hl; by right|].
    assert (q ∈ files) as Hq by (apply Hl; left).
    apply setdefault_with_entries; [done | |].
    - intros s its Hin. eapply (setdefault_with_entries (λ _ its, ∀ p, p ∈ its → p ∈ files));
        [| | |exact Hin].
      + by intros ?? ?%elem_of_nil.
      + by intros p' ->%list_elem_of_singleton.
      + intros its' Hits p' [?|Hp'%list_elem_of_singleton]%elem_of_app; subst; auto.
    - intros v Hv s its Hin. eapply (setdefault_with_entries (λ _ its, ∀ p, p ∈ its → p ∈ files));
        [| | |exact Hin].
      + exact Hv.
      + by intros p' ->%list_elem_of_singleton.
      + intros its' Hits p' [?|Hp'%list_elem_of_singleton]%elem_of_app; subst; auto. }
  intros Hin Hs Hp. eapply (Hfold files []); [done | by intros ?? ?%elem_of_nil | exact Hin | exact Hs | exact Hp].
Qed.

Lemma pair_bucket_ok (acc : list (Path * list Path) * list Path) (items : list Path) :
  groups_ok files acc → (∀ p, p ∈ items → p ∈ files) →
  groups_ok files (pair_bucket acc items).
Proof.
  destruct acc as [pairs singles]. intros [Hpairs Hsingles] Hitems. unfold pair_bucket.
  set (images := filter (λ x, is_image_file x) items).
  set (videos := filter (λ x, is_video_file x) items).
  assert (∀ p, p ∈ images → p ∈ files ∧ is_image_file p = true) as Himages.
  { intros p [Hp ?]%list_elem_of_filter. split; [auto | by apply Is_true_true]. }
  assert (∀ p, p ∈ videos → p ∈ files ∧ is_video_file p = true) as Hvideos.
  { intros p [Hp ?]%list_elem_of_filter. split; [auto | by apply Is_true_true]. }
  destruct images as [|i images'] eqn:Hi.
  { split; [done|]. intros s [?|?]%elem_of_app; auto. }
  destruct videos as [|v videos'] eqn:Hv.
  { split; [done|]. intros s [?|?]%elem_of_app; auto. }
  split; cbn [fst snd].
  - apply (setdefault_with_entries (λ m vs, pair_ok files m vs ∧ vs ≠ [])); [done | |].
    + destruct (Himages (hd [] (sorted (i :: images')))) as [? ?];
        [by apply sorted_nonempty|].
      split.
      * split; [done|]. split; [done|].
        intros w Hw. rewrite app_nil_l in Hw. apply (proj1 (elem_of_sorted _ _)) in Hw.
        by apply Hvideos.
      * rewrite app_nil_l. intros Hs.
        assert (v ∈ sorted (v :: videos')) as Hin by (apply elem_of_sorted; left).
        rewrite Hs in Hin. by apply elem_of_nil in Hin.
    + intros vs [(? & ? & Hvs) Hne]. split.
      * split; [done|]. split; [done|].
        intros w [?|Hw]%elem_of_app; [by apply Hvs|].
        apply (proj1 (elem_of_sorted _ _)) in Hw. by apply Hvideos.
      * by destruct vs.
  - intros s [?|Hs]%elem_of_app; [auto|]. apply Himages. by right.
Qed.

Lemma buckets_ok (by_dir : list (Path * list (string * list Path)))
    (acc : list (Path * list Path) * list Path) :
  groups_ok files acc →
  (∀ dir stems key items p,
     (dir, stems) ∈ by_dir → (key, items) ∈ stems → p ∈ items → p ∈ files) →
  groups_ok files
    (foldl (λ acc '(_, stems), foldl (λ acc '(_, items), pair_bucket acc items) acc stems)
           acc by_dir).
Proof.
  revert acc. induction by_dir as [|[dir stems] by_dir IH]; intros acc Hacc Hby; [done|].
  simpl. apply IH; [|intros dir' stems' key items p Hin; apply (Hby dir' stems'); by right].
  assert (∀ key items p, (key, items) ∈ stems → p ∈ items → p ∈ files) as Hstems.
  { intros key items p. apply (Hby dir stems). left. }
  clear Hby IH. revert acc Hacc. induction stems as [|[key items] stems IH]; intros acc Hacc; [done|].
  simpl. apply IH.
  - intros key' items' p Hin. apply (Hstems key' items'). by right.
  - apply pair_bucket_ok; [done|]. intros p. apply (Hstems key items). left.
Qed.
End GroupsAreFiles.

(** The groups are made of the input files, and they overlap nowhere:
    the master of a pair is an image of the input, its companions are
    videos of the input and there is at least one; the singles are files of
    the input, pairwise distinct, and none of them is the master or a
    companion of a pair. *)
Theorem pair_live_photos_groups (files : list Path) :
  let groups := _pair_live_photos files in
  (∀ master videos, (master, videos) ∈ groups.1 →
     master ∈ files ∧ is_image_file master = true ∧ videos ≠ [] ∧
     ∀ v, v ∈ videos → v ∈ files ∧ is_video_file v = true) ∧
  NoDup groups.2 ∧
  (∀ s, s ∈ groups.2 →
     s ∈ files ∧
     ∀ master videos, (master, videos) ∈ groups.1 → s ≠ master ∧ (s ∉ videos)).
Proof.
  unfold _pair_live_photos.
  pose proof (buckets_ok files (by_dir_of files) ([], [])) as Hok.
  destruct (foldl _ _ (by_dir_of files)) as [pairs singles]. cbn [fst snd].
  destruct Hok as [Hpairs Hsingles].
  { split; [by intros ?? ?%elem_of_nil | by intros ? ?%elem_of_nil]. }
  { intros ?????. apply by_dir_of_files. }
  cbn [fst snd] in *. split; [|split].
  - intros master videos [[? [? ?]] ?]%Hpairs. done.
  - apply NoDup_filter, NoDup_fromkeys.
  - intros s [Hout Hs%elem_of_fromkeys]%list_elem_of_filter. split; [auto|].
    intros master videos Hin. split.
    + intros ->. apply Hout, elem_of_in_pairs_of. exists master, videos. auto.
    + intros Hv. apply Hout, elem_of_in_pairs_of. exists master, videos. auto.
Qed.

(** The example of the specification: one pair and one single. *)
Example pair_live_photos_example :
  _pair_live_photos [["p"; "IMG_01.jpg"]; ["p"; "IMG_01.mov"]; ["p"; "IMG_02.jpg"]] =
  ([(["p"; "IMG_01.jpg"], [["p"; "IMG_01.mov"]])], [["p"; "IMG_02.jpg"]]).
Proof. by vm_compute. Qed.

(** *** Folder names of four-digit years *)

Lemma all_below_spec (P : N → bool) (n : N) :
  all_below P n = true → ∀ k, (k < n)%N → P k = true.
Proof.
  unfold all_below. induction n as [|n IH] using N.peano_ind; [lia|].
  rewrite N.peano_rect_succ. intros [Hn Hrest]%andb_prop k Hk.
  destruct (decide (k = n)) as [->|]; [done|]. apply IH; [done | lia].
Qed.

(** The decimal form of a number from [lo] to below [hi] has [width]
    digits, by enumeration. *)
Lemma pretty_length_in_range (lo hi : N) (width : nat) (n : N) :
  all_below (λ k, (k <? lo)%N || (String.length (pretty k) =? width)) hi = true →
  (lo ≤ n < hi)%N →
  String.length (pretty n) = width.
Proof.
  intros Hall [Hlo Hhi]. apply (all_below_spec _ _ Hall) in Hhi.
  apply orb_prop in Hhi as [Hlt%N.ltb_lt|Heq%Nat.eqb_eq]; [lia | done].
Qed.

(** For a year of four digits and a month from 1 to 12 the folder name is
    the year, a hyphen and the month padded to two digits: seven
    characters. *)
Theorem build_target_dirname_four_digit_year (dt : datetime) :
  (1000 ≤ year dt ≤ 9999)%N → (1 ≤ month dt ≤ 12)%N →
  build_target_dirname dt =
    pretty (year dt) +:+ "-" +:+
    (if (month dt <? 10)%N then "0" +:+ pretty (month dt) else pretty (month dt)) ∧
  String.length (pretty (year dt)) = 4 ∧
  String.length (build_target_dirname dt) = 7.
Proof.
  intros Hy Hm.
  assert (build_target_dirname dt =
          pretty (year dt) +:+ "-" +:+
          (if (month dt <? 10)%N then "0" +:+ pretty (month dt) else pretty (month dt))) as Heq.
  { unfold build_target_dirname, Str.format_02d.
    destruct (N.ltb_spec (year dt) 10); [lia | done]. }
  assert (String.length (pretty (year dt)) = 4) as Hylen.
  { apply (pretty_length_in_range 1000 10000); [by vm_compute | lia]. }
  split; [done|]. split; [done|].
  rewrite Heq, !str_app_length, Hylen.
  destruct (N.ltb_spec (month dt) 10).
  - rewrite str_app_length, (pretty_length_in_range 1 10 1); [done | by vm_compute | lia].
  - rewrite (pretty_length_in_range 10 13 2); [done | by vm_compute | lia].
Qed.

Lemma build_target_dirname_four_digit_year_witness :
  build_target_dirname Ex.jan5 = "2020-01" ∧
  String.length (build_target_dirname Ex.jan5) = 7.
Proof.
  destruct (build_target_dirname_four_digit_year Ex.jan5) as (Heq & _ & Hlen).
  - vm_compute. split; discriminate.
  - vm_compute. split; discriminate.
  - split; [|exact Hlen]. rewrite Heq. reflexivity.
Defined.

(** *** Files without a date *)

(** A single without a date is skipped when undated files are excluded:
    one line is logged and no path changes.  When they are included, every
    path its processing adds is in the folder [unknown-date] (or is that
    folder or a directory above it). *)
Theorem process_single_undated (C : Collab) (O : Options) (src : Path)
    (path rel : Path) (source : Source) (st : St) :
  strip_prefix src path = Some rel →
  resolve_single C path = Return (None, source) →
  let out := process_single C O src path st in
  (include_unknown O = false →
   out = (Return tt,
          mk_St (st_fs st) (st_log st ++ ["Skipping (no date found): " +:+ path_str rel]))) ∧
  (∀ p, p ∈ st_fs out.2 → p ∈ st_fs st ∨ in_folder src UNKNOWN_DIR_NAME p).
Proof.
  intros Hrel Hres out. split.
  - intros Hinc. subst out. unfold process_single. rewrite run_bind. unfold relative_to.
    rewrite Hrel. cbn [mret M_ret]. unfold try_except_M. rewrite run_bind. unfold lift.
    by rewrite Hres, Hinc.
  - destruct out as [r st'] eqn:Hout. subst out.
    eapply (returns_process_single C O src _ _
              (grows_log (λ _, True) (in_folder src UNKNOWN_DIR_NAME)))
      in Hout as [[_ Hfs] _]; [exact Hfs | exact Hres | done.. |].
    by apply grows_relocates_in.
Qed.

Lemma process_single_undated_witness :
  let C := Ref.collab [] [] [] in
  let O := {| dry_run := false; copy_mode := false; include_unknown := false |} in
  process_single C O Ex.src Ex.a (mk_St Ex.fs0 []) =
  (Return tt, mk_St Ex.fs0 ["Skipping (no date found): a/x.jpg"]).
Proof.
  intros C O.
  destruct (process_single_undated C O Ex.src Ex.a ["a"; "x.jpg"] None (mk_St Ex.fs0 [])
              eq_refl eq_refl) as [Hskip _].
  exact (Hskip eq_refl).
Defined.

(** *** Collecting the files *)

Lemma media_not_ignored (p : Path) :
  is_media_file p = true → Str.lower (suffix p) ∉ IGNORE_EXTS.
Proof.
  unfold is_media_file. generalize (Str.lower (suffix p)) as ext. intros ext Hmedia.
  apply orb_prop in Hmedia as [Hin%bool_decide_eq_true|Hin%bool_decide_eq_true];
    unfold IMAGE_EXTS, VIDEO_EXTS in Hin;
    each_elem Hin ltac:(by intros ?%list_elem_of_singleton).
Qed.

(** [_collect_files] keeps the files of the walk with an image or video
    extension, in the order of the walk; the test against the ignored
    extensions removes nothing, since [.aae] is no media extension.  Every
    collected file is an image or a video and not both. *)
Theorem collect_files_media (walk : list Path) :
  _collect_files walk = filter (λ p, is_media_file p) walk ∧
  ∀ p, p ∈ _collect_files walk ↔
       p ∈ walk ∧ (is_image_file p = true ∧ is_video_file p = false ∨
                   is_image_file p = false ∧ is_video_file p = true).
Proof.
  assert (_collect_files walk = filter (λ p, is_media_file p) walk) as Heq.
  { unfold _collect_files. apply list_filter_iff. intros p. split; [by intros [? _]|].
    intros Hm. split; [done|]. by apply media_not_ignored, Is_true_true. }
  split; [done|]. intros p. rewrite Heq, list_elem_of_filter.
  unfold is_media_file. fold (is_image_file p) (is_video_file p).
  pose proof (video_not_image p) as Hexcl.
  destruct (is_image_file p), (is_video_file p); simpl;
    try (specialize (Hexcl eq_refl); discriminate); intuition congruence.
Qed.

(** *** The metadata mapping *)

(** The value [_exif_dict_from_image] holds under a key is the value of the
    last item filed under that key; a key no item is filed under is
    absent. *)
Theorem exif_dict_lookup (C : Collab) (items : list (N * string)) (key : string) :
  _exif_dict_from_image C items !! key =
  snd <$> last (filter (λ item, tag_name C item.1 = key) items).
Proof.
  unfold _exif_dict_from_image. induction items as [|[tag_id value] items IH] using rev_ind.
  - simpl. by rewrite lookup_empty.
  - rewrite foldl_snoc, filter_app. fold (tag_name C tag_id).
    destruct (decide (tag_name C tag_id = key)) as [Hkey|Hkey].
    + rewrite filter_cons_True by done. rewrite filter_nil, last_snoc.
      by rewrite Hkey, lookup_insert_eq.
    + rewrite filter_cons_False by done. rewrite filter_nil, app_nil_r.
      by rewrite lookup_insert_ne.
Qed.

(** *** What the source of a date tells *)

Lemma scan_candidates_Some (C : Collab) (exif : gmap string string)
    (keys : list string) (dt : datetime) :
  scan_candidates C exif keys = Some dt →
  ∃ pre key post value,
    keys = pre ++ key :: post ∧ exif !! key = Some value ∧
    parse_exif_datetime C value = Some dt ∧
    ∀ k v, k ∈ pre → exif !! k = Some v → parse_exif_datetime C v = None.
Proof.
  induction keys as [|k keys IH]; simpl; [done|].
  destruct (exif !! k) as [v|] eqn:Hk.
  - destruct (parse_exif_datetime C v) as [d|] eqn:Hv.
    + intros [= ->]. exists [], k, keys, v. split; [done|]. split; [done|]. split; [done|].
      by intros ?? ?%elem_of_nil.
    + intros (pre & key & post & value & -> & Hkey & Hval & Hpre)%IH.
      exists (k :: pre), key, post, value. split; [done|]. split; [done|]. split; [done|].
      intros k' v' [->|?]%elem_of_cons; [congruence | eauto].
  - intros (pre & key & post & value & -> & Hkey & Hval & Hpre)%IH.
    exists (k :: pre), key, post, value. split; [done|]. split; [done|]. split; [done|].
    intros k' v' [->|?]%elem_of_cons; [congruence | eauto].
Qed.

Lemma scan_candidates_None_inv (C : Collab) (exif : gmap string string) (keys : list string) :
  scan_candidates C exif keys = None →
  ∀ key value, key ∈ keys → exif !! key = Some value → parse_exif_datetime C value = None.
Proof.
  induction keys as [|k keys IH]; simpl; [by intros _ ?? ?%elem_of_nil|].
  destruct (exif !! k) as [v|] eqn:Hk.
  - destruct (parse_exif_datetime C v) as [d|] eqn:Hv; [done|].
    intros Hrest key value [->|?]%elem_of_cons; [congruence | eauto].
  - intros Hrest key value [->|?]%elem_of_cons; [congruence | eauto].
Qed.

(** What [get_image_datetime] returns tells where the date is from.  A date
    with the source ["exif"] is what the first accepted format yields for
    the first candidate tag of the file's metadata that parses.  A date with
    the source ["mtime"] is the modification time, and the metadata gave no
    date.  No date means that the metadata gave none and the modification
    time could not be read. *)
Theorem get_image_datetime_source (C : Collab) (path : Path)
    (dt : option datetime) (source : Source) :
  get_image_datetime C path = Return (dt, source) →
  (∃ d items key value,
     dt = Some d ∧ source = Some "exif" ∧ open_getexif C path = Return items ∧
     first_parsing_tag C (_exif_dict_from_image C items) key value ∧ parsed_as C value d) ∨
  (∃ d, dt = Some d ∧ source = Some "mtime" ∧
        no_metadata_date C path ∧ stat_mtime C path = Return d) ∨
  (dt = None ∧ source = None ∧
   no_metadata_date C path ∧ ∃ e, stat_mtime C path = Raise e).
Proof.
  rewrite get_image_datetime_unfold. unfold mtime_fallback, no_metadata_date.
  destruct (open_getexif C path) as [items|e].
  - destruct (scan_candidates _ _ _) as [d|] eqn:Hscan.
    + intros [= <- <-]. left.
      apply scan_candidates_Some in Hscan as (pre & key & post & value & Hkeys & Hkey & Hval & Hpre).
      apply parse_exif_datetime_parsed in Hval.
      exists d, items, key, value. do 3 (split; [done|]). split; [|done].
      exists pre, post. split; [done|]. split; [done|]. split.
      * destruct Hval as (? & pre' & fmt & post' & Hfmts & Hfmt & _). split; [done|].
        exists fmt, d. split; [|done]. rewrite Hfmts. apply elem_of_app. right. left.
      * intros k v Hk Hv. apply parse_exif_datetime_None. eauto.
    + pose proof (scan_candidates_None_inv _ _ _ Hscan) as Hnone.
      assert (∀ key value, key ∈ _EXIF_DATETIME_CANDIDATES →
                _exif_dict_from_image C items !! key = Some value → ¬ parses C value) as Hno.
      { intros key value Hkey Hval. apply parse_exif_datetime_None. eauto. }
      destruct (stat_mtime C path) as [d|e]; intros [= <- <-]; right; [left|right]; eauto 8.
  - destruct (stat_mtime C path) as [d|e']; intros [= <- <-]; right; [left|right]; eauto 8.
Qed.

Lemma get_image_datetime_source_witness :
  let path := ["photos"; "IMG_01.jpg"] in
  let C := Ref.collab [(path, [(306%N, "2021-03-04 05:06")])] [] [] in
  ∃ value, parsed_as C value (mk_datetime 2021 3 4 5 6 0).
Proof.
  intros path C.
  destruct (get_image_datetime_source C path (Some (mk_datetime 2021 3 4 5 6 0)) (Some "exif"))
    as [(d & items & key & value & [= <-] & _ & _ & _ & Hval)|[(d & _ & [=] & _)|(_ & [=] & _)]].
  - reflexivity.
  - by exists value.
Defined.

(** *** More about [ensure_unique_path] *)

(** Asking again for the same name, once the first answer is occupied,
    gives another free path, with a suffix; when the first answer had a
    suffix, the second one has a larger one. *)
Theorem ensure_unique_path_again (fs : FS) (target : Path) :
  let first := ensure_unique_path fs target in
  let second := ensure_unique_path (fs ∪ {[first]}) target in
  first ≠ second ∧ (second ∉ fs) ∧
  ∃ j, 1 ≤ j ∧ second = candidate target j ∧
       (target ∈ fs → ∃ i, (1 ≤ i < j) ∧ first = candidate target i).
Proof.
  intros first second.
  pose proof (ensure_unique_path_free (fs ∪ {[first]}) target) as Hfree. fold second in Hfree.
  apply not_elem_of_union in Hfree as [Hfs Hne%not_elem_of_singleton].
  split; [done|]. split; [done|].
  assert (target ∈ fs ∪ {[first]}) as Hin'.
  { destruct (decide (target ∈ fs)) as [?|Hout]; [by apply elem_of_union_l|].
    apply elem_of_union_r, elem_of_singleton. subst first.
    by rewrite ensure_unique_path_unoccupied. }
  destruct (ensure_unique_path_least _ _ Hin') as (j & Hj & Hsecond & Hjfree & Hjocc).
  fold second in Hsecond. exists j. split; [done|]. split; [done|].
  intros Hin. destruct (ensure_unique_path_least _ _ Hin) as (i & Hi & Hfirst & Hifree & Hiocc).
  fold first in Hfirst. exists i. split; [|done]. split; [done|].
  destruct (decide (i < j)) as [?|Hge]; [done|]. exfalso.
  destruct (decide (j = i)) as [->|Hji].
  - apply Hjfree, elem_of_union_r, elem_of_singleton. done.
  - apply Hjfree, elem_of_union_l, Hiocc. lia.
Qed.

Lemma str_take_app (s t : string) : Str.take (Str.len s) (s +:+ t) = s.
Proof.
  induction s as [|a s IH]; [by destruct t|].
  change (String a (Str.take (Str.len s) (s +:+ t)) = String a s). by rewrite IH.
Qed.

Lemma rfind_app (c : ascii) (s t : string) :
  Str.rfind c (s +:+ t) =
  match Str.rfind c t with
  | Some j => Some (Str.len s + j)
  | None => Str.rfind c s
  end.
Proof.
  induction s as [|a s IH].
  { change ("" +:+ t) with t. by destruct (Str.rfind c t). }
  change (Str.rfind c (String a s +:+ t))
    with (match Str.rfind c (s +:+ t) with
          | Some i => Some (S i)
          | None => if Ascii.eqb a c then Some 0 else None
          end).
  rewrite IH. by destruct (Str.rfind c t).
Qed.

(** The last occurrence of [c] splits the string. *)
Lemma rfind_split (c : ascii) (s : string) (i : nat) :
  Str.rfind c s = Some i →
  ∃ rest, s = Str.take i s +:+ String c rest ∧ Str.drop i s = String c rest ∧
          Str.rfind c rest = None ∧ Str.len (Str.take i s) = i.
Proof.
  revert i. induction s as [|a s IH]; intros i; simpl; [done|].
  destruct (Str.rfind c s) as [j|] eqn:Hj.
  - intros [= <-]. destruct (IH j eq_refl) as (rest & Hs & Hdrop & Hrest & Hlen).
    exists rest. split; [|split; [done|split; [done|]]].
    + change (String a s = String a (Str.take j s +:+ String c rest)). by rewrite <- Hs.
    + unfold Str.len in *. simpl. by rewrite Hlen.
  - destruct (Ascii.eqb_spec a c) as [->|]; [|done].
    intros [= <-]. by exists s.
Qed.

(** A candidate of a name with an extension keeps the directory and the
    extension, and its stem is the stem with the suffix. *)
Lemma candidate_parts (target : Path) (k : nat) :
  suffix target ≠ "" →
  parent (candidate target k) = parent target ∧
  suffix (candidate target k) = suffix target ∧
  stem (candidate target k) = stem target +:+ "_" +:+ pretty k.
Proof.
  intros Hsuffix. unfold candidate. rewrite parent_joinpath. split; [done|].
  unfold suffix, stem in *. rewrite name_joinpath.
  destruct (Str.rfind "." (name target)) as [i|] eqn:Hi; [|done].
  destruct ((0 <? i) && (i <? Str.len (name target) - 1)) eqn:Hcond; [|done].
  apply andb_prop in Hcond as [Hpos%Nat.ltb_lt Hlast%Nat.ltb_lt].
  destruct (rfind_split _ _ _ Hi) as (rest & Hname & Hdrop & Hrest & Hlen).
  rewrite Hdrop.
  assert (Str.len (name target) = i + S (Str.len rest)) as Hlen_name.
  { rewrite Hname at 1. unfold Str.len in *. rewrite str_app_length. simpl. lia. }
  set (stem' := Str.take i (name target) +:+ "_" +:+ pretty k).
  assert (Str.take i (name target) +:+ "_" +:+ pretty k +:+ String "." rest
          = stem' +:+ String "." rest) as ->.
  { unfold stem'. by rewrite !str_app_assoc. }
  assert (0 < Str.len stem') as Hstem'.
  { unfold stem', Str.len in *. rewrite !str_app_length. simpl. lia. }
  rewrite rfind_app. cbn [Str.rfind]. rewrite Hrest. cbn [Ascii.eqb Bool.eqb].
  rewrite Nat.add_0_r.
  assert ((0 <? Str.len stem') && (Str.len stem' <? Str.len (stem' +:+ String "." rest) - 1)
          = true) as ->.
  { apply andb_true_intro. split; apply Nat.ltb_lt; [done|].
    unfold Str.len in *. rewrite str_app_length. simpl. lia. }
  by rewrite str_drop_app, str_take_app.
Qed.

(** The path [ensure_unique_path] returns is in the directory of the
    target; when the target has an extension, it has the same extension
    and so is a file of the same kind. *)
Theorem ensure_unique_path_keeps_kind (fs : FS) (target : Path) :
  let final := ensure_unique_path fs target in
  parent final = parent target ∧
  (suffix target ≠ "" →
   suffix final = suffix target ∧
   is_image_file final = is_image_file target ∧
   is_video_file final = is_video_file target ∧
   is_media_file final = is_media_file target).
Proof.
  intros final. destruct (decide (target ∈ fs)) as [Hin|Hout].
  - destruct (ensure_unique_path_least fs target Hin) as (i & _ & Hfinal & _).
    fold final in Hfinal. rewrite Hfinal. split.
    + unfold candidate. by rewrite parent_joinpath.
    + intros Hsuffix. destruct (candidate_parts target i Hsuffix) as (_ & Hs & _).
      unfold is_image_file, is_video_file, is_media_file. by rewrite Hs.
  - subst final. by rewrite ensure_unique_path_unoccupied.
Qed.

Lemma ensure_unique_path_keeps_kind_witness :
  let fs : FS := {[ ["d"; "IMG.JPG"]; ["d"; "IMG_1.JPG"] ]} in
  suffix (ensure_unique_path fs ["d"; "IMG.JPG"]) = ".JPG" ∧
  is_image_file (ensure_unique_path fs ["d"; "IMG.JPG"]) = true.
Proof.
  intros fs.
  destruct (ensure_unique_path_keeps_kind fs ["d"; "IMG.JPG"]) as [_ Hkind].
  destruct Hkind as (Hs & Hi & _); [discriminate|]. split; [exact Hs | exact Hi].
Defined.

(** A name that ends with a dot has no extension, and its candidates get
    one. *)
Example candidate_of_trailing_dot :
  suffix ["d"; "x."] = "" ∧ suffix (candidate ["d"; "x."] 1) = "._1".
Proof. by vm_compute. Qed.

(** *** One relocation *)

(** What a call of [move_or_copy] does.  It logs nothing.  When it returns,
    the path it returns is in the target folder, under the name of the
    file or under that name with a numeric suffix, and was not occupied,
    not even by the folder or a directory above it; a simulated call
    changes nothing; an executed call has made the folder and the
    directories above it and has put the file at the returned path, and
    only a move has removed a path, the source.  A simulated call never
    raises. *)
Theorem move_or_copy_effect (C : Collab) (O : Options) (path target_dir : Path)
    (st st' : St) (r : result Path) :
  move_or_copy C O path target_dir st = (r, st') →
  let made := st_fs st ∪ list_to_set (dir_chain target_dir) in
  st_log st' = st_log st ∧
  match r with
  | Return final =>
      parent final = target_dir ∧ variant_of (target_dir // name path) final ∧
      (final ∉ st_fs st) ∧
      if dry_run O then st_fs st' = st_fs st
      else (final ∉ made) ∧
           st_fs st' = if copy_mode O then made ∪ {[final]}
                       else made ∖ {[path]} ∪ {[final]}
  | Raise _ => dry_run O = false
  end.
Proof.
  intros Hrun made. pose proof (move_or_copy_cases _ _ _ _ _ _ _ Hrun) as [Hlog Hcase].
  cbv zeta in Hcase. fold made in Hcase. split; [done|].
  destruct r as [final|e]; [|by destruct Hcase].
  pose proof (move_or_copy_variant _ _ _ _ _ _ _ Hrun) as Hvar.
  destruct (variant_of_sibling _ _ _ Hvar) as [n Hn].
  split; [by rewrite Hn, parent_joinpath|]. split; [done|].
  destruct (dry_run O); destruct Hcase as [Hfinal Hfs].
  - split; [|done]. rewrite Hfinal. apply ensure_unique_path_free.
  - assert (final ∉ made) as Hfree by (rewrite Hfinal; apply ensure_unique_path_free).
    split; [|done]. intros ?. apply Hfree. by apply elem_of_union_l.
Qed.

Lemma move_or_copy_effect_witness :
  let C := Ref.collab [] Ex.mtimes [] in
  let st := mk_St Ex.fs0 [] in
  let out := move_or_copy C Ex.move_all Ex.a ["photos"; "2020-01"] st in
  out.1 = Return ["photos"; "2020-01"; "x.jpg"] ∧ st_log out.2 = [] ∧
  (["photos"; "2020-01"; "x.jpg"] ∉ Ex.fs0).
Proof.
  intros C st out.
  assert (out.1 = Return ["photos"; "2020-01"; "x.jpg"]) as Hr by (by vm_compute).
  pose proof (move_or_copy_effect C Ex.move_all Ex.a ["photos"; "2020-01"] st out.2 out.1) as H.
  rewrite Hr in H. destruct H as (Hlog & _ & _ & Hfree & _).
  { rewrite <- Hr. apply surjective_pairing. }
  split; [done|]. split; [exact Hlog | exact Hfree].
Defined.

(** *** The lines of a run, counted *)

Global Instance same_log_preorder : PreOrder same_log.
Proof. split; [done|]. intros st1 st2 st3 H12 H23. unfold same_log in *. congruence. Qed.

Lemma move_or_copy_same_log (C : Collab) (O : Options) (path target_dir : Path) :
  returns same_log (λ _, True) (move_or_copy C O path target_dir).
Proof.
  assert (∀ m : M unit, (∀ st r st', m st = (r, st') → st_log st' = st_log st) →
            returns same_log (λ _, True) m) as Hunit.
  { intros m Hm st r st' Heq. split; [by eapply Hm | by destruct r]. }
  unfold move_or_copy.
  eapply returns_bind with (V := λ _, True); [apply _ | |].
  { destruct (negb (dry_run O)); [|by apply returns_ret; [apply _|]].
    apply Hunit. intros st r st'. unfold mkdir. by destruct (mkdir_error _ _ _); intros [= <- <-]. }
  intros _ _. cbv zeta.
  eapply returns_bind with (V := λ _, True); [apply _ | |].
  { by intros st r st' [= <- <-]. }
  intros p _. destruct (dry_run O); [by apply returns_ret; [apply _|]|].
  eapply returns_bind with (V := λ _, True); [apply _ | | intros; by apply returns_ret; [apply _|]].
  apply Hunit. intros st r st'.
  destruct (copy_mode O); unfold copy2, move;
    [by destruct (copy_error _ _ _ _); intros [= <- <-]
    |by destruct (move_error _ _ _ _); intros [= <- <-]].
Qed.

Lemma sum_list_ones {A} (l : list A) : sum_list ((λ _, 1) <$> l) = length l.
Proof. induction l as [|x l IH]; [done|]. rewrite fmap_cons. simpl. by rewrite IH. Qed.

Section Counts.
Context (C : Collab) (O : Options) (src : Path).

Lemma counts_bind {A B} (n1 n2 : nat) (m : M A) (k : A → M B) :
  counts n1 m → (∀ a, counts n2 (k a)) → counts (n1 + n2) (m ≫= k).
Proof.
  intros Hm Hk st st' b [(a & st1 & Hm1 & Hk1)|(e & _ & [=])]%bind_inv.
  apply Hm in Hm1 as (new1 & Hlog1 & Hlen1). apply Hk in Hk1 as (new2 & Hlog2 & Hlen2).
  exists (new1 ++ new2). rewrite Hlog2, Hlog1, app_assoc, length_app. split; [done | lia].
Qed.

Lemma counts_silent {A} (m : M A) : returns same_log (λ _, True) m → counts 0 m.
Proof. intros Hm st st' a [Hlog _]%Hm. exists []. by rewrite app_nil_r. Qed.

Lemma counts_log (msg : string) : counts 1 (_log msg).
Proof. intros st st' a [= _ <-]. by exists [msg]. Qed.

Lemma counts_for_each {A} (f : A → nat) (l : list A) (body : A → M unit) :
  (∀ x, counts (f x) (body x)) → counts (sum_list (f <$> l)) (for_each l body).
Proof.
  intros Hbody. induction l as [|x l IH]; simpl.
  - apply counts_silent. by apply returns_ret; [apply _|].
  - apply counts_bind; [apply Hbody | intros _; apply IH].
Qed.

Lemma counts_relative_to (p : Path) : counts 0 (relative_to src p).
Proof.
  apply counts_silent.
  by apply (returns_weaken same_log _ (λ _, True) _ (returns_relative_to same_log src p)).
Qed.

(** A relocation that is logged: one line. *)
Lemma counts_relocate (path target_dir : Path) (msg : Path → Path → string) :
  counts 1 (final ← move_or_copy C O path target_dir;
            rel ← relative_to src path;
            _log (msg final rel)).
Proof.
  apply (counts_bind 0 1); [apply counts_silent, move_or_copy_same_log|]. intros final.
  apply (counts_bind 0 1); [apply counts_relative_to|]. intros rel. apply counts_log.
Qed.

Lemma counts_process_pair (item : Path * list Path) :
  counts (pair_line_count C O item) (process_pair C O src item).
Proof.
  destruct item as [master videos]. unfold process_pair, pair_line_count. cbn [fst snd].
  destruct (resolve_master_returns C master) as [[dt source] ->].
  intros st st' a. rewrite run_bind. unfold lift.
  assert (counts (S (length videos))
            (final_master ← move_or_copy C O master
               (src // match dt with Some d => build_target_dirname d | None => UNKNOWN_DIR_NAME end);
             rel ← relative_to src master;
             _log (action O +:+ ": " +:+ path_str rel +:+ "  ->  "
                   +:+ match dt with Some d => build_target_dirname d | None => UNKNOWN_DIR_NAME end
                   +:+ "/" +:+ name final_master +:+ src_label source) ≫= λ _,
             for_each videos (λ v,
               final_v ← move_or_copy C O v
                 (src // match dt with Some d => build_target_dirname d | None => UNKNOWN_DIR_NAME end);
               rel ← relative_to src v;
               _log (action O +:+ ": " +:+ path_str rel +:+ "  ->  "
                     +:+ match dt with Some d => build_target_dirname d | None => UNKNOWN_DIR_NAME end
                     +:+ "/" +:+ name final_v +:+ " (paired with photo)")))) as Hrelocate.
  { apply (counts_bind 0 (S (length videos))); [apply counts_silent, move_or_copy_same_log|].
    intros final. apply (counts_bind 0 (S (length videos))); [apply counts_relative_to|].
    intros rel. apply (counts_bind 1 (length videos)); [apply counts_log|]. intros _.
    rewrite <- (sum_list_ones videos).
    apply counts_for_each. intros v. apply counts_relocate with (msg := λ final_v rel, _). }
  destruct dt as [d|]; cbn [bool_decide andb].
  - rewrite bool_decide_eq_false_2 by done. apply Hrelocate.
  - rewrite bool_decide_eq_true_2 by done. cbn [andb].
    destruct (include_unknown O); cbn [negb]; [apply Hrelocate|].
    apply (counts_bind 0 1); [apply counts_relative_to | intros; apply counts_log].
Qed.

Lemma counts_process_single (path : Path) : counts 1 (process_single C O src path).
Proof.
  unfold process_single. apply (counts_bind 0 1); [apply counts_relative_to|]. intros rel.
  intros st st' a. unfold try_except_M.
  match goal with |- context [match ?m st with _ => _ end] => set (body := m) end.
  assert (counts 1 body ∧ ∀ e st1, body st = (Raise e, st1) → st_log st1 = st_log st) as [Hret Hraise].
  { subst body. destruct (resolve_single_returns C path) as [[dt source] ->].
    assert (∀ dirname (msg : Path → string),
              let m := (final_target ← move_or_copy C O path (src // dirname);
                        _log (msg final_target)) in
              counts 1 m ∧ ∀ e st1, m st = (Raise e, st1) → st_log st1 = st_log st) as Hrelocate.
    { intros dirname msg m. split.
      - apply (counts_bind 0 1); [apply counts_silent, move_or_copy_same_log|].
        intros; apply counts_log.
      - intros e st1 [(p & st2 & _ & [=])|(e' & Hm & _)]%bind_inv.
        by apply move_or_copy_same_log in Hm as [Hm _]. }
    split.
    - intros st0 st0' a0. rewrite run_bind. unfold lift.
      destruct dt as [d|]; [apply Hrelocate|].
      destruct (negb (include_unknown O)); [apply counts_log | apply Hrelocate].
    - intros e st1. rewrite run_bind. unfold lift.
      destruct dt as [d|]; [apply Hrelocate|].
      destruct (negb (include_unknown O)); [done | apply Hrelocate]. }
  destruct (body st) as [[[]|e] st1] eqn:Hbody.
  - intros [= _ <-]. by eapply Hret.
  - intros [= _ <-]. specialize (Hraise e st1 eq_refl).
    exists [("Error with " +:+ path_str rel +:+ ": " +:+ e)].
    split; [|done]. simpl. by rewrite Hraise.
Qed.
End Counts.

(** A run that returns has logged one line for every single, one line for
    every pair it skipped, one line for the master and one for each video
    of every other pair, and the closing line. *)
Theorem worker_line_count (C : Collab) (O : Options) (src : Path)
    (walk : list Path) (fs : FS) :
  let groups := _pair_live_photos (_collect_files walk) in
  let out := run C O src walk fs in
  _collect_files walk ≠ [] →
  out.1 = Return tt →
  length (st_log out.2) =
    sum_list (pair_line_count C O <$> groups.1) + length groups.2 + 1.
Proof.
  intros groups out Hfiles Hret. subst out groups. unfold run in *.
  destruct (_worker C O src walk (mk_St fs [])) as [r st'] eqn:Hw. cbn [fst snd] in *. subst r.
  revert Hw. unfold _worker.
  destruct (_collect_files walk) as [|f files]; [done|]. cbn [length Nat.eqb].
  destruct (_pair_live_photos (f :: files)) as [pairs singles]. cbn [fst snd]. intros Hw.
  assert (counts (sum_list (pair_line_count C O <$> pairs) + (length singles + 1))
            (for_each pairs (process_pair C O src) ≫= λ _,
             for_each singles (process_single C O src) ≫= λ _, _log "Done!")) as Hcount.
  { apply counts_bind; [apply counts_for_each, counts_process_pair|]. intros _.
    apply counts_bind; [|intros; apply counts_log].
    rewrite <- (sum_list_ones singles).
    apply counts_for_each, counts_process_single. }
  apply Hcount in Hw as (new & Hlog & Hlen). simpl in Hlog. rewrite Hlog. lia.
Qed.

Lemma worker_line_count_witness :
  let C := Ref.collab Ex.exifs Ex.mtimes [Ex.a] in
  length (st_log (run C Ex.move_all Ex.src [Ex.jpg; Ex.mov; Ex.a; Ex.b] Ex.fs0).2) = 5.
Proof.
  intros C.
  rewrite (worker_line_count C Ex.move_all Ex.src [Ex.jpg; Ex.mov; Ex.a; Ex.b] Ex.fs0).
  - by vm_compute.
  - by vm_compute.
  - by vm_compute.
Defined.

(** *** The closing line *)

Lemma relocation_line_not_done (O : Options) (src f : Path) (folder label line : string) :
  relocation_line O src f folder label line → line ≠ "Done!".
Proof.
  intros (final & rel & _ & _ & ->). unfold action.
  destruct (dry_run O), (copy_mode O); intros Heq; vm_compute in Heq; discriminate Heq.
Qed.

(** The log tells how a run ended.  A run over no media file logs the one
    line [Found no media.] and changes nothing.  Any other run has logged
    [Done!] exactly when it returned, and then as its last line and nowhere
    else. *)
Theorem worker_completion_marker (C : Collab) (O : Options) (src : Path)
    (walk : list Path) (fs : FS) :
  let out := run C O src walk fs in
  (_collect_files walk = [] → out = (Return tt, mk_St fs ["Found no media."])) ∧
  (_collect_files walk ≠ [] →
   (out.1 = Return tt → ∃ lines, st_log out.2 = lines ++ ["Done!"] ∧ "Done!" ∉ lines) ∧
   (out.1 ≠ Return tt → "Done!" ∉ st_log out.2)).
Proof.
  intros out. subst out. unfold run, _worker. split.
  { by intros ->. }
  intros Hfiles. destruct (_collect_files walk) as [|f files]; [done|]. cbn [length Nat.eqb].
  destruct (_pair_live_photos (f :: files)) as [pairs singles].
  set (P := λ line : string, line ≠ "Done!").
  assert (∀ rest, P ("Skipping (no date found): " +:+ rest)) as Hskip.
  { intros rest Heq. vm_compute in Heq. discriminate Heq. }
  assert (∀ rest, P ("Error with " +:+ rest)) as Herror.
  { intros rest Heq. vm_compute in Heq. discriminate Heq. }
  assert (returns (grows P (λ _, True)) (λ _, True) (for_each pairs (process_pair C O src)))
    as Hpairs.
  { apply returns_for_each; [apply _|]. intros [master videos] _.
    destruct (resolve_master_returns C master) as [[dt source] Hres].
    eapply (returns_process_pair C O src _ P (grows_log P _)); [exact Hres | done | ..].
    - intros line. apply relocation_line_not_done.
    - intros v line _. apply relocation_line_not_done.
    - by apply grows_relocates_in. }
  assert (returns (grows P (λ _, True)) (λ _, True) (for_each singles (process_single C O src)))
    as Hsingles.
  { apply returns_for_each; [apply _|]. intros path _.
    destruct (resolve_single_returns C path) as [[dt source] Hres].
    eapply (returns_process_single C O src _ P (grows_log P _)); [exact Hres | done.. | |].
    - intros line. apply relocation_line_not_done.
    - by apply grows_relocates_in. }
  assert (∀ (st : St) new, st_log st = [] ++ new → Forall P new → "Done!" ∉ st_log st) as Hnot.
  { intros st new -> Hall Hin. rewrite Forall_forall in Hall. by apply (Hall _ Hin). }
  rewrite run_bind.
  destruct (for_each pairs (process_pair C O src) (mk_St fs [])) as [[[]|e] st1] eqn:H1;
    apply Hpairs in H1 as [[(new1 & Hlog1 & HP1) _] _]; cbn [st_log] in Hlog1.
  - rewrite run_bind.
    destruct (for_each singles (process_single C O src) st1) as [[[]|e] st2] eqn:H2;
      apply Hsingles in H2 as [[(new2 & Hlog2 & HP2) _] _].
    + cbn [fst snd _log st_log]. split; [|done]. intros _. exists (st_log st2). split; [done|].
      apply (Hnot st2 (new1 ++ new2)); [by rewrite Hlog2, Hlog1 | by apply Forall_app].
    + cbn [fst snd]. split; [done|]. intros _.
      apply (Hnot st2 (new1 ++ new2)); [by rewrite Hlog2, Hlog1 | by apply Forall_app].
  - cbn [fst snd]. split; [done|]. intros _. by apply (Hnot st1 new1).
Qed.

(** *** What a run removes *)

Global Instance keeps_but_preorder (movable : Prop) (files : list Path) :
  PreOrder (keeps_but movable files).
Proof.
  split; [by left|]. intros st1 st2 st3 H12 H23 p [Hp|?]%H12; [|by right]. by apply H23.
Qed.

Lemma keeps_but_log (movable : Prop) (files : list Path) (msg : string) :
  returns (keeps_but movable files) (λ _, True) (_log msg).
Proof. intros st r st' [= <- <-]. split; [|done]. by left. Qed.

Lemma move_or_copy_keeps (C : Collab) (O : Options) (files : list Path)
    (path target_dir : Path) :
  path ∈ files →
  returns (keeps_but (dry_run O = false ∧ copy_mode O = false) files) (λ _, True)
    (move_or_copy C O path target_dir).
Proof.
  intros Hpath.
  set (R := keeps_but (dry_run O = false ∧ copy_mode O = false) files).
  assert (∀ st fs', st_fs st ⊆ fs' → R st (mk_St fs' (st_log st))) as Hgrow.
  { intros st fs' Hsub p Hp. left. by apply Hsub. }
  unfold move_or_copy.
  eapply returns_bind with (V := λ _, True); [apply _ | |].
  { destruct (negb (dry_run O)); [|by apply returns_ret; [apply _|]].
    intros st r st'. unfold mkdir. destruct (mkdir_error _ _ _); intros [= <- <-].
    - split; [reflexivity | done].
    - split; [|done]. apply Hgrow. apply union_subseteq_l. }
  intros _ _. cbv zeta.
  eapply returns_bind with (V := λ _, True); [apply _ | |].
  { intros st r st' [= <- <-]. split; [reflexivity | done]. }
  intros p _. destruct (dry_run O) eqn:Hdry; [by apply returns_ret; [apply _|]|].
  eapply returns_bind with (V := λ _, True); [apply _ | | intros; by apply returns_ret; [apply _|]].
  destruct (copy_mode O) eqn:Hcopy; intros st r st'.
  - unfold copy2. destruct (copy_error _ _ _ _); intros [= <- <-].
    + split; [reflexivity | done].
    + split; [|done]. apply Hgrow. apply union_subseteq_l.
  - unfold move. destruct (move_error _ _ _ _); intros [= <- <-].
    + split; [reflexivity | done].
    + split; [|done]. intros q Hq. cbn [st_fs].
      destruct (decide (q = path)) as [->|Hne]; [by right|].
      left. apply elem_of_union_l, elem_of_difference. split; [done|].
      by intros ?%elem_of_singleton.
Qed.

(** The steps of the worker under a relation that every logged line and
    the relocation of the files at hand respect. *)
Section WorkerStepsOn.
Context (C : Collab) (O : Options) (src : Path).
Context (R : relation St) `{!PreOrder R}.
Context (Hlog : ∀ msg, returns R (λ _, True) (_log msg)).

Lemma returns_process_pair_on (master : Path) (videos : list Path) :
  (∀ path dir, path ∈ master :: videos →
               returns R (λ _, True) (move_or_copy C O path dir)) →
  returns R (λ _, True) (process_pair C O src (master, videos)).
Proof.
  intros Hmoc. unfold process_pair.
  eapply returns_bind; [apply _ | apply returns_lift, _ |].
  intros [dt source] _.
  destruct (bool_decide (dt = None) && negb (include_unknown O)).
  - eapply returns_bind; [apply _ | apply returns_relative_to, _ |]. intros rel _. apply Hlog.
  - cbv zeta. eapply returns_bind; [apply _ | apply Hmoc; left |]. intros p _.
    eapply returns_bind; [apply _ | apply returns_relative_to, _ |]. intros rel _.
    eapply returns_bind; [apply _ | apply Hlog |]. intros _ _.
    apply returns_for_each; [apply _|]. intros v Hv.
    eapply returns_bind; [apply _ | apply Hmoc; by right |]. intros p' _.
    eapply returns_bind; [apply _ | apply returns_relative_to, _ |]. intros rel' _. apply Hlog.
Qed.

Lemma returns_process_single_on (path : Path) :
  (∀ dir, returns R (λ _, True) (move_or_copy C O path dir)) →
  returns R (λ _, True) (process_single C O src path).
Proof.
  intros Hmoc. unfold process_single.
  eapply returns_bind; [apply _ | apply returns_relative_to, _ |]. intros rel _.
  apply returns_try_except; [apply _ | | intros; apply Hlog].
  eapply returns_bind; [apply _ | apply returns_lift, _ |]. intros [dt source] _.
  assert (∀ dirname,
            returns R (λ _, True)
              (final_target ← move_or_copy C O path (src // dirname);
               _log (action O +:+ ": " +:+ path_str rel +:+ "  ->  " +:+ dirname +:+ "/"
                     +:+ name final_target +:+ src_label source))) as Hrelocate.
  { intros dirname. eapply returns_bind; [apply _ | apply Hmoc |]. intros; apply Hlog. }
  destruct dt; [apply Hrelocate|]. destruct (negb (include_unknown O)); [apply Hlog | apply Hrelocate].
Qed.
End WorkerStepsOn.

(** The members of the groups are files of the input. *)
Lemma groups_of_files (files : list Path) :
  (∀ master videos, (master, videos) ∈ (_pair_live_photos files).1 →
                    ∀ p, p ∈ master :: videos → p ∈ files) ∧
  (∀ s, s ∈ (_pair_live_photos files).2 → s ∈ files).
Proof.
  unfold _pair_live_photos.
  pose proof (buckets_ok files (by_dir_of files) ([], [])) as Hok.
  destruct (foldl _ _ (by_dir_of files)) as [pairs singles]. cbn [fst snd].
  destruct Hok as [Hpairs Hsingles].
  { split; [by intros ?? ?%elem_of_nil | by intros ? ?%elem_of_nil]. }
  { intros ?????. apply by_dir_of_files. }
  cbn [fst snd] in *. split.
  - intros master videos [(? & _ & Hv) _]%Hpairs p [->|Hp]%elem_of_cons; [done|].
    by apply Hv.
  - intros s [_ Hs%elem_of_fromkeys]%list_elem_of_filter. auto.
Qed.

(** A run removes no path but the media files it collected, and those only
    when it moves: a simulated run and a run in copy mode remove nothing. *)
Theorem worker_removes_only_moved_files (C : Collab) (O : Options) (src : Path)
    (walk : list Path) (fs : FS) (p : Path) :
  p ∈ fs →
  p ∈ st_fs (run C O src walk fs).2 ∨
  (dry_run O = false ∧ copy_mode O = false) ∧ p ∈ _collect_files walk.
Proof.
  intros Hp.
  set (R := keeps_but (dry_run O = false ∧ copy_mode O = false) (_collect_files walk)).
  assert (returns R (λ _, True) (_worker C O src walk)) as Hrun.
  { unfold _worker. destruct (length (_collect_files walk) =? 0); [apply keeps_but_log|].
    destruct (groups_of_files (_collect_files walk)) as [Hpairs Hsingles].
    destruct (_pair_live_photos (_collect_files walk)) as [pairs singles]. cbn [fst snd] in *.
    eapply returns_bind; [apply _ | apply returns_for_each; [apply _|] |].
    { intros [master videos] Hin. apply returns_process_pair_on; [apply _ | apply keeps_but_log |].
      intros path dir Hpath. apply move_or_copy_keeps. by eapply Hpairs. }
    intros _ _.
    eapply returns_bind; [apply _ | apply returns_for_each; [apply _|] |].
    { intros path Hin. apply returns_process_single_on; [apply _ | apply keeps_but_log |].
      intros dir. apply move_or_copy_keeps. by apply Hsingles. }
    intros _ _. apply keeps_but_log. }
  unfold run. destruct (_worker C O src walk (mk_St fs [])) as [r st'] eqn:Hw.
  apply Hrun in Hw as [Hkeep _]. by apply (Hkeep p).
Qed.

Lemma worker_removes_only_moved_files_witness :
  let C := Ref.collab Ex.exifs Ex.mtimes [] in
  let copy_all := {| dry_run := false; copy_mode := true; include_unknown := true |} in
  Ex.a ∈ st_fs (run C copy_all Ex.src [Ex.a; Ex.b] Ex.fs0).2.
Proof.
  intros C copy_all.
  destruct (worker_removes_only_moved_files C copy_all Ex.src [Ex.a; Ex.b] Ex.fs0 Ex.a)
    as [Hin|[[_ [=]] _]].
  - unfold Ex.fs0. set_solver.
  - exact Hin.
Defined.

(** *** Occupied destinations *)

Lemma try_except_M_ext {A} (m m' : M A) (h h' : string → M A) (st : St) :
  m st = m' st → (∀ e st1, h e st1 = h' e st1) →
  try_except_M m h st = try_except_M m' h' st.
Proof.
  intros Hm Hh. unfold try_except_M. rewrite Hm. destruct (m' st) as [[a|e] st1]; [done | apply Hh].
Qed.

Section FreeDestinations.
Context (C C' : Collab).
Context (Hagree : agree_on_free_destinations C C').

Lemma get_image_datetime_free (path : Path) :
  get_image_datetime C path = get_image_datetime C' path.
Proof.
  destruct Hagree as (Hstrptime & Htags & Hexif & Hmtime & _).
  assert (∀ value l, parse_with C value l = parse_with C' value l) as Hparse.
  { intros value l. induction l as [|f l IH]; simpl; [done|]. by rewrite Hstrptime, IH. }
  assert (∀ exif keys, scan_candidates C exif keys = scan_candidates C' exif keys) as Hscan.
  { intros exif keys. induction keys as [|k keys IH]; simpl; [done|].
    unfold parse_exif_datetime. destruct (exif !! k); [|done].
    case_bool_decide; [done|]. by rewrite Hparse, IH. }
  rewrite !get_image_datetime_unfold. unfold mtime_fallback, _exif_dict_from_image.
  rewrite Hexif, Hmtime, Htags. destruct (open_getexif C' path); [|done]. by rewrite Hscan.
Qed.

Lemma resolve_free (path : Path) :
  resolve_master C path = resolve_master C' path ∧
  resolve_single C path = resolve_single C' path.
Proof.
  unfold resolve_master, resolve_single. rewrite get_image_datetime_free.
  destruct Hagree as (_ & _ & _ & Hmtime & _). by rewrite Hmtime.
Qed.

(** The destination of a copy or a move is never occupied, so the two
    collaborators are not told apart. *)
Lemma move_or_copy_free (O : Options) (path target_dir : Path) (st : St) :
  move_or_copy C O path target_dir st = move_or_copy C' O path target_dir st.
Proof.
  destruct Hagree as (_ & _ & _ & _ & Hmkdir & Hcopy & Hmove).
  unfold move_or_copy. destruct (dry_run O); cbn [negb]; [done|].
  apply bind_ext; [unfold mkdir; by rewrite Hmkdir|].
  intros _ st1. cbv zeta. rewrite !run_bind. unfold unique_target.
  pose proof (ensure_unique_path_free (st_fs st1) (target_dir // name path)) as Hfree.
  apply bind_ext; [|done].
  destruct (copy_mode O); unfold copy2, move; by rewrite ?Hcopy, ?Hmove.
Qed.

Lemma process_pair_free (O : Options) (src : Path) (item : Path * list Path) (st : St) :
  process_pair C O src item st = process_pair C' O src item st.
Proof.
  destruct item as [master videos]. unfold process_pair.
  apply bind_ext; [by rewrite (proj1 (resolve_free master))|].
  intros [dt source] st1.
  destruct (bool_decide (dt = None) && negb (include_unknown O)); [done|].
  cbv zeta. apply bind_ext; [apply move_or_copy_free|].
  intros p st2. apply bind_ext; [done|]. intros rel st3. apply bind_ext; [done|].
  intros _ st4. apply for_each_ext. intros v st5.
  apply bind_ext; [apply move_or_copy_free | done].
Qed.

Lemma process_single_free (O : Options) (src : Path) (path : Path) (st : St) :
  process_single C O src path st = process_single C' O src path st.
Proof.
  unfold process_single. apply bind_ext; [done|]. intros rel st1.
  apply try_except_M_ext; [|done].
  apply bind_ext; [by rewrite (proj2 (resolve_free path))|].
  intros [dt source] st2.
  destruct dt; [apply bind_ext; [apply move_or_copy_free | done]|].
  destruct (negb (include_unknown O)); [done|].
  apply bind_ext; [apply move_or_copy_free | done].
Qed.
End FreeDestinations.

(** A run never copies or moves a file onto an occupied path: whether such
    an operation would fail or overwrite makes no difference to it. *)
Theorem worker_never_overwrites (C C' : Collab) (O : Options) (src : Path)
    (walk : list Path) (fs : FS) :
  agree_on_free_destinations C C' →
  run C O src walk fs = run C' O src walk fs.
Proof.
  intros Hagree. unfold run, _worker.
  destruct (length (_collect_files walk) =? 0); [done|].
  destruct (_pair_live_photos (_collect_files walk)) as [pairs singles].
  apply bind_ext; [apply for_each_ext; intros; by apply process_pair_free|].
  intros _ st1. apply bind_ext; [|done].
  apply for_each_ext. intros. by apply process_single_free.
Qed.

Lemma worker_never_overwrites_witness :
  let C := Ref.collab Ex.exifs Ex.mtimes [] in
  let C' := {| strptime := strptime C; open_getexif := open_getexif C; TAGS := TAGS C;
               stat_mtime := stat_mtime C; mkdir_error := mkdir_error C;
               copy_error := λ fs _ q,
                 if bool_decide (q ∈ fs) then Some "FileExistsError" else None;
               move_error := λ fs _ q,
                 if bool_decide (q ∈ fs) then Some "FileExistsError" else None |} in
  run C Ex.move_all Ex.src [Ex.jpg; Ex.mov; Ex.a; Ex.b] Ex.fs0 =
  run C' Ex.move_all Ex.src [Ex.jpg; Ex.mov; Ex.a; Ex.b] Ex.fs0.
Proof.
  intros C C'. apply worker_never_overwrites.
  split; [done|]. split; [done|]. split; [done|]. split; [done|]. split; [done|].
  split; intros fs p q Hq; cbn; by rewrite bool_decide_eq_false_2.
Defined.

(** *** Folder names *)

Lemma all_digits_app (s t : string) :
  all_digits (s +:+ t) = all_digits s && all_digits t.
Proof.
  induction s as [|a s IH]; [done|].
  change (all_digits (String a s +:+ t))
    with (bool_decide (is_Some (Ascii.is_nat a)) && all_digits (s +:+ t)).
  rewrite IH. simpl. by rewrite andb_assoc.
Qed.

Lemma pretty_N_char_digit (x : N) : all_digits (String (pretty_N_char x) "") = true.
Proof. unfold pretty_N_char. by repeat case_match. Qed.

(** The digits [pretty_N_go] puts in front of its accumulator: decimal
    digits, the first of which is not zero. *)
Lemma pretty_N_go_digits (x : N) (s : string) :
  ∃ d, pretty_N_go x s = d +:+ s ∧ all_digits d = true ∧
       ((0 < x)%N → ∃ c d', d = String c d' ∧ c ≠ "0"%char).
Proof.
  revert s. induction (N.lt_wf_0 x) as [x _ IH]; intros s.
  destruct (decide (x = 0)%N) as [->|Hx].
  { exists "". split; [done|]. split; [done|]. intros ?. lia. }
  rewrite pretty_N_go_step by lia.
  destruct (IH (x `div` 10)%N) with (s := String (pretty_N_char (x `mod` 10)) s)
    as (d1 & Hd1 & Hdigits & Hlead); [apply N.div_lt; lia|].
  exists (d1 +:+ String (pretty_N_char (x `mod` 10)) "").
  split; [by rewrite Hd1, str_app_assoc|].
  split; [by rewrite all_digits_app, Hdigits, pretty_N_char_digit|].
  intros _. destruct (decide (x `div` 10 = 0)%N) as [Hdiv|Hdiv].
  - rewrite Hdiv, pretty_N_go_0 in Hd1.
    assert (d1 = "") as ->.
    { apply (str_app_inj_r _ "" (String (pretty_N_char (x `mod` 10)) s)). by rewrite <- Hd1. }
    exists (pretty_N_char (x `mod` 10)), "". split; [done|].
    assert (x < 10)%N as Hlt by (apply N.div_small_iff in Hdiv; lia).
    rewrite N.mod_small by done.
    assert (x = 1 ∨ x = 2 ∨ x = 3 ∨ x = 4 ∨ x = 5 ∨ x = 6 ∨ x = 7 ∨ x = 8 ∨ x = 9)%N
      as Hcases by lia.
    repeat (destruct Hcases as [->|Hcases]; [done|]). by subst.
  - destruct Hlead as (c & d' & -> & Hc); [by apply N.neq_0_lt_0|].
    by exists c, (d' +:+ String (pretty_N_char (x `mod` 10)) "").
Qed.

Lemma pretty_N_digits (n : N) :
  all_digits (pretty n) = true ∧
  ∃ c d, pretty n = String c d ∧ (n ≠ 0%N → c ≠ "0"%char).
Proof.
  unfold pretty, pretty_N. case_decide as Hn.
  - split; [done|]. by exists "0"%char, "".
  - destruct (pretty_N_go_digits n "") as (d & Hd & Hdigits & Hlead).
    assert (pretty_N_go n "" = d) as ->.
    { rewrite Hd. clear. induction d as [|a d IH]; [done|].
      change (String a (d +:+ "") = String a d). by rewrite IH. }
    split; [done|]. destruct Hlead as (c & d' & -> & Hc); [lia|]. by exists c, d'.
Qed.

Lemma format_02d_digits (n : N) :
  all_digits (Str.format_02d n) = true ∧ ∃ c d, Str.format_02d n = String c d.
Proof.
  unfold Str.format_02d. destruct (pretty_N_digits n) as (Hdigits & c & d & Hn & _).
  destruct (n <? 10)%N.
  - split; [|by exists "0"%char, (pretty n)].
    change (all_digits ("0" +:+ pretty n)) with (all_digits (pretty n)). done.
  - split; [done|]. by exists c, d.
Qed.

Lemma format_02d_inj (n m : N) : Str.format_02d n = Str.format_02d m → n = m.
Proof.
  assert (∀ a b : N, (a < 10)%N → (10 ≤ b)%N → "0" +:+ pretty a ≠ pretty b) as Hmixed.
  { intros a b _ Hb Heq. destruct (pretty_N_digits b) as (_ & c & d & Hpb & Hc).
    rewrite Hpb in Heq. injection Heq as Hc0 _. apply Hc; [lia | done]. }
  unfold Str.format_02d.
  destruct (N.ltb_spec n 10), (N.ltb_spec m 10); intros Heq.
  - injection Heq as Heq. by apply (inj pretty).
  - by destruct (Hmixed n m).
  - by destruct (Hmixed m n).
  - by apply (inj pretty).
Qed.

(** Two strings of digits followed by a hyphen: the digits and the rests
    agree when the wholes do. *)
Lemma digits_dash_inj (d1 d2 r1 r2 : string) :
  all_digits d1 = true → all_digits d2 = true →
  d1 +:+ "-" +:+ r1 = d2 +:+ "-" +:+ r2 → d1 = d2 ∧ r1 = r2.
Proof.
  revert d2. induction d1 as [|a d1 IH]; intros [|b d2] H1 H2 Heq.
  - change (String "-" r1 = String "-" r2) in Heq. by injection Heq as ->.
  - change (String "-" r1 = String b (d2 +:+ "-" +:+ r2)) in Heq.
    injection Heq as <- _. by vm_compute in H2.
  - change (String a (d1 +:+ "-" +:+ r1) = String "-" r2) in Heq.
    injection Heq as -> _. by vm_compute in H1.
  - change (String a (d1 +:+ "-" +:+ r1) = String b (d2 +:+ "-" +:+ r2)) in Heq.
    injection Heq as -> Heq. simpl in H1, H2.
    apply andb_prop in H1 as [_ H1]. apply andb_prop in H2 as [_ H2].
    destruct (IH d2 H1 H2 Heq) as [-> ->]. done.
Qed.

(** The folder tells the year and the month: dates of different years or
    months get different folders.  No date gets the folder of the files
    without a date. *)
Theorem build_target_dirname_inj (dt1 dt2 : datetime) :
  (build_target_dirname dt1 = build_target_dirname dt2 →
   year dt1 = year dt2 ∧ month dt1 = month dt2) ∧
  build_target_dirname dt1 ≠ UNKNOWN_DIR_NAME.
Proof.
  unfold build_target_dirname. split.
  - intros Heq.
    apply digits_dash_inj in Heq as [Hy Hm]; [|apply format_02d_digits..].
    split; by apply format_02d_inj.
  - destruct (format_02d_digits (year dt1)) as (Hdigits & c & d & Hy). rewrite Hy in *.
    intros Heq. injection Heq as -> _. by vm_compute in Hdigits.
Qed.

(** *** The buckets and what becomes of their files *)

Lemma setdefault_with_keys {K V : Type} `{EqDecision K}
    (k : K) (dflt : V) (f : V → V) (d : list (K * V)) :
  (setdefault_with k dflt f d).*1 = if decide (k ∈ d.*1) then d.*1 else d.*1 ++ [k].
Proof.
  induction d as [|[k0 v0] d IH]; [done|]. cbn [setdefault_with].
  destruct (decide (k0 = k)) as [->|Hne]; rewrite !fmap_cons; cbn [fst].
  - rewrite decide_True; [done | left].
  - rewrite IH. destruct (decide (k ∈ d.*1)) as [Hin|Hout].
    + rewrite decide_True; [done | by right].
    + rewrite decide_False; [done|]. intros [?|?]%elem_of_cons; congruence.
Qed.

Lemma setdefault_with_NoDup {K V : Type} `{EqDecision K}
    (k : K) (dflt : V) (f : V → V) (d : list (K * V)) :
  NoDup d.*1 → NoDup (setdefault_with k dflt f d).*1.
Proof.
  intros Hd. rewrite setdefault_with_keys. destruct (decide (k ∈ d.*1)); [done|].
  apply NoDup_app. split; [done|]. split; [|apply NoDup_singleton].
  intros x Hx ->%list_elem_of_singleton. done.
Qed.

Lemma elem_of_keys {K V : Type} (k : K) (v : V) (d : list (K * V)) :
  (k, v) ∈ d → k ∈ d.*1.
Proof. intros Hin. apply list_elem_of_fmap. by exists (k, v). Qed.

Lemma NoDup_keys_agree {K V : Type} (k : K) (v1 v2 : V) (d : list (K * V)) :
  NoDup d.*1 → (k, v1) ∈ d → (k, v2) ∈ d → v1 = v2.
Proof.
  induction d as [|[k0 v0] d IH]; simpl; [by intros _ ?%elem_of_nil|].
  intros [Hout Hd]%NoDup_cons [[= -> ->]|H1]%elem_of_cons [[= ?]|H2]%elem_of_cons; subst.
  - done.
  - by apply elem_of_keys in H2.
  - by apply elem_of_keys in H1.
  - by apply IH.
Qed.

Lemma setdefault_with_elem {K V : Type} `{EqDecision K}
    (k : K) (dflt : V) (f : V → V) (d : list (K * V)) (k' : K) (v' : V) :
  NoDup d.*1 →
  (k', v') ∈ setdefault_with k dflt f d ↔
  (k' ≠ k ∧ (k', v') ∈ d) ∨
  (k' = k ∧ ((∃ v, (k, v) ∈ d ∧ v' = f v) ∨ ((k ∉ d.*1) ∧ v' = f dflt))).
Proof.
  induction d as [|[k0 v0] d IH]; cbn [setdefault_with]; rewrite ?fmap_cons; cbn [fst].
  - intros _. rewrite list_elem_of_singleton. split.
    + intros [= -> ->]. right. split; [done|]. right. split; [|done]. by intros ?%elem_of_nil.
    + intros [[_ []%elem_of_nil]|[-> [(v & []%elem_of_nil & _)|[_ ->]]]]. done.
  - intros [Hout Hd]%NoDup_cons. destruct (decide (k0 = k)) as [->|Hne].
    + rewrite elem_of_cons. split.
      * intros [[= -> ->]|Hin].
        -- right. split; [done|]. left. exists v0. split; [left | done].
        -- left. split; [|by right]. intros ->. by apply elem_of_keys in Hin.
      * intros [[Hne [[= ? ?]|Hin]%elem_of_cons]|[-> [(v & [[= ->]|Hin]%elem_of_cons & ->)|[Hk _]]]].
        -- congruence.
        -- by right.
        -- by left.
        -- by apply elem_of_keys in Hin.
        -- exfalso. apply Hk. left.
    + rewrite elem_of_cons, (IH Hd). split.
      * intros [[= -> ->]|[[? ?]|[-> [(v & Hin & ->)|[Hk ->]]]]].
        -- left. split; [done | left].
        -- left. split; [done | by right].
        -- right. split; [done|]. left. exists v. split; [by right | done].
        -- right. split; [done|]. right. split; [|done].
           intros [?|?]%elem_of_cons; congruence.
      * intros [[? [[= -> ->]|Hin]%elem_of_cons]|[-> [(v & [[= ? ?]|Hin]%elem_of_cons & ->)|[Hk ->]]]].
        -- by left.
        -- right. left. done.
        -- congruence.
        -- right. right. split; [done|]. left. by exists v.
        -- right. right. split; [done|]. right. split; [|done].
           intros ?. apply Hk. by right.
Qed.

Lemma setdefault_with_key {K V : Type} `{EqDecision K}
    (k : K) (dflt : V) (f : V → V) (d : list (K * V)) :
  ∃ v, (k, v) ∈ setdefault_with k dflt f d.
Proof.
  assert (k ∈ (setdefault_with k dflt f d).*1) as Hin.
  { rewrite setdefault_with_keys. destruct (decide (k ∈ d.*1)); [done|].
    apply elem_of_app. right. left. }
  apply list_elem_of_fmap in Hin as ([k' v] & -> & Hin). by exists v.
Qed.

Lemma filter_none {A} (P : A → Prop) `{∀ x, Decision (P x)} (l : list A) :
  (∀ x, x ∈ l → ¬ P x) → filter P l = [].
Proof.
  intros Hno. destruct (filter P l) as [|x k] eqn:Hf; [done|].
  assert (x ∈ filter P l) as [? ?]%list_elem_of_filter by (rewrite Hf; left).
  by destruct (Hno x).
Qed.

Lemma buckets_of_prefix_step (l : list Path)
    (by_dir : list (Path * list (string * list Path))) (p : Path) :
  buckets_of_prefix l by_dir →
  buckets_of_prefix (l ++ [p])
    (setdefault_with (parent p) []
       (setdefault_with (stem p) [] (λ items, items ++ [p])) by_dir).
Proof.
  intros (Hnd & Hent & Hall).
  set (g := setdefault_with (stem p) [] (λ items : list Path, items ++ [p])).
  split; [by apply setdefault_with_NoDup|]. split.
  - intros dir stems' Hin'. apply (proj1 (setdefault_with_elem _ _ _ _ _ _ Hnd)) in Hin'.
    destruct Hin' as [[Hne Hin]|[-> [(stems & Hin & ->)|[Hout ->]]]].
    + destruct (Hent dir stems' Hin) as [Hnd' Hitems]. split; [done|].
      intros key items Hk. rewrite filter_app, <- (Hitems key items Hk).
      rewrite filter_singleton_False; [by rewrite app_nil_r | exact [] |].
      intros [? _]. congruence.
    + destruct (Hent _ stems Hin) as [Hnd' Hitems]. split; [by apply setdefault_with_NoDup|].
      intros key items' Hk. apply (proj1 (setdefault_with_elem _ _ _ _ _ _ Hnd')) in Hk.
      rewrite filter_app.
      destruct Hk as [[Hne Hk]|[-> [(items & Hk & ->)|[Hno ->]]]].
      * rewrite <- (Hitems key items' Hk).
        rewrite filter_singleton_False; [by rewrite app_nil_r | exact [] |].
        intros [_ ?]. congruence.
      * rewrite <- (Hitems _ items Hk). by rewrite filter_singleton_True.
      * rewrite filter_singleton_True; [|exact [] | done]. f_equal. symmetry.
        apply filter_none. intros q Hq [Hpar Hst].
        destruct (Hall q Hq) as (stems_q & items_q & Hin_q & Hk_q).
        rewrite Hpar in Hin_q. rewrite Hst in Hk_q.
        rewrite (NoDup_keys_agree _ _ _ _ Hnd Hin_q Hin) in Hk_q.
        by apply elem_of_keys in Hk_q.
    + split; [apply NoDup_singleton|].
      intros key items [= -> ->]%list_elem_of_singleton.
      assert (filter (in_bucket (parent p) (stem p)) l = []) as Hnil.
      { apply filter_none. intros q Hq [Hpar _].
        destruct (Hall q Hq) as (stems_q & items_q & Hin_q & _).
        rewrite Hpar in Hin_q. by apply elem_of_keys in Hin_q. }
      rewrite filter_app, Hnil, filter_singleton_True; [done | exact [] | done].
  - intros q [Hq| ->%list_elem_of_singleton]%elem_of_app.
    + destruct (Hall q Hq) as (stems & items & Hin & Hk).
      destruct (decide (parent q = parent p)) as [Hpar|Hpar].
      * destruct (Hent _ stems Hin) as [Hnd' _].
        exists (g stems), (if decide (stem q = stem p) then items ++ [p] else items).
        split.
        -- apply (setdefault_with_elem _ _ _ _ _ _ Hnd). right. split; [done|].
           left. exists stems. split; [by rewrite <- Hpar | done].
        -- apply (setdefault_with_elem _ _ _ _ _ _ Hnd').
           destruct (decide (stem q = stem p)) as [Hst|Hst].
           ++ right. split; [done|]. left. exists items. split; [by rewrite <- Hst | done].
           ++ by left.
      * exists stems, items. split; [|done].
        apply (setdefault_with_elem _ _ _ _ _ _ Hnd). by left.
    + destruct (setdefault_with_key (parent p) [] g by_dir) as [stems' Hin'].
      exists stems'.
      assert (∃ stems, stems' = g stems) as [stems ->].
      { apply (proj1 (setdefault_with_elem _ _ _ _ _ _ Hnd)) in Hin'.
        destruct Hin' as [[? _]|[_ [(stems & _ & ->)|[_ ->]]]]; [done | by eexists..]. }
      destruct (setdefault_with_key (stem p) [] (λ items : list Path, items ++ [p]) stems)
        as [items Hk].
      by exists items.
Qed.

(** The first loop files every file in its bucket. *)
Lemma by_dir_of_buckets (files : list Path) : buckets_of_prefix files (by_dir_of files).
Proof.
  unfold by_dir_of.
  assert (∀ l l0 acc, buckets_of_prefix l0 acc →
            buckets_of_prefix (l0 ++ l)
              (foldl (λ by_dir p,
                        setdefault_with (parent p) []
                          (setdefault_with (stem p) [] (λ items, items ++ [p])) by_dir)
                     acc l)) as Hfold.
  { induction l as [|p l IH]; intros l0 acc Hacc; simpl; [by rewrite app_nil_r|].
    replace (l0 ++ p :: l) with ((l0 ++ [p]) ++ l) by (by rewrite <- app_assoc).
    apply IH. by apply buckets_of_prefix_step. }
  apply (Hfold files [] []). split; [apply NoDup_nil_2|]. split.
  - by intros ?? ?%elem_of_nil.
  - by intros ? ?%elem_of_nil.
Qed.

Lemma setdefault_with_mono {K V : Type} `{EqDecision K}
    (k : K) (dflt : V) (f : V → V) (d : list (K * V)) (k' : K) (v : V) :
  (k', v) ∈ d → ∃ v', (k', v') ∈ setdefault_with k dflt f d ∧ (v' = v ∨ v' = f v).
Proof.
  induction d as [|[k0 v0] d IH]; cbn [setdefault_with]; [by intros ?%elem_of_nil|].
  intros [[= -> ->]|Hin]%elem_of_cons; destruct (decide (k0 = k)) as [->|Hne].
  - exists (f v0). split; [left | by right].
  - exists v0. split; [left | by left].
  - exists v. split; [by right | by left].
  - destruct (IH Hin) as (v' & Hin' & Hv'). exists v'. split; [by right | done].
Qed.

Lemma setdefault_with_new {K V : Type} `{EqDecision K}
    (k : K) (dflt : V) (f : V → V) (d : list (K * V)) :
  ∃ v, (k, f v) ∈ setdefault_with k dflt f d.
Proof.
  induction d as [|[k0 v0] d IH]; cbn [setdefault_with].
  - exists dflt. left.
  - destruct (decide (k0 = k)) as [->|Hne].
    + exists v0. left.
    + destruct IH as [v Hin]. exists v. by right.
Qed.

Lemma pair_bucket_grouped (acc : list (Path * list Path) * list Path)
    (items : list Path) (p : Path) :
  grouped acc p → grouped (pair_bucket acc items) p.
Proof.
  destruct acc as [pairs singles]. unfold pair_bucket, grouped.
  destruct (filter (λ x, is_image_file x) items) as [|i images];
    [intros [?|?]; [by left | right; apply elem_of_app; by left]|].
  destruct (filter (λ x, is_video_file x) items) as [|v videos];
    [intros [?|?]; [by left | right; apply elem_of_app; by left]|].
  cbn [fst snd]. intros [(master & vs & Hin & Hp)|Hp]; [left | right; apply elem_of_app; by left].
  destruct (setdefault_with_mono (hd [] (sorted (i :: images))) []
              (λ vs, vs ++ sorted (v :: videos)) pairs master vs Hin) as (vs' & Hin' & Hvs').
  exists master, vs'. split; [done|].
  destruct Hp as [->|Hp]; [by left | right].
  destruct Hvs' as [->| ->]; [done | apply elem_of_app; by left].
Qed.

Lemma pair_bucket_covers (acc : list (Path * list Path) * list Path)
    (items : list Path) (p : Path) :
  p ∈ items → is_media_file p = true →
  grouped (pair_bucket acc items) p ∨ dropped_from items p.
Proof.
  destruct acc as [pairs singles]. intros Hp Hmedia. unfold pair_bucket, grouped, dropped_from.
  assert (is_image_file p = true → p ∈ filter (λ x, is_image_file x) items) as Himage.
  { intros Hi. apply list_elem_of_filter. split; [by apply Is_true_true | done]. }
  assert (is_video_file p = true → p ∈ filter (λ x, is_video_file x) items) as Hvideo.
  { intros Hv. apply list_elem_of_filter. split; [by apply Is_true_true | done]. }
  destruct (filter (λ x, is_image_file x) items) as [|i images];
    [left; right; apply elem_of_app; by right|].
  destruct (filter (λ x, is_video_file x) items) as [|v videos];
    [left; right; apply elem_of_app; by right|].
  cbn [fst snd head tail].
  destruct (setdefault_with_new (hd [] (sorted (i :: images))) []
              (λ vs, vs ++ sorted (v :: videos)) pairs) as [vs Hin].
  unfold is_media_file in Hmedia. fold (is_image_file p) (is_video_file p) in Hmedia.
  apply orb_prop in Hmedia as [Hi|Hv].
  - apply Himage in Hi. apply elem_of_cons in Hi as [->|Hi].
    + destruct (decide (hd [] (sorted (i :: images)) = i)) as [Heq|Hne].
      * left. left. eexists _, _. split; [exact Hin | by left].
      * right. done.
    + left. by right; apply elem_of_app; right.
  - left. left. eexists _, _. split; [exact Hin | right].
    apply elem_of_app. right. apply elem_of_sorted. by apply Hvideo.
Qed.

Lemma stems_grouped (stems : list (string * list Path))
    (acc : list (Path * list Path) * list Path) (p : Path) :
  grouped acc p →
  grouped (foldl (λ acc '(_, items), pair_bucket acc items) acc stems) p.
Proof.
  revert acc. induction stems as [|[key items] stems IH]; intros acc Hacc; [done|].
  simpl. by apply IH, pair_bucket_grouped.
Qed.

Lemma stems_cover (stems : list (string * list Path))
    (acc : list (Path * list Path) * list Path) (key : string) (items : list Path) (p : Path) :
  (key, items) ∈ stems → p ∈ items → is_media_file p = true →
  grouped (foldl (λ acc '(_, items), pair_bucket acc items) acc stems) p ∨
  dropped_from items p.
Proof.
  intros Hk Hp Hmedia. revert acc.
  induction stems as [|[key' items'] stems IH]; intros acc; [by apply elem_of_nil in Hk|].
  simpl. apply elem_of_cons in Hk as [[= <- <-]|Hk]; [|by apply IH].
  destruct (pair_bucket_covers acc items p Hp Hmedia) as [Hg|Hd]; [left | by right].
  by apply stems_grouped.
Qed.

Lemma buckets_grouped (by_dir : list (Path * list (string * list Path)))
    (acc : list (Path * list Path) * list Path) (p : Path) :
  grouped acc p →
  grouped (foldl (λ acc '(_, stems), foldl (λ acc '(_, items), pair_bucket acc items) acc stems)
                 acc by_dir) p.
Proof.
  revert acc. induction by_dir as [|[dir stems] by_dir IH]; intros acc Hacc; [done|].
  simpl. by apply IH, stems_grouped.
Qed.

Lemma buckets_cover (by_dir : list (Path * list (string * list Path)))
    (acc : list (Path * list Path) * list Path)
    (dir : Path) (stems : list (string * list Path)) (key : string) (items : list Path)
    (p : Path) :
  (dir, stems) ∈ by_dir → (key, items) ∈ stems → p ∈ items → is_media_file p = true →
  grouped (foldl (λ acc '(_, stems), foldl (λ acc '(_, items), pair_bucket acc items) acc stems)
                 acc by_dir) p ∨
  dropped_from items p.
Proof.
  intros Hin Hk Hp Hmedia. revert acc.
  induction by_dir as [|[dir' stems'] by_dir IH]; intros acc; [by apply elem_of_nil in Hin|].
  simpl. apply elem_of_cons in Hin as [[= <- <-]|Hin]; [|by apply IH].
  destruct (stems_cover stems acc key items p Hk Hp Hmedia) as [Hg|Hd]; [left | by right].
  by apply buckets_grouped.
Qed.

Lemma fromkeys_elem_of (l : list Path) (p : Path) : p ∈ l → p ∈ fromkeys l.
Proof.
  induction l as [|x l IH]; simpl; [done|].
  intros [->|Hin]%elem_of_cons; [left|].
  destruct (decide (p = x)) as [->|Hne]; [left | right].
  apply list_elem_of_filter. auto.
Qed.

Lemma pair_bucket_from_buckets (files : list Path)
    (acc : list (Path * list Path) * list Path) (items : list Path) :
  (∀ q, q ∈ items → items = bucket_of files q) →
  from_buckets files acc → from_buckets files (pair_bucket acc items).
Proof.
  destruct acc as [pairs singles]. intros Hitems [Hpairs Hsingles]. unfold pair_bucket.
  destruct (filter (λ x, is_image_file x) items) as [|i images] eqn:Hi.
  { split; [done|]. cbn [snd]. intros s [?|Hs]%elem_of_app; [auto|].
    right. left. by rewrite <- (Hitems s Hs). }
  destruct (filter (λ x, is_video_file x) items) as [|v videos] eqn:Hv.
  { split; [done|]. cbn [snd]. intros s [?|Hs]%elem_of_app; [auto|].
    right. right. by rewrite <- (Hitems s Hs). }
  assert (∀ q, q ∈ i :: images → q ∈ items) as Himages.
  { intros q. rewrite <- Hi. by intros [_ ?]%list_elem_of_filter. }
  split; cbn [fst snd].
  - apply (setdefault_with_entries
             (λ m vs, m = hd [] (sorted (filter (λ x, is_image_file x) (bucket_of files m))) ∧
                      ∀ v, v ∈ vs → is_video_file v = true)); [done | |].
    + split.
      * rewrite <- (Hitems (hd [] (sorted (i :: images)))), Hi; [done|].
        by apply Himages, sorted_nonempty.
      * intros w Hw. rewrite app_nil_l in Hw. apply (proj1 (elem_of_sorted _ _)) in Hw.
        rewrite <- Hv in Hw. apply list_elem_of_filter in Hw as [Hw _]. by apply Is_true_true.
    + intros vs [Hm Hvs]. split; [done|]. intros w [?|Hw]%elem_of_app; [auto|].
      apply (proj1 (elem_of_sorted _ _)) in Hw.
      rewrite <- Hv in Hw. apply list_elem_of_filter in Hw as [Hw _]. by apply Is_true_true.
  - intros s [?|Hs]%elem_of_app; [auto|]. left.
    rewrite <- (Hitems s), Hi; [done|]. apply Himages. by right.
Qed.

Lemma buckets_from_buckets (files : list Path)
    (by_dir : list (Path * list (string * list Path)))
    (acc : list (Path * list Path) * list Path) :
  (∀ dir stems key items q,
     (dir, stems) ∈ by_dir → (key, items) ∈ stems → q ∈ items → items = bucket_of files q) →
  from_buckets files acc →
  from_buckets files
    (foldl (λ acc '(_, stems), foldl (λ acc '(_, items), pair_bucket acc items) acc stems)
           acc by_dir).
Proof.
  revert acc. induction by_dir as [|[dir stems] by_dir IH]; intros acc Hby Hacc; [done|].
  simpl. apply IH; [intros dir' stems' key items q Hin; apply (Hby dir' stems'); by right|].
  assert (∀ key items q, (key, items) ∈ stems → q ∈ items → items = bucket_of files q) as Hstems.
  { intros key items q. apply (Hby dir stems). left. }
  clear Hby IH. revert acc Hacc. induction stems as [|[key items] stems IH]; intros acc Hacc; [done|].
  simpl. apply IH.
  - intros key' items' q Hin. apply (Hstems key' items'). by right.
  - apply pair_bucket_from_buckets; [|done]. intros q. apply (Hstems key items). left.
Qed.

Lemma by_dir_of_bucket_of (files : list Path) :
  (∀ dir stems key items q,
     (dir, stems) ∈ by_dir_of files → (key, items) ∈ stems → q ∈ items →
     items = bucket_of files q) ∧
  (∀ p, p ∈ files →
     ∃ dir stems key, (dir, stems) ∈ by_dir_of files ∧ (key, bucket_of files p) ∈ stems).
Proof.
  destruct (by_dir_of_buckets files) as (Hnd & Hent & Hall). split.
  - intros dir stems key items q Hin Hk Hq. destruct (Hent dir stems Hin) as [_ Hitems].
    rewrite (Hitems key items Hk) in Hq |- *.
    apply list_elem_of_filter in Hq as [[<- <-] _]. done.
  - intros p Hp. destruct (Hall p Hp) as (stems & items & Hin & Hk).
    exists (parent p), stems, (stem p). split; [done|].
    destruct (Hent _ stems Hin) as [_ Hitems]. unfold bucket_of.
    by rewrite <- (Hitems _ items Hk).
Qed.

(** Which files [_pair_live_photos] loses.  Every media file of the input is
    in one of the groups, unless it is the image listed first in a bucket
    with a video and it is not the smallest image of that bucket; when the
    input lists no file twice, such an image is in no group. *)
Theorem pair_live_photos_dropped (files : list Path) (p : Path) :
  p ∈ files → is_media_file p = true →
  (grouped (_pair_live_photos files) p ∨ dropped_from (bucket_of files p) p) ∧
  (NoDup files → dropped_from (bucket_of files p) p → ¬ grouped (_pair_live_photos files) p).
Proof.
  intros Hp Hmedia. destruct (by_dir_of_bucket_of files) as [Hexact Hall].
  destruct (Hall p Hp) as (dir & stems & key & Hin & Hk).
  assert (p ∈ bucket_of files p) as Hpb.
  { apply list_elem_of_filter. by split. }
  pose proof (buckets_cover (by_dir_of files) ([], []) dir stems key _ p Hin Hk Hpb Hmedia) as Hcover.
  pose proof (buckets_from_buckets files (by_dir_of files) ([], []) Hexact) as Hfrom.
  unfold _pair_live_photos.
  destruct (foldl _ _ (by_dir_of files)) as [pairs singles].
  destruct Hfrom as [Hpairs Hsingles].
  { split; [by intros ?? ?%elem_of_nil | by intros ? ?%elem_of_nil]. }
  cbn [fst snd] in *. unfold grouped in *. cbn [fst snd] in *. split.
  - destruct Hcover as [[Hg|Hs]|Hd]; [left; by left | | by right].
    left. destruct (decide (p ∈ in_pairs_of pairs)) as [Hin'|Hout].
    + left. by apply elem_of_in_pairs_of.
    + right. apply list_elem_of_filter. split; [done | by apply fromkeys_elem_of].
  - intros Hnd (Hvideos & Hhead & Hleast) [(master & vs & Hin' & [->|Hv])|Hs].
    + destruct (Hpairs master vs Hin') as [Hm _]. exact (Hleast (eq_sym Hm)).
    + destruct (Hpairs master vs Hin') as [_ Hvs].
      pose proof (video_not_image p (Hvs p Hv)) as Hni.
      destruct (filter (λ x, is_image_file x) (bucket_of files p)) as [|i images] eqn:Hi; [done|].
      injection Hhead as ->.
      assert (p ∈ filter (λ x, is_image_file x) (bucket_of files p)) as [Hip _]%list_elem_of_filter
        by (rewrite Hi; left).
      apply Is_true_true in Hip. congruence.
    + apply list_elem_of_filter in Hs as [_ Hs%elem_of_fromkeys].
      assert (NoDup (filter (λ x, is_image_file x) (bucket_of files p))) as Hndi
        by (by apply NoDup_filter, NoDup_filter).
      destruct (Hsingles p Hs) as [Ht|[Hnil|Hnil]]; [| by rewrite Hnil in Hhead | done].
      destruct (filter (λ x, is_image_file x) (bucket_of files p)) as [|i images]; [done|].
      injection Hhead as ->. by apply NoDup_cons in Hndi as [? _].
Qed.

Lemma pair_live_photos_dropped_witness :
  let files := [Ex.png; Ex.jpg; Ex.mov] in
  dropped_from (bucket_of files Ex.png) Ex.png ∧
  ¬ grouped (_pair_live_photos files) Ex.png.
Proof.
  intros files.
  destruct (pair_live_photos_dropped files Ex.png) as [_ Hdropped].
  - left.
  - reflexivity.
  - assert (dropped_from (bucket_of files Ex.png) Ex.png) as Hd.
    { split; [|split]; by vm_compute. }
    split; [exact Hd|]. apply Hdropped; [|exact Hd].
    apply (bool_decide_unpack (NoDup files)). by vm_compute.
Defined.

Lemma setdefault_with_fresh {K V : Type} `{EqDecision K}
    (k : K) (dflt : V) (f : V → V) (d : list (K * V)) :
  k ∉ d.*1 → setdefault_with k dflt f d = d ++ [(k, f dflt)].
Proof.
  induction d as [|[k0 v0] d IH]; cbn [setdefault_with]; rewrite ?fmap_cons; cbn [fst]; [done|].
  intros Hout. destruct (decide (k0 = k)) as [->|Hne]; [exfalso; apply Hout; left|].
  rewrite IH; [done|]. intros ?. apply Hout. by right.
Qed.

Lemma pair_bucket_pairs (files : list Path) (acc : list (Path * list Path) * list Path)
    (dir : Path) (key : string) (items : list Path) :
  items = filter (in_bucket dir key) files →
  (∀ master videos, (master, videos) ∈ acc.1 →
     (master, videos) = bucket_pair (bucket_of files master) ∧ ¬ in_bucket dir key master) →
  ∀ master videos, (master, videos) ∈ (pair_bucket acc items).1 →
    (master, videos) = bucket_pair (bucket_of files master) ∧
    (in_bucket dir key master ∨ (master, videos) ∈ acc.1).
Proof.
  destruct acc as [pairs singles]. cbn [fst]. intros Hitems Hacc. unfold pair_bucket.
  assert (∀ master videos, (master, videos) ∈ pairs →
            (master, videos) = bucket_pair (bucket_of files master) ∧
            (in_bucket dir key master ∨ (master, videos) ∈ pairs)) as Hold.
  { intros master videos Hin. split; [by apply Hacc | by right]. }
  destruct (filter (λ x, is_image_file x) items) as [|i images] eqn:Hi; [done|].
  destruct (filter (λ x, is_video_file x) items) as [|v videos] eqn:Hv; [done|].
  cbn [fst].
  assert (hd [] (sorted (i :: images)) ∈ items) as Hm.
  { assert (∀ q, q ∈ i :: images → q ∈ items) as Himages.
    { intros q. rewrite <- Hi. by intros [_ ?]%list_elem_of_filter. }
    by apply Himages, sorted_nonempty. }
  assert (in_bucket dir key (hd [] (sorted (i :: images)))) as Hb.
  { rewrite Hitems in Hm. by apply list_elem_of_filter in Hm as [? _]. }
  rewrite setdefault_with_fresh.
  - intros master vs [Hin|Hin]%elem_of_app.
    + destruct (Hacc master vs Hin) as [? ?]. split; [done | by right].
    + apply list_elem_of_singleton in Hin. injection Hin as -> ->.
      split; [|by left]. unfold bucket_pair, bucket_of. destruct Hb as [-> ->].
      by rewrite <- Hitems, Hi, Hv.
  - intros ([m vs] & Heq & Hin)%list_elem_of_fmap. cbn [fst] in Heq. subst m.
    by destruct (Hacc _ vs Hin) as [_ []].
Qed.

Lemma stems_pairs (files : list Path) (dir : Path) (stems : list (string * list Path))
    (acc : list (Path * list Path) * list Path) :
  NoDup stems.*1 →
  (∀ key items, (key, items) ∈ stems → items = filter (in_bucket dir key) files) →
  (∀ master videos, (master, videos) ∈ acc.1 →
     (master, videos) = bucket_pair (bucket_of files master) ∧
     (parent master = dir → stem master ∉ stems.*1)) →
  ∀ master videos,
    (master, videos) ∈ (foldl (λ acc '(_, items), pair_bucket acc items) acc stems).1 →
    (master, videos) = bucket_pair (bucket_of files master) ∧
    (parent master = dir ∨ (master, videos) ∈ acc.1).
Proof.
  revert acc. induction stems as [|[key items] stems IH]; intros acc Hnd Hstems Hacc.
  { intros master videos Hin. split; [by apply Hacc | by right]. }
  rewrite fmap_cons in Hnd, Hacc. cbn [fst] in Hnd, Hacc. apply NoDup_cons in Hnd as [Hkey Hnd].
  simpl. intros master videos Hin.
  pose proof (pair_bucket_pairs files acc dir key items) as Hstep.
  apply IH in Hin as [Hpair [Hdir|Hin]]; [by split; [|left] | | done | |].
  - apply Hstep in Hin as [_ [[? _]|Hin]]; [by split; [|left] | by split; [|right] | |].
    + apply Hstems. left.
    + intros m vs Hm. destruct (Hacc m vs Hm) as [? Hfresh]. split; [done|].
      intros [Hpar Hst]. apply (Hfresh Hpar). rewrite Hst. left.
  - intros key' items' Hin'. apply Hstems. by right.
  - intros m vs Hm. apply Hstep in Hm as [? [[_ Hst]|Hm]].
    + split; [done|]. intros _. by rewrite Hst.
    + destruct (Hacc m vs Hm) as [_ Hfresh]. split; [done|].
      intros Hpar Hin'. apply (Hfresh Hpar). by right.
    + apply Hstems. left.
    + intros m' vs' Hm'. destruct (Hacc m' vs' Hm') as [? Hfresh]. split; [done|].
      intros [Hpar Hst]. apply (Hfresh Hpar). rewrite Hst. left.
Qed.

Lemma buckets_pairs (files : list Path) (by_dir : list (Path * list (string * list Path)))
    (acc : list (Path * list Path) * list Path) :
  NoDup by_dir.*1 →
  (∀ dir stems, (dir, stems) ∈ by_dir →
     NoDup stems.*1 ∧
     ∀ key items, (key, items) ∈ stems → items = filter (in_bucket dir key) files) →
  (∀ master videos, (master, videos) ∈ acc.1 →
     (master, videos) = bucket_pair (bucket_of files master) ∧ parent master ∉ by_dir.*1) →
  pairs_of_buckets files
    (foldl (λ acc '(_, stems), foldl (λ acc '(_, items), pair_bucket acc items) acc stems)
           acc by_dir).1.
Proof.
  revert acc. induction by_dir as [|[dir stems] by_dir IH]; intros acc Hnd Hby Hacc.
  { intros master videos Hin. by apply Hacc. }
  rewrite fmap_cons in Hnd, Hacc. cbn [fst] in Hnd, Hacc. apply NoDup_cons in Hnd as [Hdir Hnd].
  simpl. apply IH; [done | intros dir' stems' Hin; apply Hby; by right |].
  destruct (Hby dir stems) as [Hnd' Hstems]; [left|].
  intros master videos Hin.
  apply (stems_pairs files dir) in Hin as [? [Hpar|Hin]]; [| |done|done|].
  - split; [done|]. by rewrite Hpar.
  - destruct (Hacc master videos Hin) as [_ Hfresh]. split; [done|].
    intros ?. apply Hfresh. by right.
  - intros m vs Hm. destruct (Hacc m vs Hm) as [? Hfresh]. split; [done|].
    intros Hpar. exfalso. apply Hfresh. rewrite Hpar. left.
Qed.

Lemma pair_bucket_keeps_master (acc : list (Path * list Path) * list Path)
    (items : list Path) (master : Path) :
  master ∈ (pair_bucket acc items).1.*1 ∨ master ∉ acc.1.*1.
Proof.
  destruct acc as [pairs singles]. unfold pair_bucket. cbn [fst].
  destruct (decide (master ∈ pairs.*1)) as [Hin|Hout]; [left | by right].
  destruct (filter (λ x, is_image_file x) items) as [|i images]; [done|].
  destruct (filter (λ x, is_video_file x) items) as [|v videos]; [done|].
  cbn [fst]. rewrite setdefault_with_keys. destruct (decide _); [done|].
  apply elem_of_app. by left.
Qed.

Lemma pair_bucket_master (acc : list (Path * list Path) * list Path) (items : list Path) :
  filter (λ x, is_image_file x) items ≠ [] →
  filter (λ x, is_video_file x) items ≠ [] →
  (bucket_pair items).1 ∈ (pair_bucket acc items).1.*1.
Proof.
  destruct acc as [pairs singles]. unfold pair_bucket, bucket_pair. cbn [fst].
  destruct (filter (λ x, is_image_file x) items) as [|i images]; [done|].
  destruct (filter (λ x, is_video_file x) items) as [|v videos]; [done|].
  intros _ _. cbn [fst]. rewrite setdefault_with_keys. destruct (decide _); [done|].
  apply elem_of_app. right. left.
Qed.

Lemma stems_keep_master (stems : list (string * list Path))
    (acc : list (Path * list Path) * list Path) (master : Path) :
  master ∈ acc.1.*1 →
  master ∈ (foldl (λ acc '(_, items), pair_bucket acc items) acc stems).1.*1.
Proof.
  revert acc. induction stems as [|[key items] stems IH]; intros acc Hacc; [done|].
  simpl. apply IH. by destruct (pair_bucket_keeps_master acc items master).
Qed.

Lemma buckets_keep_master (by_dir : list (Path * list (string * list Path)))
    (acc : list (Path * list Path) * list Path) (master : Path) :
  master ∈ acc.1.*1 →
  master ∈ (foldl (λ acc '(_, stems),
                     foldl (λ acc '(_, items), pair_bucket acc items) acc stems)
                  acc by_dir).1.*1.
Proof.
  revert acc. induction by_dir as [|[dir stems] by_dir IH]; intros acc Hacc; [done|].
  simpl. by apply IH, stems_keep_master.
Qed.

Lemma buckets_master (by_dir : list (Path * list (string * list Path)))
    (acc : list (Path * list Path) * list Path)
    (dir : Path) (stems : list (string * list Path)) (key : string) (items : list Path) :
  (dir, stems) ∈ by_dir → (key, items) ∈ stems →
  filter (λ x, is_image_file x) items ≠ [] →
  filter (λ x, is_video_file x) items ≠ [] →
  (bucket_pair items).1 ∈
    (foldl (λ acc '(_, stems), foldl (λ acc '(_, items), pair_bucket acc items) acc stems)
           acc by_dir).1.*1.
Proof.
  intros Hin Hk Hi Hv. revert acc.
  induction by_dir as [|[dir' stems'] by_dir IH]; intros acc; [by apply elem_of_nil in Hin|].
  simpl. apply elem_of_cons in Hin as [[= <- <-]|Hin]; [|by apply IH].
  apply buckets_keep_master. clear IH. revert acc.
  induction stems as [|[key' items'] stems IH]; intros acc; [by apply elem_of_nil in Hk|].
  simpl. apply elem_of_cons in Hk as [[= <- <-]|Hk]; [|by apply IH].
  by apply stems_keep_master, pair_bucket_master.
Qed.

(** The pairs are the buckets with an image and a video: the master is the
    smallest image of the bucket and the videos are the videos of that
    bucket, sorted.  No pair collects the videos of two buckets:
    [setdefault(master, [])] always starts from the empty list. *)
Theorem pair_live_photos_pairs (files : list Path) (master : Path) (videos : list Path) :
  (master, videos) ∈ (_pair_live_photos files).1 ↔
  ∃ p, p ∈ files ∧
       filter (λ x, is_image_file x) (bucket_of files p) ≠ [] ∧
       filter (λ x, is_video_file x) (bucket_of files p) ≠ [] ∧
       (master, videos) = bucket_pair (bucket_of files p).
Proof.
  destruct (by_dir_of_buckets files) as (Hnd & Hent & Hall).
  pose proof (buckets_pairs files (by_dir_of files) ([], []) Hnd Hent) as Hexact.
  pose proof (buckets_ok files (by_dir_of files) ([], [])) as Hok.
  pose proof (λ dir stems key items, buckets_master (by_dir_of files) ([], []) dir stems key items)
    as Hmaster.
  unfold _pair_live_photos.
  destruct (foldl _ _ (by_dir_of files)) as [pairs singles]. cbn [fst snd] in *.
  destruct Hok as [Hpairs _].
  { split; [by intros ?? ?%elem_of_nil | by intros ? ?%elem_of_nil]. }
  { intros ?????. apply by_dir_of_files. }
  specialize (Hexact ltac:(by intros ?? ?%elem_of_nil)). cbn [fst] in Hpairs. split.
  - intros Hin. destruct (Hpairs master videos Hin) as [(Hm & Himage & _) Hne].
    pose proof (Hexact master videos Hin) as Heq. exists master.
    split; [done|]. split; [|split; [|done]].
    + intros Hnil.
      assert (master ∈ filter (λ x, is_image_file x) (bucket_of files master)) as Hin'.
      { apply list_elem_of_filter. split; [by apply Is_true_true|].
        apply list_elem_of_filter. by split. }
      rewrite Hnil in Hin'. by apply elem_of_nil in Hin'.
    + intros Hnil. injection Heq as _ ->. rewrite Hnil in Hne. by apply Hne.
  - intros (p & Hp & Hi & Hv & ->).
    destruct (Hall p Hp) as (stems & items & Hin & Hk).
    destruct (Hent _ stems Hin) as [_ Hitems]. rewrite (Hitems _ items Hk) in Hk.
    fold (bucket_of files p) in Hk.
    pose proof (Hmaster _ stems _ _ Hin Hk Hi Hv) as Hkey.
    apply list_elem_of_fmap in Hkey as ([m vs] & Hm & Hkey). cbn [fst] in Hm. subst m.
    pose proof (Hexact _ vs Hkey) as Heq.
    assert (bucket_of files (bucket_pair (bucket_of files p)).1 = bucket_of files p) as Hsame.
    { set (m := (bucket_pair (bucket_of files p)).1).
      assert (m ∈ bucket_of files p) as Hmem.
      { apply sorted_nonempty in Hi. by apply list_elem_of_filter in Hi as [_ ?]. }
      apply list_elem_of_filter in Hmem as [[Hpar Hst] _].
      unfold bucket_of. by rewrite Hpar, Hst. }
    rewrite Hsame in Heq. rewrite <- Heq. exact Hkey.
Qed.

